(** * go-shell: a lifecycle wrapper around one operating-system child process

    A shallow embedding of [command.go] and [process.go] of
    matthewmueller/go-shell.  The goroutines of the package (the callers of
    [Wait], [Stop], [Kill], [Restart] and the background [wait] goroutine
    started by [Start]) are programs over a small set of atomic events; a
    world holds the controllers, and an interleaving semantics runs the
    threads one atomic event at a time. *)

From Stdlib Require Import String List Arith Lia Bool.
From stdpp Require Import base list.
Import ListNotations.
Open Scope string_scope.

(** ** Go error values *)

(** A non-nil Go [error]: the text of [err.Error()] and whether
    [errors.Is(err, os.ErrProcessDone)] holds for it. *)
Record goerr : Type := mkErr { Error : string; wrapsProcessDone : bool }.

(** The Go interface type [error]; [nil] is [None]. *)
Definition error : Type := option goerr.
Definition nil_error : error := None.

Definition goerr_eqb (a b : goerr) : bool :=
  String.eqb (Error a) (Error b) && Bool.eqb (wrapsProcessDone a) (wrapsProcessDone b).

(** ** The parts of package [os] the code uses *)
Module os.

(** [os.Interrupt] and [os.Kill]. *)
Inductive Signal : Type := Interrupt | Kill.

(** [os.ErrProcessDone]. *)
Definition ErrProcessDone : goerr :=
  mkErr "os: process already finished" true.

(** What the kernel and the handle know of a launched process: it runs,
    it has terminated and its status waits to be collected, or its status
    has been collected by [Wait] (the handle is then done). *)
Inductive status : Type :=
| Running
| Exited (werr : error)
| Reaped.

(** [*os.Process]: the state of the process and, as a trace, the signals
    that were delivered to it. *)
Record Process : Type := mkProcess { state : status; delivered : list Signal }.

End os.

(** ** The parts of package [os/exec] the code uses *)
Module exec.

(** [exec.Cmd].  Streams and files are opaque handles. *)
Record Cmd : Type := mkCmd {
  Path : string;
  Args : list string;
  Env : list string;
  Dir : string;
  Stdin : option nat;
  Stdout : option nat;
  Stderr : option nat;
  ExtraFiles : list nat;
  Process : option os.Process
}.

Definition with_Process (c : Cmd) (sp : option os.Process) : Cmd :=
  mkCmd (Path c) (Args c) (Env c) (Dir c) (Stdin c) (Stdout c) (Stderr c)
        (ExtraFiles c) sp.

(** [exec.Command(name, arg...)] sets only [Path] and [Args]; [path] is
    the path the library computes for [name] (the name itself, or what
    [LookPath] finds for a bare name). *)
Definition Command (path name : string) (arg : list string) : Cmd :=
  mkCmd path (name :: arg) [] EmptyString None None None [] None.

End exec.

(** [type Cmd exec.Cmd] *)
Definition Cmd : Type := exec.Cmd.

(** ** Controllers *)

(** [chan error] made with capacity one. *)
Record chan : Type := mkChan { buf : list error; closed : bool }.

Definition chan_cap : nat := 1.

(** [make(chan error, 1)] *)
Definition make_chan : chan := mkChan [] false.

(** [sync.Once]: not yet run, running (the mutex is held), done. *)
Inductive once_state : Type := Fresh | Locked | Finished.

(** [type onceError struct { o sync.Once; err error }] *)
Record onceError : Type := mkOnce { o : once_state; err : error }.

(** [type Process struct { cmd *Cmd; exitCh chan error; once onceError }],
    with three ghost counters that no program reads: the values sent on
    [exitCh], the closes of [exitCh], and the runs of the function guarded
    by [once]. *)
Record Process : Type := mkProc {
  cmd : Cmd;
  exitCh : chan;
  once : onceError;
  sends : nat;
  closes : nat;
  bodies : nat
}.

(** A [*Process] is the index of the controller in the world. *)
Abbreviation pid := nat.

(** [context.Context]: [context.Background()] is never done; any other
    context is done once it has been cancelled or its deadline has passed. *)
Inductive ctx : Type := Background | WithCancel (id : nat).

(** Why the Go runtime aborts the program. *)
Inductive panic : Type :=
| CloseOfClosedChannel
| SendOnClosedChannel
| SliceBoundsOutOfRange
| NilDereference
| UnlockOfUnlockedMutex.

(** ** Programs *)

(** The outcome of a [select] over [<-p.exitCh] and [<-ctx.Done()]. *)
Inductive selected : Type :=
| FromExit (e : error)
| CtxDone.

(** The atomic events of a goroutine, indexed by the type of their answer. *)
Inductive event : Type -> Type :=
| EHasProcess (p : pid) : event bool
    (* sp := p.cmd.Process; sp != nil *)
| ESignal (p : pid) (sig : os.Signal) : event error
    (* sp.Signal(sig), sp.Kill() *)
| ERecv (p : pid) : event error
    (* <-p.exitCh *)
| ESelect (p : pid) (c : ctx) : event selected
    (* select { case <-p.exitCh: case <-ctx.Done(): } *)
| EClose (p : pid) : event unit
    (* close(p.exitCh) *)
| ESend (p : pid) (e : error) : event unit
    (* p.exitCh <- e *)
| ECmdWait (p : pid) : event error
    (* p.cmd.exec().Wait(): returns once the process has terminated and the
       goroutines that copy its streams have finished *)
| EOnceEnter (p : pid) : event bool
    (* p.once.o.Do: true when this caller has to run the function *)
| EOnceLeave (p : pid) (e : error) : event unit
    (* e.err = result; the Once is done and its mutex released *)
| EOnceErr (p : pid) : event error
    (* return e.err *)
| EGetCmd (p : pid) : event Cmd
    (* p.cmd *)
| ELookPath (name : string) : event string
    (* the Path that exec.Command computes for name *)
| EExecStart (c : Cmd) : event (Cmd + goerr)
    (* c.exec().Start() *)
| ENewProcess (c : Cmd) : event pid
    (* newProcess(c) *)
| EGoWait (p : pid) : event unit
    (* go p.wait() *)
| EPanic (r : panic) : event Empty_set.

Inductive prog (A : Type) : Type :=
| Ret (a : A)
| Vis {X : Type} (e : event X) (k : X -> prog A).
Arguments Ret {A} a.
Arguments Vis {A X} e k.

Fixpoint bind {A B : Type} (m : prog A) (f : A -> prog B) : prog B :=
  match m with
  | Ret a => f a
  | Vis e k => Vis e (fun x => bind (k x) f)
  end.

Definition trigger {X : Type} (e : event X) : prog X := Vis e Ret.

Declare Scope prog_scope.
Delimit Scope prog_scope with prog.
Notation "x <- m ;; k" := (bind m (fun x => k))
  (at level 100, m at next level, right associativity) : prog_scope.
Notation "m ;; k" := (bind m (fun _ => k))
  (at level 100, right associativity) : prog_scope.
Open Scope prog_scope.

(** *** process.go *)

(** [errors.Is(err, os.ErrProcessDone)] *)
Definition isProcessDone (err : error) : bool :=
  match err with
  | Some e => wrapsProcessDone e
  | None => false
  end.

(** [err != nil && err.Error() == `signal: interrupt`] *)
Definition isInterrupt (err : error) : bool :=
  match err with
  | Some e => String.eqb (Error e) "signal: interrupt"
  | None => false
  end.

(** [err != nil && err.Error() == `signal: killed`] *)
Definition isKilled (err : error) : bool :=
  match err with
  | Some e => String.eqb (Error e) "signal: killed"
  | None => false
  end.

(** [err != nil] *)
Definition notnil (err : error) : bool :=
  match err with Some _ => true | None => false end.

(** [if err != nil && !expectError(err) { return err }; return nil] *)
Definition unexpected (expectError : error -> bool) (err : error) : error :=
  if notnil err && negb (expectError err) then err else nil_error.

(** [func (p *Process) wait()] *)
Definition wait (p : pid) : prog unit :=
  e <- trigger (ECmdWait p) ;;
  trigger (ESend p e).

(** The end of [kill]: [err := <-p.exitCh; close(p.exitCh)] and the check
    of [err]. *)
Definition kill_drain (p : pid) : prog error :=
  e <- trigger (ERecv p) ;;
  trigger (EClose p) ;;
  Ret (unexpected isKilled e).

(** [func (p *Process) kill() error] *)
Definition kill (p : pid) : prog error :=
  sp <- trigger (EHasProcess p) ;;
  if negb sp then Ret nil_error
  else
    e <- trigger (ESignal p os.Kill) ;;
    if notnil e then
      if isProcessDone e then Ret nil_error else Ret e
    else kill_drain p.

(** The end of [stop], from its [select] on. *)
Definition stop_drain (p : pid) (c : ctx) (expectError : error -> bool) : prog error :=
  r <- trigger (ESelect p c) ;;
  match r with
  | FromExit e =>
      trigger (EClose p) ;;
      Ret (unexpected expectError e)
  | CtxDone => kill p
  end.

(** [func (p *Process) stop(ctx context.Context) error] *)
Definition stop (p : pid) (c : ctx) : prog error :=
  sp <- trigger (EHasProcess p) ;;
  if negb sp then Ret nil_error
  else
    e <- trigger (ESignal p os.Interrupt) ;;
    if notnil e then
      if isProcessDone e then Ret nil_error
      else
        e' <- trigger (ESignal p os.Kill) ;;
        if notnil e' then Ret e'
        else stop_drain p c isKilled
    else stop_drain p c isInterrupt.

(** [func (e *onceError) Do(fn func() error) (err error)], on the guard of
    controller [p]. *)
Definition onceError_Do (p : pid) (fn : prog error) : prog error :=
  first <- trigger (EOnceEnter p) ;;
  (if first : bool then r <- fn ;; trigger (EOnceLeave p r) else Ret tt) ;;
  trigger (EOnceErr p).

(** [func (p *Process) Stop(ctx context.Context) (err error)] *)
Definition Stop (p : pid) (c : ctx) : prog error :=
  onceError_Do p (stop p c).

(** [func (p *Process) Kill() (err error)] *)
Definition Kill (p : pid) : prog error :=
  onceError_Do p (kill p).

(** [func (p *Process) Wait(ctx context.Context) error] *)
Definition Wait (p : pid) (c : ctx) : prog error :=
  r <- trigger (ESelect p c) ;;
  match r with
  | CtxDone => Kill p
  | FromExit e => Ret e
  end.

(** *** command.go *)

(** [Cmd.Start]: launch the command and wrap it in a controller. *)
Definition Start (c : Cmd) : prog (option pid * error) :=
  r <- trigger (EExecStart c) ;;
  match r with
  | inr e => Ret (None, Some e)
  | inl c' =>
      p <- trigger (ENewProcess c') ;;
      trigger (EGoWait p) ;;
      Ret (Some p, nil_error)
  end.

(** [func (c *Cmd) Run(ctx context.Context) error] *)
Definition Run (c : Cmd) (cx : ctx) : prog error :=
  r <- Start c ;;
  match r with
  | (Some p, None) => Wait p cx
  | (_, e) => Ret e
  end.

(** The command that [Restart] builds from [p.cmd]: [exec.Command] on the
    old path and [Args[1:]], then the six copied fields. *)
Definition restart_cmd (old : Cmd) (path : string) (args : list string) : Cmd :=
  let next := exec.Command path (exec.Path old) args in
  exec.mkCmd (exec.Path next) (exec.Args next) (exec.Env old) (exec.Dir old)
             (exec.Stdin old) (exec.Stdout old) (exec.Stderr old)
             (exec.ExtraFiles old) (exec.Process next).

(** What [Restart] does once [Stop] has returned nil. *)
Definition relaunch (p : pid) : prog (option pid * error) :=
  old <- trigger (EGetCmd p) ;;
  match exec.Args old with
  | [] => Vis (EPanic SliceBoundsOutOfRange) (fun x : Empty_set => match x with end)
  | _ :: args =>
      path <- trigger (ELookPath (exec.Path old)) ;;
      Start (restart_cmd old path args)
  end.

(** [Process.Restart]: stop the process, then start the same command. *)
Definition Restart (p : pid) (c : ctx) : prog (option pid * error) :=
  e <- Stop p c ;;
  if notnil e then Ret (None, e) else relaunch p.

(** ** The world *)

(** What a goroutine was started as: the background [go p.wait()] of
    [Start], or a call of the package's API by a client. *)
Inductive call : Type :=
| GoWait (p : pid)
| CallStart (c : Cmd)
| CallRun (c : Cmd) (cx : ctx)
| CallWait (p : pid) (cx : ctx)
| CallStop (p : pid) (cx : ctx)
| CallKill (p : pid)
| CallRestart (p : pid) (cx : ctx).

(** What a goroutine returned. *)
Inductive retval : Type :=
| RUnit
| RErr (e : error)
| RProc (r : option pid * error).

Record thread : Type := mkThread { origin : call; code : prog retval }.

Definition code_of (c : call) : prog retval :=
  match c with
  | GoWait p => wait p ;; Ret RUnit
  | CallStart c => r <- Start c ;; Ret (RProc r)
  | CallRun c cx => e <- Run c cx ;; Ret (RErr e)
  | CallWait p cx => e <- Wait p cx ;; Ret (RErr e)
  | CallStop p cx => e <- Stop p cx ;; Ret (RErr e)
  | CallKill p => e <- Kill p ;; Ret (RErr e)
  | CallRestart p cx => r <- Restart p cx ;; Ret (RProc r)
  end.

Definition spawn (c : call) : thread := mkThread c (code_of c).

(** The controllers (a [*Process] is an index), the contexts that are done,
    the goroutines, and the panic that stopped the program, if any. *)
Record world : Type := mkWorld {
  procs : list Process;
  cancelled : list nat;
  threads : list thread;
  crashed : option panic
}.

Definition empty_world : world := mkWorld [] [] [] None.

Definition set_procs (w : world) (ps : list Process) : world :=
  mkWorld ps (cancelled w) (threads w) (crashed w).
Definition set_threads (w : world) (ts : list thread) : world :=
  mkWorld (procs w) (cancelled w) ts (crashed w).
Definition set_cancelled (w : world) (cs : list nat) : world :=
  mkWorld (procs w) cs (threads w) (crashed w).
Definition set_crashed (w : world) (r : panic) : world :=
  mkWorld (procs w) (cancelled w) (threads w) (Some r).

Definition set_proc (w : world) (p : pid) (P : Process) : world :=
  set_procs w (<[p := P]> (procs w)).

Definition set_cmd (P : Process) (c : Cmd) : Process :=
  mkProc c (exitCh P) (once P) (sends P) (closes P) (bodies P).
Definition set_state (P : Process) (sp : os.Process) : Process :=
  set_cmd P (exec.with_Process (cmd P) (Some sp)).

(** [ctx.Done()] is ready. *)
Definition ctx_done (w : world) (c : ctx) : bool :=
  match c with
  | Background => false
  | WithCancel id => existsb (Nat.eqb id) (cancelled w)
  end.

(** What the environment decides when a goroutine performs an event. *)
Record oracle : Type := mkOracle {
  sigres : error;            (* the kernel's answer to a signal, for a handle that is not done *)
  ctx_first : bool;          (* select: the ready case taken when both are ready *)
  launch : option goerr;     (* the failure of exec.Cmd.Start, if it fails *)
  lookpath : option string;  (* the path exec.Command finds, if it differs from the name *)
  copying : bool             (* exec.Cmd.Wait: the goroutines that copy the streams still run *)
}.

Definition quiet : oracle := mkOracle None false None None false.

(** The path [exec.Command] computes for [name]. *)
Definition resolved (or : oracle) (name : string) : string :=
  match lookpath or with Some lp => lp | None => name end.

(** The handle of a process that was just launched. *)
Definition launched : os.Process := os.mkProcess os.Running [].

Inductive outcome (X : Type) : Type :=
| Ok (x : X) (w : world)
| Blocked
| Panics (r : panic).
Arguments Ok {X} x w.
Arguments Blocked {X}.
Arguments Panics {X} r.

(** A receive from [ch]: the oldest buffered value, the zero value of a
    closed and empty channel, or nothing yet. *)
Definition chan_recv (ch : chan) : option (error * chan) :=
  match buf ch with
  | v :: rest => Some (v, mkChan rest (closed ch))
  | [] => if closed ch then Some (nil_error, ch) else None
  end.

(** The updates of a controller. *)
Definition set_exitCh (P : Process) (ch : chan) : Process :=
  mkProc (cmd P) ch (once P) (sends P) (closes P) (bodies P).
Definition close_exit (P : Process) : Process :=
  mkProc (cmd P) (mkChan (buf (exitCh P)) true) (once P)
         (sends P) (S (closes P)) (bodies P).
Definition send_exit (P : Process) (v : error) : Process :=
  mkProc (cmd P) (mkChan (buf (exitCh P) ++ [v]) (closed (exitCh P))) (once P)
         (S (sends P)) (closes P) (bodies P).
Definition lock_once (P : Process) : Process :=
  mkProc (cmd P) (exitCh P) (mkOnce Locked (err (once P)))
         (sends P) (closes P) (S (bodies P)).
Definition finish_once (P : Process) (r : error) : Process :=
  mkProc (cmd P) (exitCh P) (mkOnce Finished r) (sends P) (closes P) (bodies P).
Definition deliver (P : Process) (sp : os.Process) (sig : os.Signal) : Process :=
  set_state P (os.mkProcess (os.state sp) (os.delivered sp ++ [sig])).
Definition terminate (P : Process) (sp : os.Process) (werr : error) : Process :=
  set_state P (os.mkProcess (os.Exited werr) (os.delivered sp)).
Definition reap (P : Process) (sp : os.Process) : Process :=
  set_state P (os.mkProcess os.Reaped (os.delivered sp)).

(** [&Process{cmd: cmd, exitCh: make(chan error, 1)}] *)
Definition new_proc (c : Cmd) : Process :=
  mkProc c make_chan (mkOnce Fresh nil_error) 0 0 0.

Definition recv_exit (w : world) (p : pid) (P : Process) : option (error * world) :=
  match chan_recv (exitCh P) with
  | Some (v, ch) => Some (v, set_proc w p (set_exitCh P ch))
  | None => None
  end.

(** The effect of one event on the world.  A controller that does not
    exist is a nil pointer. *)
Definition sem {X : Type} (e : event X) (or : oracle) (w : world) : outcome X :=
  match e in event X return outcome X with
  | EHasProcess p =>
      match procs w !! p with
      | None => Panics NilDereference
      | Some P => Ok (match exec.Process (cmd P) with Some _ => true | None => false end) w
      end
  | ESignal p sig =>
      match procs w !! p with
      | None => Panics NilDereference
      | Some P =>
          match exec.Process (cmd P) with
          | None => Panics NilDereference
          | Some sp =>
              match os.state sp with
              | os.Reaped => Ok (Some os.ErrProcessDone) w
              | _ =>
                  match sigres or with
                  | Some e => Ok (Some e) w
                  | None =>
                      Ok nil_error (set_proc w p (deliver P sp sig))
                  end
              end
          end
      end
  | ERecv p =>
      match procs w !! p with
      | None => Panics NilDereference
      | Some P =>
          match recv_exit w p P with
          | Some (v, w') => Ok v w'
          | None => Blocked
          end
      end
  | ESelect p c =>
      match procs w !! p with
      | None => Panics NilDereference
      | Some P =>
          match recv_exit w p P, ctx_done w c with
          | Some (v, w'), true => if ctx_first or then Ok CtxDone w else Ok (FromExit v) w'
          | Some (v, w'), false => Ok (FromExit v) w'
          | None, true => Ok CtxDone w
          | None, false => Blocked
          end
      end
  | EClose p =>
      match procs w !! p with
      | None => Panics NilDereference
      | Some P =>
          if closed (exitCh P) then Panics CloseOfClosedChannel
          else Ok tt (set_proc w p (close_exit P))
      end
  | ESend p v =>
      match procs w !! p with
      | None => Panics NilDereference
      | Some P =>
          if closed (exitCh P) then Panics SendOnClosedChannel
          else if Nat.ltb (length (buf (exitCh P))) chan_cap
          then Ok tt (set_proc w p (send_exit P v))
          else Blocked
      end
  | ECmdWait p =>
      match procs w !! p with
      | None => Panics NilDereference
      | Some P =>
          match exec.Process (cmd P) with
          | None => Ok (Some (mkErr "exec: not started" false)) w
          | Some sp =>
              match os.state sp with
              | os.Running => Blocked
              | os.Exited werr =>
                  if copying or then Blocked
                  else Ok werr (set_proc w p (reap P sp))
              | os.Reaped => Ok (Some (mkErr "exec: Wait was already called" false)) w
              end
          end
      end
  | EOnceEnter p =>
      match procs w !! p with
      | None => Panics NilDereference
      | Some P =>
          match o (once P) with
          | Fresh =>
              Ok true (set_proc w p (lock_once P))
          | Locked => Blocked
          | Finished => Ok false w
          end
      end
  | EOnceLeave p r =>
      match procs w !! p with
      | None => Panics NilDereference
      | Some P =>
          match o (once P) with
          | Locked =>
              Ok tt (set_proc w p (finish_once P r))
          | _ => Panics UnlockOfUnlockedMutex
          end
      end
  | EOnceErr p =>
      match procs w !! p with
      | None => Panics NilDereference
      | Some P => Ok (err (once P)) w
      end
  | EGetCmd p =>
      match procs w !! p with
      | None => Panics NilDereference
      | Some P => Ok (cmd P) w
      end
  | ELookPath name =>
      Ok (resolved or name) w
  | EExecStart c =>
      match exec.Process c with
      | Some _ => Ok (inr (mkErr "exec: already started" false)) w
      | None =>
          match launch or with
          | Some e => Ok (inr e) w
          | None => Ok (inl (exec.with_Process c (Some launched))) w
          end
      end
  | ENewProcess c =>
      Ok (length (procs w))
         (set_procs w (procs w ++ [new_proc c]))
  | EGoWait p =>
      Ok tt (set_threads w (threads w ++ [spawn (GoWait p)]))
  | EPanic r => Panics r
  end.

(** ** One goroutine on its own *)

(** How far a goroutine gets when it is given the environment's decisions
    for its next events, one per event, and nothing else runs. *)
Inductive result (A : Type) : Type :=
| Returns (a : A) (w : world) (rest : list oracle)
| Waits (m : prog A) (w : world)
| Aborts (r : panic) (w : world)
| Unscheduled (m : prog A) (w : world).
Arguments Returns {A} a w rest.
Arguments Waits {A} m w.
Arguments Aborts {A} r w.
Arguments Unscheduled {A} m w.

Fixpoint run {A : Type} (ors : list oracle) (m : prog A) (w : world) {struct ors}
  : result A :=
  match m with
  | Ret a => Returns a w ors
  | Vis e k =>
      match ors with
      | [] => Unscheduled m w
      | or :: ors' =>
          match sem e or w with
          | Ok x w' => run ors' (k x) w'
          | Blocked => Waits m w
          | Panics r => Aborts r w
          end
      end
  end.

(** ** All goroutines together *)

(** What can happen next: goroutine [t] performs its next event, the
    process of controller [p] terminates, a context becomes done, or a
    client calls the API in a new goroutine. *)
Inductive label : Type :=
| Sched (t : nat) (or : oracle)
| Exit (p : pid) (werr : error)
| Cancel (id : nat)
| Call (c : call).

(** A client can only call a method on a controller that [Start] returned. *)
Definition callable (w : world) (c : call) : bool :=
  match c with
  | GoWait _ => false
  | CallStart _ | CallRun _ _ => true
  | CallWait p _ | CallStop p _ | CallKill p | CallRestart p _ =>
      Nat.ltb p (length (procs w))
  end.

Definition set_code (w : world) (t : nat) (th : thread) (m : prog retval) : world :=
  set_threads w (<[t := mkThread (origin th) m]> (threads w)).

Definition step (l : label) (w : world) : option world :=
  match crashed w with
  | Some _ => None
  | None =>
      match l with
      | Sched t or =>
          match threads w !! t with
          | None => None
          | Some th =>
              match code th with
              | Ret _ => None
              | Vis e k =>
                  match sem e or w with
                  | Ok x w' => Some (set_code w' t th (k x))
                  | Blocked => None
                  | Panics r => Some (set_crashed w r)
                  end
              end
          end
      | Exit p werr =>
          match procs w !! p with
          | None => None
          | Some P =>
              match exec.Process (cmd P) with
              | None => None
              | Some sp =>
                  match os.state sp with
                  | os.Running =>
                      Some (set_proc w p (terminate P sp werr))
                  | _ => None
                  end
              end
          end
      | Cancel id => Some (set_cancelled w (id :: cancelled w))
      | Call c =>
          if callable w c then Some (set_threads w (threads w ++ [spawn c])) else None
      end
  end.

Fixpoint steps (ls : list label) (w : world) : option world :=
  match ls with
  | [] => Some w
  | l :: ls' =>
      match step l w with
      | Some w' => steps ls' w'
      | None => None
      end
  end.

(** The worlds a program that uses the package can be in. *)
Definition reachable (w : world) : Prop :=
  exists ls, steps ls empty_world = Some w.

(** What goroutine [t] returned, once it has. *)
Definition returned (w : world) (t : nat) : option retval :=
  match threads w !! t with
  | Some th => match code th with Ret v => Some v | Vis _ _ => None end
  | None => None
  end.

(** Goroutine [t] cannot take its next step now. *)
Definition blocked (w : world) (t : nat) : Prop :=
  returned w t = None /\ forall or, step (Sched t or) w = None.

(** ** Program points of [stop] and [kill]

    The code that remains to be run after each event of the two guarded
    functions; the lemmas [stop_unfold] and [kill_unfold] below check that
    they are the continuations of [stop] and [kill]. *)

(** After the first signal of [stop] failed with an error that is not
    [os.ErrProcessDone]: [sp.Signal(os.Kill)]. *)
Definition stop_escalate (p : pid) (c : ctx) : prog error :=
  e' <- trigger (ESignal p os.Kill) ;;
  if notnil e' then Ret e' else stop_drain p c isKilled.

(** After [sp != nil] in [stop]: [sp.Signal(os.Interrupt)]. *)
Definition stop_interrupt (p : pid) (c : ctx) : prog error :=
  e <- trigger (ESignal p os.Interrupt) ;;
  if notnil e then
    if isProcessDone e then Ret nil_error else stop_escalate p c
  else stop_drain p c isInterrupt.

(** After [sp != nil] in [kill]: [sp.Kill()]. *)
Definition kill_signal (p : pid) : prog error :=
  e <- trigger (ESignal p os.Kill) ;;
  if notnil e then
    if isProcessDone e then Ret nil_error else Ret e
  else kill_drain p.

(** After a value was received from [p.exitCh]: [close(p.exitCh)], then
    return [r]. *)
Definition close_return (p : pid) (r : error) : prog error :=
  trigger (EClose p) ;; Ret r.

(** ** The initial worlds of the examples *)

Definition sh_exit0 : Cmd := exec.Command "/bin/sh" "sh" ["-c"; "exit 0"].

Definition exit_status (n : nat) : goerr :=
  mkErr (match n with 1 => "exit status 1" | _ => "exit status 7" end) false.
Definition signal_interrupt : goerr := mkErr "signal: interrupt" false.
Definition signal_killed : goerr := mkErr "signal: killed" false.
Definition eperm : goerr := mkErr "operation not permitted" false.

(** A controller as [Start] makes it, for a process in state [st]. *)
Definition started (st : os.status) : Process :=
  mkProc (exec.with_Process sh_exit0 (Some (os.mkProcess st [])))
         make_chan (mkOnce Fresh nil_error) 0 0 0.

(** A controller whose command has no process handle. *)
Definition unstarted : Process :=
  mkProc sh_exit0 make_chan (mkOnce Fresh nil_error) 0 0 0.

(** A controller whose process has terminated with [werr] and whose
    background goroutine has put [werr] into the exit channel. *)
Definition deposited (werr : error) : Process :=
  mkProc (exec.with_Process sh_exit0 (Some (os.mkProcess os.Reaped [])))
         (mkChan [werr] false) (mkOnce Fresh nil_error) 1 0 0.

(** The world that holds the single controller [P] and no goroutine. *)
Definition one_proc (P : Process) : world := mkWorld [P] [] [] None.

(** The [select] takes the case of the exit channel when both cases are
    ready, or the context is not done. *)
Definition exit_wins (w : world) (cx : ctx) (or : oracle) : Prop :=
  ctx_done w cx = false \/ ctx_first or = false.

(** The controller after the value at the head of its exit channel was
    received, leaving [rest]. *)
Definition drained (P : Process) (rest : list error) : Process :=
  set_exitCh P (mkChan rest (closed (exitCh P))).

(** The world after [Start] has wrapped the launched command [c] in a new
    controller and started the controller's background goroutine. *)
Definition with_controller (w : world) (c : Cmd) : world :=
  set_threads (set_procs w (procs w ++ [new_proc c]))
              (threads w ++ [spawn (GoWait (length (procs w)))]).

(** The fields of a command that describe what to launch. *)
Definition descriptor (c : Cmd) :=
  (exec.Path c, exec.Args c, exec.Env c, exec.Dir c,
   exec.Stdin c, exec.Stdout c, exec.Stderr c, exec.ExtraFiles c).

(** ** Program points

    Where a goroutine of the package can be.  [denote] gives the code that
    remains to be run at each point; [pc_view] gives the next event and the
    point reached on each answer.  Lemma [denote_view] relates the two, and
    lemma [code_of_call] says that every goroutine starts at a point. *)

(** The function under the guard: [stop] with its context, or [kill]. *)
Inductive guarded : Type := GStop (cx : ctx) | GKill.

(** What the caller of [Stop] or [Kill] does with the error: return it, or
    go on with [Restart]. *)
Inductive kont : Type := KErr | KRestart.

(** What the caller of [Start] does with the controller: return it, or go
    on with [Run]. *)
Inductive skont : Type := SProc | SRun (cx : ctx).

(** The points of [stop] and [kill]. *)
Inductive body : Type :=
| BStop (cx : ctx)                 (* line 221: sp := p.cmd.Process *)
| BStopInterrupt (cx : ctx)        (* line 231: sp.Signal(os.Interrupt) *)
| BStopEscalate (cx : ctx)         (* line 238: sp.Signal(os.Kill) *)
| BStopDrain (cx : ctx) (expectError : error -> bool)   (* line 244: select *)
| BKill                            (* line 265: sp := p.cmd.Process *)
| BKillSignal                      (* line 271: sp.Kill() *)
| BKillDrain                       (* line 279: <-p.exitCh *)
| BClose (r : error)               (* lines 253, 280: close(p.exitCh) *)
| BRet (r : error).                (* the function returns r *)

Inductive pc : Type :=
| PEnter (p : pid) (g : guarded) (K : kont)   (* line 204: e.o.Do *)
| PBody (p : pid) (b : body) (K : kont)       (* inside the guarded function *)
| PErr (p : pid) (K : kont)                   (* line 205: return e.err *)
| PRelaunch (p : pid)                         (* line 313: p.cmd *)
| PLookPath (old : Cmd) (args : list string)  (* line 313: exec.Command *)
| PPanicking                                  (* line 313: Args[1:] of no arguments *)
| PStart (c : Cmd) (sk : skont)                (* command.go line 60 *)
| PNew (c : Cmd) (sk : skont)                  (* command.go line 63 *)
| PGo (p : pid) (sk : skont)                   (* command.go line 64 *)
| PWait (p : pid) (cx : ctx)                  (* line 299: select *)
| PReap (p : pid)                             (* line 215: Wait() *)
| PSend (p : pid) (e : error)                 (* line 215: p.exitCh <- *)
| PDone (v : retval).

Definition guarded_code (p : pid) (g : guarded) : prog error :=
  match g with GStop cx => stop p cx | GKill => kill p end.

Definition body_start (g : guarded) : body :=
  match g with GStop cx => BStop cx | GKill => BKill end.

Definition body_code (p : pid) (b : body) : prog error :=
  match b with
  | BStop cx => stop p cx
  | BStopInterrupt cx => stop_interrupt p cx
  | BStopEscalate cx => stop_escalate p cx
  | BStopDrain cx expectError => stop_drain p cx expectError
  | BKill => kill p
  | BKillSignal => kill_signal p
  | BKillDrain => kill_drain p
  | BClose r => close_return p r
  | BRet r => Ret r
  end.

Definition ret_err (e : error) : prog retval := Ret (RErr e).
Definition ret_proc (r : option pid * error) : prog retval := Ret (RProc r).

(** The rest of [Restart] after [Stop]. *)
Definition restart_k (p : pid) (e : error) : prog (option pid * error) :=
  if notnil e then Ret (None, e) else relaunch p.

(** The rest of [Run] after [Start]. *)
Definition run_k (cx : ctx) (r : option pid * error) : prog error :=
  match r with
  | (Some p, None) => Wait p cx
  | (_, e) => Ret e
  end.

(** The rest of [Start] after the launch. *)
Definition start_go (p : pid) : prog (option pid * error) :=
  trigger (EGoWait p) ;; Ret (Some p, nil_error).
Definition start_new (c : Cmd) : prog (option pid * error) :=
  p <- trigger (ENewProcess c) ;; start_go p.

Definition after_guard (p : pid) (K : kont) (m : prog error) : prog retval :=
  match K with
  | KErr => e <- m ;; ret_err e
  | KRestart => r <- (e <- m ;; restart_k p e) ;; ret_proc r
  end.

Definition in_guard (p : pid) (m : prog error) : prog error :=
  (r <- m ;; trigger (EOnceLeave p r)) ;; trigger (EOnceErr p).

Definition after_start (sk : skont) (m : prog (option pid * error)) : prog retval :=
  match sk with
  | SProc => r <- m ;; ret_proc r
  | SRun cx => e <- (r <- m ;; run_k cx r) ;; ret_err e
  end.

Definition denote (c : pc) : prog retval :=
  match c with
  | PEnter p g K => after_guard p K (onceError_Do p (guarded_code p g))
  | PBody p b K => after_guard p K (in_guard p (body_code p b))
  | PErr p K => after_guard p K (trigger (EOnceErr p))
  | PRelaunch p => r <- relaunch p ;; ret_proc r
  | PLookPath old args =>
      r <- (path <- trigger (ELookPath (exec.Path old)) ;;
            Start (restart_cmd old path args)) ;; ret_proc r
  | PPanicking =>
      x <- Vis (EPanic SliceBoundsOutOfRange) (fun x : Empty_set => match x with end) ;;
      ret_proc x
  | PStart c sk => after_start sk (Start c)
  | PNew c sk => after_start sk (start_new c)
  | PGo p sk => after_start sk (start_go p)
  | PWait p cx => e <- Wait p cx ;; ret_err e
  | PReap p => wait p ;; Ret RUnit
  | PSend p e => trigger (ESend p e) ;; Ret RUnit
  | PDone v => Ret v
  end.

Inductive view : Type :=
| VRet (v : retval)
| VVis {X : Type} (e : event X) (next : X -> pc).

Definition body_view (p : pid) (K : kont) (b : body) : view :=
  match b with
  | BStop cx =>
      VVis (EHasProcess p)
           (fun sp => PBody p (if negb sp then BRet nil_error else BStopInterrupt cx) K)
  | BStopInterrupt cx =>
      VVis (ESignal p os.Interrupt)
           (fun e => PBody p (if notnil e
                              then if isProcessDone e then BRet nil_error
                                   else BStopEscalate cx
                              else BStopDrain cx isInterrupt) K)
  | BStopEscalate cx =>
      VVis (ESignal p os.Kill)
           (fun e => PBody p (if notnil e then BRet e else BStopDrain cx isKilled) K)
  | BStopDrain cx expectError =>
      VVis (ESelect p cx)
           (fun r => PBody p (match r with
                              | FromExit e => BClose (unexpected expectError e)
                              | CtxDone => BKill
                              end) K)
  | BKill =>
      VVis (EHasProcess p)
           (fun sp => PBody p (if negb sp then BRet nil_error else BKillSignal) K)
  | BKillSignal =>
      VVis (ESignal p os.Kill)
           (fun e => PBody p (if notnil e
                              then if isProcessDone e then BRet nil_error else BRet e
                              else BKillDrain) K)
  | BKillDrain =>
      VVis (ERecv p) (fun e => PBody p (BClose (unexpected isKilled e)) K)
  | BClose r => VVis (EClose p) (fun _ => PBody p (BRet r) K)
  | BRet r => VVis (EOnceLeave p r) (fun _ => PErr p K)
  end.

Definition pc_view (c : pc) : view :=
  match c with
  | PEnter p g K =>
      VVis (EOnceEnter p)
           (fun first : bool => if first then PBody p (body_start g) K else PErr p K)
  | PBody p b K => body_view p K b
  | PErr p K =>
      VVis (EOnceErr p)
           (fun e => match K with
                     | KErr => PDone (RErr e)
                     | KRestart =>
                         if notnil e then PDone (RProc (None, e)) else PRelaunch p
                     end)
  | PRelaunch p =>
      VVis (EGetCmd p)
           (fun old => match exec.Args old with
                       | [] => PPanicking
                       | _ :: args => PLookPath old args
                       end)
  | PLookPath old args =>
      VVis (ELookPath (exec.Path old))
           (fun path => PStart (restart_cmd old path args) SProc)
  | PPanicking =>
      VVis (EPanic SliceBoundsOutOfRange) (fun x : Empty_set => match x with end)
  | PStart c sk =>
      VVis (EExecStart c)
           (fun r => match r with
                     | inl c' => PNew c' sk
                     | inr e =>
                         match sk with
                         | SProc => PDone (RProc (None, Some e))
                         | SRun _ => PDone (RErr (Some e))
                         end
                     end)
  | PNew c sk => VVis (ENewProcess c) (fun p => PGo p sk)
  | PGo p sk =>
      VVis (EGoWait p)
           (fun _ => match sk with
                     | SProc => PDone (RProc (Some p, nil_error))
                     | SRun cx => PWait p cx
                     end)
  | PWait p cx =>
      VVis (ESelect p cx)
           (fun r => match r with
                     | CtxDone => PEnter p GKill KErr
                     | FromExit e => PDone (RErr e)
                     end)
  | PReap p => VVis (ECmdWait p) (fun e => PSend p e)
  | PSend p e => VVis (ESend p e) (fun _ => PDone RUnit)
  | PDone v => VRet v
  end.

(** The point at which the goroutine of a call starts. *)
Definition pc_of_call (c : call) : pc :=
  match c with
  | GoWait p => PReap p
  | CallStart c => PStart c SProc
  | CallRun c cx => PStart c (SRun cx)
  | CallWait p cx => PWait p cx
  | CallStop p cx => PEnter p (GStop cx) KErr
  | CallKill p => PEnter p GKill KErr
  | CallRestart p cx => PEnter p (GStop cx) KRestart
  end.

(** One step of a goroutine at a program point. *)
Definition pc_sem (c : pc) (or : oracle) (w : world) : outcome pc :=
  match pc_view c with
  | VRet _ => Blocked
  | VVis e next =>
      match sem e or w with
      | Ok x w' => Ok (next x) w'
      | Blocked => Blocked
      | Panics r => Panics r
      end
  end.

(** ** The invariant of the package *)

Definition b2n (b : bool) : nat := if b then 1 else 0.

(** How many goroutines are at a point that satisfies [f]. *)
Fixpoint count (f : pc -> bool) (l : list pc) : nat :=
  match l with
  | [] => 0
  | c :: l' => b2n (f c) + count f l'
  end.

(** The goroutine runs the guarded function of controller [q]. *)
Definition in_body (q : pid) (c : pc) : bool :=
  match c with PBody p _ _ => Nat.eqb p q | _ => false end.

(** It runs the guarded function of [q] and has not closed the exit
    channel yet. *)
Definition may_close (q : pid) (c : pc) : bool :=
  match c with
  | PBody p (BRet _) _ => false
  | PBody p _ _ => Nat.eqb p q
  | _ => false
  end.

(** It has received from the exit channel of [q] and is about to close it. *)
Definition at_close (q : pid) (c : pc) : bool :=
  match c with PBody p (BClose _) _ => Nat.eqb p q | _ => false end.

(** It is, or is about to start, the background goroutine of [q], and
    nothing was sent on the exit channel yet. *)
Definition pending (q : pid) (c : pc) : bool :=
  match c with
  | PGo p _ | PReap p | PSend p _ => Nat.eqb p q
  | _ => false
  end.

(** It is about to send on the exit channel of [q]. *)
Definition sending (q : pid) (c : pc) : bool :=
  match c with PSend p _ => Nat.eqb p q | _ => false end.

(** It has left the guard of [q] and is about to read the recorded error. *)
Definition at_err (q : pid) (c : pc) : bool :=
  match c with PErr p _ => Nat.eqb p q | _ => false end.

(** It holds a pointer to controller [q]. *)
Definition refers (q : pid) (c : pc) : bool :=
  match c with
  | PEnter p _ _ | PBody p _ _ | PErr p _ | PRelaunch p
  | PGo p _ | PWait p _ | PReap p | PSend p _ => Nat.eqb p q
  | _ => false
  end.

Definition is_locked (s : once_state) : bool :=
  match s with Locked => true | _ => false end.
Definition is_fresh (s : once_state) : bool :=
  match s with Fresh => true | _ => false end.

(** The status of the process was collected, or there is no process. *)
Definition collected (P : Process) : Prop :=
  match exec.Process (cmd P) with
  | None => True
  | Some sp => os.state sp = os.Reaped
  end.

(** What holds of controller [q] and the goroutines at points [pcs]. *)
Definition good (q : pid) (P : Process) (pcs : list pc) : Prop :=
  count (in_body q) pcs = b2n (is_locked (o (once P))) /\
  bodies P = b2n (negb (is_fresh (o (once P)))) /\
  closes P = b2n (closed (exitCh P)) /\
  (closed (exitCh P) = true ->
   o (once P) <> Fresh /\ count (may_close q) pcs = 0) /\
  count (pending q) pcs + sends P = 1 /\
  length (buf (exitCh P)) + b2n (closed (exitCh P)) + count (at_close q) pcs <= sends P /\
  (1 <= sends P \/ 1 <= count (sending q) pcs -> collected P) /\
  (1 <= count (at_err q) pcs -> o (once P) = Finished).

(** A goroutine that a client started as [Stop] or [Kill] of [q] is in
    the guard of [q] with nothing to do after it, or has returned; the
    background goroutine of [q] waits for the process, sends, or is done. *)
Definition origin_ok (c : call) (pt : pc) : bool :=
  match c with
  | CallStop q _ | CallKill q =>
      match pt with
      | PEnter p _ KErr | PBody p _ KErr | PErr p KErr => Nat.eqb p q
      | PDone (RErr _) => true
      | _ => false
      end
  | GoWait q =>
      match pt with
      | PReap p | PSend p _ => Nat.eqb p q
      | PDone RUnit => true
      | _ => false
      end
  | _ => true
  end.

(** The points of the goroutines that a step from point [c] starts. *)
Definition spawned (c : pc) : list pc :=
  match c with
  | PGo p _ => [PReap p]
  | _ => []
  end.

(** The controller whose [Stop] or [Kill] the call is. *)
Definition guard_call (c : call) : option pid :=
  match c with
  | CallStop q _ | CallKill q => Some q
  | _ => None
  end.

Definition at_point (th : thread) (c : pc) : Prop :=
  code th = denote c /\ origin_ok (origin th) c = true.

Definition Inv (w : world) (pcs : list pc) : Prop :=
  Forall2 at_point (threads w) pcs /\
  (forall q, length (procs w) <= q -> count (refers q) pcs = 0) /\
  (forall q P, procs w !! q = Some P -> good q P pcs) /\
  (forall t th v q,
      threads w !! t = Some th -> code th = Ret v -> guard_call (origin th) = Some q ->
      exists P, procs w !! q = Some P /\ o (once P) = Finished /\ v = RErr (err (once P))).

(** The classes of the two points are the same as far as controller [q]
    is concerned. *)
Definition same_class (q : pid) (c c' : pc) : Prop :=
  in_body q c' = in_body q c /\
  may_close q c' = may_close q c /\
  at_close q c' = at_close q c /\
  pending q c' = pending q c /\
  sending q c' = sending q c /\
  at_err q c' = at_err q c.

(** The program did not stop on a close of the closed exit channel or on a
    send on the closed exit channel. *)
Definition safe (w : world) : Prop :=
  crashed w <> Some CloseOfClosedChannel /\ crashed w <> Some SendOnClosedChannel.

(** ** A session used in the examples

    [Start] of [sh -c "exit 0"], the process terminates, the background
    goroutine collects the status and deposits it, a client's [Wait] takes
    it, and a client then calls [Stop]. *)
Definition session_start : list label :=
  [Call (CallStart sh_exit0); Sched 0 quiet; Sched 0 quiet; Sched 0 quiet].

Definition session_exit : list label :=
  [Exit 0 nil_error; Sched 1 quiet; Sched 1 quiet].

Definition session_wait : list label :=
  [Call (CallWait 0 Background); Sched 2 quiet].

Definition session_stop : list label :=
  [Call (CallStop 0 Background);
   Sched 3 quiet; Sched 3 quiet; Sched 3 quiet; Sched 3 quiet; Sched 3 quiet].

Definition session : list label :=
  (session_start ++ session_exit ++ session_wait ++ session_stop)%list.

(** The world after the steps [ls] from the empty world (the empty world
    when one of them cannot be taken). *)
Definition after (ls : list label) : world :=
  match steps ls empty_world with
  | Some w => w
  | None => empty_world
  end.

(** The controller of the session, as the session leaves it. *)
Definition session_proc : Process :=
  match procs (after session) !! 0 with
  | Some P => P
  | None => unstarted
  end.

(** Goroutine [m] returns [a] and leaves the world [w'], when it is given
    the decisions [ors] and runs alone from [w]. *)
Definition yields {A : Type} (ors : list oracle) (m : prog A) (w : world)
           (a : A) (w' : world) : Prop :=
  exists rest, run ors m w = Returns a w' rest.

(** There is no process handle, or a signal sent now is answered with an
    error that wraps [os.ErrProcessDone]. *)
Definition gone (P : Process) (or : oracle) : Prop :=
  match exec.Process (cmd P) with
  | None => True
  | Some sp =>
      os.state sp = os.Reaped \/
      exists e, sigres or = Some e /\ wrapsProcessDone e = true
  end.

(** An environment in which a signal fails with [e]. *)
Definition failing (e : goerr) : oracle := mkOracle (Some e) false None None false.

(** An environment whose [select] takes the context when it is done. *)
Definition hasty : oracle := mkOracle None true None None false.

(** The session before any client call: the process has terminated and its
    status is in the exit channel. *)
Definition session_deposit : list label := (session_start ++ session_exit)%list.

Definition deposit_proc : Process :=
  match procs (after session_deposit) !! 0 with
  | Some P => P
  | None => unstarted
  end.

(** A controller whose guarded function has delivered [sig] and is at its
    race, the process having terminated since and the background goroutine
    having put [werr] into the exit channel. *)
Definition racing (sig : os.Signal) (werr : error) : Process :=
  mkProc (exec.with_Process sh_exit0 (Some (os.mkProcess os.Reaped [sig])))
         (mkChan [werr] false) (mkOnce Locked nil_error) 1 0 1.

(** ** The background goroutine of a controller *)

(** The goroutine is about to start the background goroutine of [q]. *)
Definition at_go (q : pid) (c : pc) : bool :=
  match c with PGo p _ => Nat.eqb p q | _ => false end.

(** The goroutine was started as the background goroutine of [q]. *)
Definition is_reaper (q : pid) (th : thread) : bool :=
  match origin th with GoWait p => Nat.eqb p q | _ => false end.

Fixpoint reapers (q : pid) (ths : list thread) : nat :=
  match ths with
  | [] => 0
  | th :: ths' => b2n (is_reaper q th) + reapers q ths'
  end.

(** The goroutines and the controllers that an event adds. *)
Definition ev_threads {X : Type} (e : event X) : list thread :=
  match e with EGoWait p => [spawn (GoWait p)] | _ => [] end.
Definition ev_procs {X : Type} (e : event X) : nat :=
  match e with ENewProcess _ => 1 | _ => 0 end.

(** Every controller has exactly one background goroutine, started or
    about to be started, and that goroutine has sent once it has returned. *)
Definition Reap (w : world) (pcs : list pc) : Prop :=
  (forall q, reapers q (threads w) + count (at_go q) pcs
             = b2n (Nat.ltb q (length (procs w)))) /\
  (forall t th v q,
      threads w !! t = Some th -> origin th = GoWait q -> code th = Ret v ->
      exists P, procs w !! q = Some P /\ sends P = 1).

Definition Inv2 (w : world) (pcs : list pc) : Prop := Inv w pcs /\ Reap w pcs.

(** ** An exit channel that stays empty

    The exit channel of [p] is open and empty, the one value was sent on it
    and taken out again, and no goroutine is about to close it. *)
Definition Dry (p : pid) (w : world) (pcs : list pc) : Prop :=
  Inv w pcs /\ count (at_close p) pcs = 0 /\
  exists P, procs w !! p = Some P /\
            buf (exitCh P) = [] /\ closed (exitCh P) = false /\ sends P = 1.

(** The session up to the return of the first [Wait], and a second [Wait]
    in goroutine 3. *)
Definition session_second_wait : list label :=
  (session_start ++ session_exit ++ session_wait ++ [Call (CallWait 0 Background)])%list.

(** ** command.go: the executor

    [type Exec struct] holds the working directory, the environment and the
    three streams that every command of the executor gets. *)
Record Exec : Type := mkExec {
  Dir : string;
  Env : list string;
  Stderr : option nat;
  Stdout : option nat;
  Stdin : option nat
}.

(** [os.Stdin], [os.Stdout] and [os.Stderr]: the file descriptors 0, 1, 2. *)
Definition os_Stdin : option nat := Some 0.
Definition os_Stdout : option nat := Some 1.
Definition os_Stderr : option nat := Some 2.

(** [func New(dir string) *Exec]; [environ] is what [os.Environ()] returns
    at the time of the call. *)
Definition New (environ : list string) (dir : string) : Exec :=
  mkExec dir environ os_Stderr os_Stdout os_Stdin.

(** [func (c *Exec) Command(name string, args ...string) *Cmd]:
    [exec.Command], which looks the name up, then the five fields of the
    executor. *)
Definition Command (c : Exec) (name : string) (args : list string) : prog Cmd :=
  path <- trigger (ELookPath name) ;;
  let cmd := exec.Command path name args in
  Ret (exec.mkCmd (exec.Path cmd) (exec.Args cmd) (Env c) (Dir c)
                  (Stdin c) (Stdout c) (Stderr c)
                  (exec.ExtraFiles cmd) (exec.Process cmd)).

(** ** Properties of every controller and every goroutine

    [Each phi psi w pcs]: every controller of the world satisfies [phi] and
    every goroutine is at a point that satisfies [psi]. *)
Definition Each (phi : Process -> Prop) (psi : pc -> Prop)
           (w : world) (pcs : list pc) : Prop :=
  (forall q P, procs w !! q = Some P -> phi P) /\
  (forall t c, pcs !! t = Some c -> psi c).

(** The command of the controller has a process handle. *)
Definition has_handle (P : Process) : Prop := exec.Process (cmd P) <> None.

(** A goroutine that is about to wrap a command in a controller holds a
    command with a process handle. *)
Definition wraps_handle (c : pc) : Prop :=
  match c with
  | PNew c _ => exec.Process c <> None
  | _ => True
  end.

(** [len(c.Args) > 0] *)
Definition has_args (c : Cmd) : bool :=
  match exec.Args c with [] => false | _ :: _ => true end.

(** The goroutine is not about to panic in [Restart], and a command it is
    about to launch or to wrap has an argument zero. *)
Definition launches_args (c : pc) : Prop :=
  match c with
  | PStart c _ | PNew c _ => has_args c = true
  | PPanicking => False
  | _ => True
  end.

(** The client starts only commands that have an argument zero, as every
    command made by [exec.Command] has. *)
Definition argful (l : label) : bool :=
  match l with
  | Call (CallStart c) | Call (CallRun c _) => has_args c
  | _ => true
  end.

(** ** How a controller changes over time *)

(** The status of a process moves from running to terminated to collected. *)
Definition status_le (a b : os.status) : Prop :=
  match a, b with
  | os.Running, _ => True
  | os.Exited e, os.Exited e' => e = e'
  | os.Exited _, os.Reaped => True
  | os.Reaped, os.Reaped => True
  | _, _ => False
  end.

Definition handle_le (a b : option os.Process) : Prop :=
  match a, b with
  | None, None => True
  | Some sp, Some sp' =>
      status_le (os.state sp) (os.state sp') /\
      exists sigs, os.delivered sp' = (os.delivered sp ++ sigs)%list
  | _, _ => False
  end.

(** The guard moves from fresh to locked to finished, and keeps the error
    it recorded. *)
Definition once_le (a b : onceError) : Prop :=
  match o a with
  | Fresh => True
  | Locked => o b <> Fresh
  | Finished => b = a
  end.

Definition evolves (P P' : Process) : Prop :=
  descriptor (cmd P') = descriptor (cmd P) /\
  handle_le (exec.Process (cmd P)) (exec.Process (cmd P')) /\
  once_le (once P) (once P') /\
  (closed (exitCh P) = true -> closed (exitCh P') = true) /\
  sends P <= sends P' /\ closes P <= closes P' /\ bodies P <= bodies P'.

(** What no step undoes: controllers stay and only move forward, contexts
    that are done stay done, goroutines stay, keep what they were started
    as, and keep what they returned. *)
Definition forward (w w' : world) : Prop :=
  (forall q Q, procs w !! q = Some Q ->
     exists Q', procs w' !! q = Some Q' /\ evolves Q Q') /\
  (forall id, In id (cancelled w) -> In id (cancelled w')) /\
  (forall t th, threads w !! t = Some th ->
     exists th', threads w' !! t = Some th' /\ origin th' = origin th /\
                 forall v, code th = Ret v -> code th' = Ret v).

(** ** A command without arguments

    A command that a client built by hand, with a path and no argument
    zero, and a session in which it is started, terminates, and is
    restarted. *)
Definition bare : Cmd :=
  exec.mkCmd "/bin/true" [] [] EmptyString None None None [] None.

Definition session_bare : list label :=
  [Call (CallStart bare); Sched 0 quiet; Sched 0 quiet; Sched 0 quiet;
   Exit 0 nil_error; Sched 1 quiet; Sched 1 quiet;
   Call (CallRestart 0 Background);
   Sched 2 quiet; Sched 2 quiet; Sched 2 quiet; Sched 2 quiet; Sched 2 quiet;
   Sched 2 quiet; Sched 2 quiet].

(** ** Sessions of one command

    [Run] of a command in goroutine 0: the launch, the new controller and
    its background goroutine (goroutine 1); the process terminates with
    [werr]; the background goroutine collects and sends the status; [Run]
    takes it. *)
Definition run_session (c : Cmd) (werr : error) : list label :=
  [Call (CallRun c Background); Sched 0 quiet; Sched 0 quiet; Sched 0 quiet;
   Exit 0 werr; Sched 1 quiet; Sched 1 quiet; Sched 0 quiet].

(** [Start] in goroutine 0, then a client calls [Stop] in goroutine 2; the
    interrupt is delivered, the process terminates with [werr], the
    background goroutine sends the status, and [Stop] takes it and closes
    the exit channel. *)
Definition stop_session (c : Cmd) (cx : ctx) (werr : error) : list label :=
  [Call (CallStart c); Sched 0 quiet; Sched 0 quiet; Sched 0 quiet;
   Call (CallStop 0 cx); Sched 2 quiet; Sched 2 quiet; Sched 2 quiet;
   Exit 0 werr; Sched 1 quiet; Sched 1 quiet;
   Sched 2 quiet; Sched 2 quiet; Sched 2 quiet; Sched 2 quiet].

(** As before, but the process ignores the interrupt and the context of
    [Stop] is cancelled: [Stop] goes on as [kill], the kill signal is
    delivered, and only then the process terminates. *)
Definition stop_cancel_session (c : Cmd) (id : nat) (werr : error) : list label :=
  [Call (CallStart c); Sched 0 quiet; Sched 0 quiet; Sched 0 quiet;
   Call (CallStop 0 (WithCancel id)); Sched 2 quiet; Sched 2 quiet; Sched 2 quiet;
   Cancel id; Sched 2 quiet; Sched 2 quiet; Sched 2 quiet;
   Exit 0 werr; Sched 1 quiet; Sched 1 quiet;
   Sched 2 quiet; Sched 2 quiet; Sched 2 quiet; Sched 2 quiet].

(** [Start], then a client's [Wait] with a context that is cancelled while
    the process runs: [Wait] goes on as [Kill]. *)
Definition wait_cancel_session (c : Cmd) (id : nat) (werr : error) : list label :=
  [Call (CallStart c); Sched 0 quiet; Sched 0 quiet; Sched 0 quiet;
   Call (CallWait 0 (WithCancel id)); Cancel id;
   Sched 2 quiet; Sched 2 quiet; Sched 2 quiet; Sched 2 quiet;
   Exit 0 werr; Sched 1 quiet; Sched 1 quiet;
   Sched 2 quiet; Sched 2 quiet; Sched 2 quiet; Sched 2 quiet].

(** The session up to the termination of the process: the background
    goroutine has not collected the status yet. *)
Definition session_exited : list label :=
  (session_start ++ [Exit 0 nil_error])%list.

(** [Start], the process terminates and its status is sent, a client's
    [Wait] takes it, and a client calls [Restart] in goroutine 3. *)
Definition restart_session (c : Cmd) (werr : error) : list label :=
  [Call (CallStart c); Sched 0 quiet; Sched 0 quiet; Sched 0 quiet;
   Exit 0 werr; Sched 1 quiet; Sched 1 quiet;
   Call (CallWait 0 Background); Sched 2 quiet;
   Call (CallRestart 0 Background);
   Sched 3 quiet; Sched 3 quiet; Sched 3 quiet; Sched 3 quiet; Sched 3 quiet;
   Sched 3 quiet; Sched 3 quiet; Sched 3 quiet; Sched 3 quiet; Sched 3 quiet].

(** ** Code that is confined to one controller *)

(** The controller that an event reads or writes. *)
Definition ev_pid {X : Type} (e : event X) : option pid :=
  match e with
  | EHasProcess p | ESignal p _ | ERecv p | ESelect p _ | EClose p | ESend p _
  | ECmdWait p | EOnceEnter p | EOnceLeave p _ | EOnceErr p | EGetCmd p => Some p
  | _ => None
  end.

(** Every event of the code is an event on controller [p]. *)
Inductive confined (p : pid) {A : Type} : prog A -> Prop :=
| confined_ret (a : A) : confined p (Ret a)
| confined_vis {X : Type} (e : event X) (k : X -> prog A) :
    ev_pid e = Some p -> (forall x, confined p (k x)) -> confined p (Vis e k).

(** The two worlds differ at most in controller [p]. *)
Definition same_but (p : pid) (w w1 : world) : Prop :=
  threads w1 = threads w /\ cancelled w1 = cancelled w /\ crashed w1 = crashed w /\
  length (procs w1) = length (procs w) /\
  forall q, q <> p -> procs w1 !! q = procs w !! q.

(** The world in which a goroutine on its own stops, returns or waits. *)
Definition final {A : Type} (r : result A) : world :=
  match r with
  | Returns _ w _ | Waits _ w | Aborts _ w | Unscheduled _ w => w
  end.

(** ** A [Stop] whose signals are refused

    A controller whose guard has finished with the error of a kill signal
    that could not be sent; its process is as [st] says and no signal was
    delivered to it. *)
Definition refused (st : os.status) : Process :=
  mkProc (exec.with_Process sh_exit0 (Some (os.mkProcess st [])))
         make_chan (mkOnce Finished (Some eperm)) 0 0 1.

(** [Start] in goroutine 0, then a client's [Stop] in goroutine 2 whose
    interrupt and kill signals are both refused: [Stop] returns the error
    of the second send, and the guard records it. *)
Definition session_refused : list label :=
  (session_start ++
   [Call (CallStop 0 Background); Sched 2 quiet; Sched 2 quiet;
    Sched 2 (failing eperm); Sched 2 (failing eperm); Sched 2 quiet; Sched 2 quiet])%list.

(** After that, the process terminates on its own, its status is sent, a
    client's [Wait] (goroutine 3) takes it, and a client calls [Stop] again
    (goroutine 4). *)
Definition session_refused_stop : list label :=
  (session_refused ++ session_exit ++
   [Call (CallWait 0 Background); Sched 3 quiet;
    Call (CallStop 0 Background); Sched 4 quiet; Sched 4 quiet])%list.

(** After the refused [Stop], while the process still runs, a client calls
    [Wait] with a context (goroutine 3) and the context is cancelled. *)
Definition session_refused_wait : list label :=
  (session_refused ++
   [Call (CallWait 0 (WithCancel 1)); Cancel 1;
    Sched 3 quiet; Sched 3 quiet; Sched 3 quiet])%list.

(** [Start], then a client's [Stop] (goroutine 2) delivers the interrupt
    and waits in its [select]; a client's [Wait] (goroutine 3) is called;
    the process terminates with status 7, the status is sent, and [Wait]
    takes it; a client calls [Stop] again (goroutine 4). *)
Definition session_pending_stop : list label :=
  (session_start ++
   [Call (CallStop 0 Background); Sched 2 quiet; Sched 2 quiet; Sched 2 quiet;
    Call (CallWait 0 Background);
    Exit 0 (Some (exit_status 7)); Sched 1 quiet; Sched 1 quiet;
    Sched 3 quiet;
    Call (CallStop 0 Background)])%list.

(** [Start], then a client's [Stop] (goroutine 2) delivers the interrupt,
    which the process ignores, and waits in its [select]; a client calls
    [Wait] with a context (goroutine 3), the context is cancelled, and
    [Wait] goes on as [Kill]. *)
Definition session_pending_wait : list label :=
  (session_start ++
   [Call (CallStop 0 Background); Sched 2 quiet; Sched 2 quiet; Sched 2 quiet;
    Call (CallWait 0 (WithCancel 1)); Cancel 1; Sched 3 quiet])%list.

(** The next event of the code is a send on an exit channel. *)
Definition sends_next {A : Type} (m : prog A) : bool :=
  match m with
  | Vis e _ => match e with ESend _ _ => true | _ => false end
  | Ret _ => false
  end.

(** * Proofs *)

(** ** Basic facts *)

Lemma run_vis {A X : Type} (e : event X) (k : X -> prog A) or ors w :
  run (or :: ors) (Vis e k) w =
  match sem e or w with
  | Ok x w' => run ors (k x) w'
  | Blocked => Waits (Vis e k) w
  | Panics r => Aborts r w
  end.
Proof. reflexivity. Qed.

Lemma run_ret {A : Type} (a : A) ors w : run ors (Ret a) w = Returns a w ors.
Proof. destruct ors; reflexivity. Qed.

Lemma run_trigger {X : Type} (e : event X) or ors w :
  run (or :: ors) (trigger e) w =
  match sem e or w with
  | Ok x w' => Returns x w' ors
  | Blocked => Waits (trigger e) w
  | Panics r => Aborts r w
  end.
Proof.
  unfold trigger. rewrite run_vis. destruct (sem e or w); try reflexivity. apply run_ret.
Qed.

Lemma run_bind {A B : Type} (m : prog A) (f : A -> prog B) ors w :
  run ors (bind m f) w =
  match run ors m w with
  | Returns a w' rest => run rest (f a) w'
  | Waits m' w' => Waits (bind m' f) w'
  | Aborts r w' => Aborts r w'
  | Unscheduled m' w' => Unscheduled (bind m' f) w'
  end.
Proof.
  revert m w. induction ors as [|or ors IH]; intros m w.
  - destruct m; reflexivity.
  - destruct m as [a|X e k].
    + reflexivity.
    + cbn [bind]. rewrite !run_vis.
      destruct (sem e or w) as [x w'| |r]; [apply IH|reflexivity|reflexivity].
Qed.

Lemma stop_unfold p c :
  stop p c = (sp <- trigger (EHasProcess p) ;;
              if negb sp then Ret nil_error else stop_interrupt p c).
Proof. reflexivity. Qed.

Lemma kill_unfold p :
  kill p = (sp <- trigger (EHasProcess p) ;;
            if negb sp then Ret nil_error else kill_signal p).
Proof. reflexivity. Qed.

Lemma stop_drain_unfold p c expectError :
  stop_drain p c expectError =
  (r <- trigger (ESelect p c) ;;
   match r with
   | FromExit e => close_return p (unexpected expectError e)
   | CtxDone => kill p
   end).
Proof. reflexivity. Qed.

Lemma kill_drain_unfold p :
  kill_drain p = (e <- trigger (ERecv p) ;; close_return p (unexpected isKilled e)).
Proof. reflexivity. Qed.

(** *** The events, one by one *)

Section Events.
Variables (w : world) (p : pid) (P : Process) (or : oracle).
Hypothesis HP : procs w !! p = Some P.

Lemma sem_has_process :
  sem (EHasProcess p) or w =
  Ok (match exec.Process (cmd P) with Some _ => true | None => false end) w.
Proof using HP. cbn [sem]. rewrite HP. reflexivity. Qed.

Lemma sem_signal_reaped sp sig :
  exec.Process (cmd P) = Some sp -> os.state sp = os.Reaped ->
  sem (ESignal p sig) or w = Ok (Some os.ErrProcessDone) w.
Proof using HP. intros H1 H2. cbn [sem]. rewrite HP, H1, H2. reflexivity. Qed.

Lemma sem_signal_fails sp sig e :
  exec.Process (cmd P) = Some sp -> os.state sp <> os.Reaped ->
  sigres or = Some e ->
  sem (ESignal p sig) or w = Ok (Some e) w.
Proof using HP.
  intros H1 H2 H3. cbn [sem]. rewrite HP, H1, H3.
  destruct (os.state sp); congruence.
Qed.

Lemma sem_signal_delivered sp sig :
  exec.Process (cmd P) = Some sp -> os.state sp <> os.Reaped ->
  sigres or = None ->
  sem (ESignal p sig) or w =
  Ok nil_error (set_proc w p (deliver P sp sig)).
Proof using HP.
  intros H1 H2 H3. cbn [sem]. rewrite HP, H1, H3.
  destruct (os.state sp); congruence.
Qed.

(** A signal is answered at once: with an error and no effect, or with
    nil and the signal delivered. *)
Lemma sem_signal_cases sp sig :
  exec.Process (cmd P) = Some sp ->
  (exists e, sem (ESignal p sig) or w = Ok (Some e) w) \/
  (os.state sp <> os.Reaped /\
   sem (ESignal p sig) or w =
   Ok nil_error (set_proc w p (deliver P sp sig))).
Proof using HP.
  intros H1.
  assert (Hst : os.state sp = os.Reaped \/ os.state sp <> os.Reaped)
    by (destruct (os.state sp); [right|right|left]; congruence).
  destruct Hst as [Hst|Hst].
  - left. eexists. apply (sem_signal_reaped sp); assumption.
  - destruct (sigres or) as [e|] eqn:Hor.
    + left. exists e. apply (sem_signal_fails sp); assumption.
    + right. split; [assumption|]. apply sem_signal_delivered; assumption.
Qed.

Lemma sem_signal_error sig e w1 :
  sem (ESignal p sig) or w = Ok e w1 -> notnil e = true -> w1 = w.
Proof using HP.
  cbn [sem]. rewrite HP. destruct (exec.Process (cmd P)) as [sp|]; [|discriminate].
  destruct (os.state sp), (sigres or); intros H Hn; inversion H; subst;
    try reflexivity; discriminate.
Qed.

Lemma sem_once_err : sem (EOnceErr p) or w = Ok (err (once P)) w.
Proof using HP. cbn [sem]. rewrite HP. reflexivity. Qed.

Lemma sem_get_cmd : sem (EGetCmd p) or w = Ok (cmd P) w.
Proof using HP. cbn [sem]. rewrite HP. reflexivity. Qed.

End Events.

(** ** The signal phase of [stop] (lines 220-241) *)

Section SignalPhase.
Variables (w : world) (p : pid) (P : Process) (cx : ctx).
Hypothesis HP : procs w !! p = Some P.

Lemma stop_no_handle or ors :
  exec.Process (cmd P) = None ->
  run (or :: ors) (stop p cx) w = Returns nil_error w ors.
Proof using HP.
  intros Hh. rewrite stop_unfold. cbn [bind trigger].
  rewrite run_vis, (sem_has_process w p P or HP), Hh. cbn [negb]. apply run_ret.
Qed.

Lemma stop_to_interrupt sp or ors :
  exec.Process (cmd P) = Some sp ->
  run (or :: ors) (stop p cx) w = run ors (stop_interrupt p cx) w.
Proof using HP.
  intros Hh. rewrite stop_unfold. cbn [bind trigger].
  rewrite run_vis, (sem_has_process w p P or HP), Hh. reflexivity.
Qed.

Lemma stop_interrupt_gone or ors e w1 :
  sem (ESignal p os.Interrupt) or w = Ok e w1 ->
  isProcessDone e = true ->
  run (or :: ors) (stop_interrupt p cx) w = Returns nil_error w ors.
Proof using HP.
  intros Hs Hd. assert (Hn : notnil e = true) by (destruct e; [reflexivity|discriminate]).
  pose proof (sem_signal_error w p P or HP _ _ _ Hs Hn) as ->.
  unfold stop_interrupt. cbn [bind trigger]. rewrite run_vis, Hs, Hn, Hd. apply run_ret.
Qed.

Lemma stop_interrupt_escalates or ors e w1 :
  sem (ESignal p os.Interrupt) or w = Ok e w1 ->
  notnil e = true -> isProcessDone e = false ->
  run (or :: ors) (stop_interrupt p cx) w = run ors (stop_escalate p cx) w.
Proof using HP.
  intros Hs Hn Hd.
  pose proof (sem_signal_error w p P or HP _ _ _ Hs Hn) as ->.
  unfold stop_interrupt. cbn [bind trigger]. rewrite run_vis, Hs, Hn, Hd. reflexivity.
Qed.

Lemma stop_interrupt_delivered or ors w1 :
  sem (ESignal p os.Interrupt) or w = Ok nil_error w1 ->
  run (or :: ors) (stop_interrupt p cx) w = run ors (stop_drain p cx isInterrupt) w1.
Proof using HP.
  intros Hs. unfold stop_interrupt. cbn [bind trigger]. rewrite run_vis, Hs. reflexivity.
Qed.

Lemma stop_escalate_fails or ors e w1 :
  sem (ESignal p os.Kill) or w = Ok e w1 ->
  notnil e = true ->
  run (or :: ors) (stop_escalate p cx) w = Returns e w ors.
Proof using HP.
  intros Hs Hn.
  pose proof (sem_signal_error w p P or HP _ _ _ Hs Hn) as ->.
  unfold stop_escalate. cbn [bind trigger]. rewrite run_vis, Hs, Hn. apply run_ret.
Qed.

Lemma stop_escalate_delivered or ors w1 :
  sem (ESignal p os.Kill) or w = Ok nil_error w1 ->
  run (or :: ors) (stop_escalate p cx) w = run ors (stop_drain p cx isKilled) w1.
Proof using HP.
  intros Hs. unfold stop_escalate. cbn [bind trigger]. rewrite run_vis, Hs. reflexivity.
Qed.

End SignalPhase.

(** ** The exit channel *)

Lemma set_exitCh_id P : set_exitCh P (exitCh P) = P.
Proof. destruct P; reflexivity. Qed.

Lemma set_proc_id w p P : procs w !! p = Some P -> set_proc w p P = w.
Proof.
  intros H. unfold set_proc, set_procs. rewrite (list_insert_id _ _ _ H).
  destruct w; reflexivity.
Qed.

Lemma lookup_set_proc w p P P' :
  procs w !! p = Some P -> procs (set_proc w p P') !! p = Some P'.
Proof. intros H. cbn. apply list_lookup_insert_eq. eapply lookup_lt_Some, H. Qed.

Lemma lookup_set_proc_ne w p q P' :
  p <> q -> procs (set_proc w p P') !! q = procs w !! q.
Proof. intros H. cbn. apply list_lookup_insert_ne, H. Qed.

Lemma set_proc_twice w p P1 P2 :
  set_proc (set_proc w p P1) p P2 = set_proc w p P2.
Proof. unfold set_proc, set_procs. cbn. rewrite list_insert_insert_eq. reflexivity. Qed.

Section Channel.
Variables (w : world) (p : pid) (P : Process) (or : oracle).
Hypothesis HP : procs w !! p = Some P.

Lemma sem_select_exit cx e rest :
  buf (exitCh P) = e :: rest -> exit_wins w cx or ->
  sem (ESelect p cx) or w = Ok (FromExit e) (set_proc w p (drained P rest)).
Proof using HP.
  intros Hb Hw. cbn [sem]. rewrite HP. unfold recv_exit, chan_recv. rewrite Hb.
  destruct Hw as [Hw|Hw]; rewrite Hw; [reflexivity|].
  destruct (ctx_done w cx); reflexivity.
Qed.

Lemma sem_select_closed cx :
  buf (exitCh P) = [] -> closed (exitCh P) = true -> exit_wins w cx or ->
  sem (ESelect p cx) or w = Ok (FromExit nil_error) w.
Proof using HP.
  intros Hb Hc Hw. cbn [sem]. rewrite HP. unfold recv_exit, chan_recv. rewrite Hb, Hc.
  cbv beta iota. rewrite set_exitCh_id, (set_proc_id _ _ _ HP).
  destruct Hw as [Hw|Hw]; rewrite Hw; [reflexivity|].
  destruct (ctx_done w cx); reflexivity.
Qed.

Lemma sem_select_done cx :
  buf (exitCh P) = [] -> closed (exitCh P) = false -> ctx_done w cx = true ->
  sem (ESelect p cx) or w = Ok CtxDone w.
Proof using HP.
  intros Hb Hc Hd. cbn [sem]. rewrite HP. unfold recv_exit, chan_recv.
  rewrite Hb, Hc, Hd. reflexivity.
Qed.

Lemma sem_select_ctx_first cx :
  ctx_done w cx = true -> ctx_first or = true ->
  sem (ESelect p cx) or w = Ok CtxDone w.
Proof using HP.
  intros Hd Hf. cbn [sem]. rewrite HP, Hd, Hf.
  destruct (recv_exit w p P) as [[v w']|]; reflexivity.
Qed.

Lemma sem_select_blocked cx :
  buf (exitCh P) = [] -> closed (exitCh P) = false -> ctx_done w cx = false ->
  sem (ESelect p cx) or w = Blocked.
Proof using HP.
  intros Hb Hc Hd. cbn [sem]. rewrite HP. unfold recv_exit, chan_recv.
  rewrite Hb, Hc, Hd. reflexivity.
Qed.

Lemma sem_recv_value e rest :
  buf (exitCh P) = e :: rest ->
  sem (ERecv p) or w = Ok e (set_proc w p (drained P rest)).
Proof using HP.
  intros Hb. cbn [sem]. rewrite HP. unfold recv_exit, chan_recv. rewrite Hb. reflexivity.
Qed.

Lemma sem_recv_blocked :
  buf (exitCh P) = [] -> closed (exitCh P) = false ->
  sem (ERecv p) or w = Blocked.
Proof using HP.
  intros Hb Hc. cbn [sem]. rewrite HP. unfold recv_exit, chan_recv. rewrite Hb, Hc.
  reflexivity.
Qed.

Lemma sem_close_open :
  closed (exitCh P) = false ->
  sem (EClose p) or w = Ok tt (set_proc w p (close_exit P)).
Proof using HP. intros Hc. cbn [sem]. rewrite HP, Hc. reflexivity. Qed.

End Channel.

Lemma close_return_open w p P or ors r :
  procs w !! p = Some P -> closed (exitCh P) = false ->
  run (or :: ors) (close_return p r) w = Returns r (set_proc w p (close_exit P)) ors.
Proof.
  intros HP Hc. unfold close_return. cbn [bind trigger].
  rewrite run_vis, (sem_close_open w p P or HP Hc). apply run_ret.
Qed.

(** ** The race of [stop] (lines 243-261) and [kill] (lines 264-286) *)

Section Race.
Variables (w : world) (p : pid) (P : Process).
Hypothesis HP : procs w !! p = Some P.

Lemma stop_drain_exit cx expectError or or' ors e rest :
  buf (exitCh P) = e :: rest -> closed (exitCh P) = false ->
  exit_wins w cx or ->
  run (or :: or' :: ors) (stop_drain p cx expectError) w =
  Returns (unexpected expectError e) (set_proc w p (close_exit (drained P rest))) ors.
Proof using HP.
  intros Hb Hc Hw. rewrite stop_drain_unfold. cbn [bind trigger].
  rewrite run_vis, (sem_select_exit w p P or HP cx e rest Hb Hw).
  rewrite (close_return_open _ p (drained P rest)).
  - rewrite set_proc_twice. reflexivity.
  - eapply lookup_set_proc, HP.
  - exact Hc.
Qed.

Lemma stop_drain_timeout cx expectError or ors :
  buf (exitCh P) = [] -> closed (exitCh P) = false -> ctx_done w cx = true ->
  run (or :: ors) (stop_drain p cx expectError) w = run ors (kill p) w.
Proof using HP.
  intros Hb Hc Hd. rewrite stop_drain_unfold. cbn [bind trigger].
  rewrite run_vis, (sem_select_done w p P or HP cx Hb Hc Hd). reflexivity.
Qed.

Lemma stop_drain_blocks cx expectError or ors :
  buf (exitCh P) = [] -> closed (exitCh P) = false -> ctx_done w cx = false ->
  run (or :: ors) (stop_drain p cx expectError) w = Waits (stop_drain p cx expectError) w.
Proof using HP.
  intros Hb Hc Hd. rewrite stop_drain_unfold. cbn [bind trigger].
  rewrite run_vis, (sem_select_blocked w p P or HP cx Hb Hc Hd). reflexivity.
Qed.

Lemma kill_no_handle or ors :
  exec.Process (cmd P) = None ->
  run (or :: ors) (kill p) w = Returns nil_error w ors.
Proof using HP.
  intros Hh. rewrite kill_unfold. cbn [bind trigger].
  rewrite run_vis, (sem_has_process w p P or HP), Hh. apply run_ret.
Qed.

Lemma kill_to_signal sp or ors :
  exec.Process (cmd P) = Some sp ->
  run (or :: ors) (kill p) w = run ors (kill_signal p) w.
Proof using HP.
  intros Hh. rewrite kill_unfold. cbn [bind trigger].
  rewrite run_vis, (sem_has_process w p P or HP), Hh. reflexivity.
Qed.

Lemma kill_signal_gone or ors e w1 :
  sem (ESignal p os.Kill) or w = Ok e w1 -> isProcessDone e = true ->
  run (or :: ors) (kill_signal p) w = Returns nil_error w ors.
Proof using HP.
  intros Hs Hd. assert (Hn : notnil e = true) by (destruct e; [reflexivity|discriminate]).
  pose proof (sem_signal_error w p P or HP _ _ _ Hs Hn) as ->.
  unfold kill_signal. cbn [bind trigger]. rewrite run_vis, Hs, Hn, Hd. apply run_ret.
Qed.

Lemma kill_signal_fails or ors e w1 :
  sem (ESignal p os.Kill) or w = Ok e w1 ->
  notnil e = true -> isProcessDone e = false ->
  run (or :: ors) (kill_signal p) w = Returns e w ors.
Proof using HP.
  intros Hs Hn Hd.
  pose proof (sem_signal_error w p P or HP _ _ _ Hs Hn) as ->.
  unfold kill_signal. cbn [bind trigger]. rewrite run_vis, Hs, Hn, Hd. apply run_ret.
Qed.

Lemma kill_signal_delivered or ors w1 :
  sem (ESignal p os.Kill) or w = Ok nil_error w1 ->
  run (or :: ors) (kill_signal p) w = run ors (kill_drain p) w1.
Proof using HP.
  intros Hs. unfold kill_signal. cbn [bind trigger]. rewrite run_vis, Hs. reflexivity.
Qed.

Lemma kill_drain_blocks or ors :
  buf (exitCh P) = [] -> closed (exitCh P) = false ->
  run (or :: ors) (kill_drain p) w = Waits (kill_drain p) w.
Proof using HP.
  intros Hb Hc. rewrite kill_drain_unfold. cbn [bind trigger].
  rewrite run_vis, (sem_recv_blocked w p P or HP Hb Hc). reflexivity.
Qed.

Lemma kill_drain_value or or' ors e rest :
  buf (exitCh P) = e :: rest -> closed (exitCh P) = false ->
  run (or :: or' :: ors) (kill_drain p) w =
  Returns (unexpected isKilled e) (set_proc w p (close_exit (drained P rest))) ors.
Proof using HP.
  intros Hb Hc. rewrite kill_drain_unfold. cbn [bind trigger].
  rewrite run_vis, (sem_recv_value w p P or HP e rest Hb).
  rewrite (close_return_open _ p (drained P rest)).
  - rewrite set_proc_twice. reflexivity.
  - eapply lookup_set_proc, HP.
  - exact Hc.
Qed.

End Race.

(** [unexpected] is nil exactly for nil and for the expected error, and is
    the error itself otherwise. *)
Lemma unexpected_nil expectError e :
  unexpected expectError e = nil_error <-> e = nil_error \/ expectError e = true.
Proof.
  unfold unexpected, nil_error. destruct e as [g|]; cbn.
  - destruct (expectError (Some g)); cbn; split; intros H; auto;
      try discriminate; destruct H; discriminate.
  - split; auto.
Qed.

Lemma unexpected_verbatim expectError e :
  e <> nil_error -> expectError e = false -> unexpected expectError e = e.
Proof.
  unfold unexpected, nil_error. intros Hn He. destruct e as [g|]; [|congruence].
  cbn. rewrite He. reflexivity.
Qed.

(** ** The guard [onceError.Do] (lines 198-206) *)

Lemma sem_once_leave_at w p P or r :
  procs w !! p = Some P -> o (once P) = Locked ->
  sem (EOnceLeave p r) or w = Ok tt (set_proc w p (finish_once P r)).
Proof. intros HP H. cbn [sem]. rewrite HP, H. reflexivity. Qed.


Section Guard.
Variables (w : world) (p : pid) (P : Process).
Hypothesis HP : procs w !! p = Some P.

Lemma sem_once_enter_fresh or :
  o (once P) = Fresh ->
  sem (EOnceEnter p) or w = Ok true (set_proc w p (lock_once P)).
Proof using HP. intros H. cbn [sem]. rewrite HP, H. reflexivity. Qed.

Lemma sem_once_enter_finished or :
  o (once P) = Finished -> sem (EOnceEnter p) or w = Ok false w.
Proof using HP. intros H. cbn [sem]. rewrite HP, H. reflexivity. Qed.

Lemma sem_once_enter_locked or :
  o (once P) = Locked -> sem (EOnceEnter p) or w = Blocked.
Proof using HP. intros H. cbn [sem]. rewrite HP, H. reflexivity. Qed.

Lemma sem_once_leave or r :
  o (once P) = Locked ->
  sem (EOnceLeave p r) or w = Ok tt (set_proc w p (finish_once P r)).
Proof using HP. intros H. cbn [sem]. rewrite HP, H. reflexivity. Qed.

(** Once the guard is done, [Do] returns the recorded error and runs
    nothing. *)
Lemma Do_finished fn or or' ors :
  o (once P) = Finished ->
  run (or :: or' :: ors) (onceError_Do p fn) w = Returns (err (once P)) w ors.
Proof using HP.
  intros H. unfold onceError_Do. cbn [bind trigger].
  rewrite run_vis, (sem_once_enter_finished or H). cbn [bind].
  rewrite run_trigger, (sem_once_err w p P or' HP). reflexivity.
Qed.

(** While another caller runs the guarded function, [Do] waits. *)
Lemma Do_locked fn or ors :
  o (once P) = Locked ->
  exists m, run (or :: ors) (onceError_Do p fn) w = Waits m w.
Proof using HP.
  intros H. unfold onceError_Do. cbn [bind trigger].
  rewrite run_vis, (sem_once_enter_locked or H). eexists. reflexivity.
Qed.

(** The first caller runs the function, records its result and returns
    it. *)
Lemma Do_fresh fn or ors r w1 P1 or1 or2 rest :
  o (once P) = Fresh ->
  run ors fn (set_proc w p (lock_once P)) = Returns r w1 (or1 :: or2 :: rest) ->
  procs w1 !! p = Some P1 -> o (once P1) = Locked ->
  run (or :: ors) (onceError_Do p fn) w =
  Returns r (set_proc w1 p (finish_once P1 r)) rest.
Proof using HP.
  intros H Hfn HP1 HL. unfold onceError_Do. cbn [bind trigger].
  rewrite run_vis, (sem_once_enter_fresh or H).
  rewrite !run_bind, Hfn.
  rewrite run_trigger, (sem_once_leave_at w1 p P1 or1 r HP1 HL).
  rewrite run_trigger.
  rewrite (sem_once_err _ p (finish_once P1 r) or2 (lookup_set_proc _ _ _ _ HP1)).
  reflexivity.
Qed.

End Guard.

(** ** [Wait] (lines 298-305) and the background goroutine (lines 214-216) *)

Section Waiting.
Variables (w : world) (p : pid) (P : Process).
Hypothesis HP : procs w !! p = Some P.

Lemma Wait_exit cx or ors e rest :
  buf (exitCh P) = e :: rest -> exit_wins w cx or ->
  run (or :: ors) (Wait p cx) w = Returns e (set_proc w p (drained P rest)) ors.
Proof using HP.
  intros Hb Hw. unfold Wait. cbn [bind trigger].
  rewrite run_vis, (sem_select_exit w p P or HP cx e rest Hb Hw). apply run_ret.
Qed.

Lemma Wait_closed cx or ors :
  buf (exitCh P) = [] -> closed (exitCh P) = true -> exit_wins w cx or ->
  run (or :: ors) (Wait p cx) w = Returns nil_error w ors.
Proof using HP.
  intros Hb Hc Hw. unfold Wait. cbn [bind trigger].
  rewrite run_vis, (sem_select_closed w p P or HP cx Hb Hc Hw). apply run_ret.
Qed.

Lemma Wait_timeout cx or ors :
  buf (exitCh P) = [] -> closed (exitCh P) = false -> ctx_done w cx = true ->
  run (or :: ors) (Wait p cx) w = run ors (Kill p) w.
Proof using HP.
  intros Hb Hc Hd. unfold Wait. cbn [bind trigger].
  rewrite run_vis, (sem_select_done w p P or HP cx Hb Hc Hd). reflexivity.
Qed.

Lemma Wait_ctx_first cx or ors :
  ctx_done w cx = true -> ctx_first or = true ->
  run (or :: ors) (Wait p cx) w = run ors (Kill p) w.
Proof using HP.
  intros Hd Hf. unfold Wait. cbn [bind trigger].
  rewrite run_vis, (sem_select_ctx_first w p P or HP cx Hd Hf). reflexivity.
Qed.

Lemma Wait_blocks cx or ors :
  buf (exitCh P) = [] -> closed (exitCh P) = false -> ctx_done w cx = false ->
  run (or :: ors) (Wait p cx) w = Waits (Wait p cx) w.
Proof using HP.
  intros Hb Hc Hd. unfold Wait. cbn [bind trigger].
  rewrite run_vis, (sem_select_blocked w p P or HP cx Hb Hc Hd). reflexivity.
Qed.

(** The background goroutine collects the status of the terminated
    process, once its streams are copied, and puts it into the empty exit
    channel. *)
Lemma wait_deposits sp werr or or' ors :
  exec.Process (cmd P) = Some sp -> os.state sp = os.Exited werr ->
  copying or = false ->
  buf (exitCh P) = [] -> closed (exitCh P) = false ->
  run (or :: or' :: ors) (wait p) w =
  Returns tt (set_proc w p (send_exit (reap P sp) werr)) ors.
Proof using HP.
  intros Hh Hst Hcp Hb Hc. unfold wait. cbn [bind trigger].
  rewrite run_vis. cbn [sem]. rewrite HP, Hh, Hst, Hcp. cbv beta iota.
  rewrite run_trigger. cbn [sem].
  rewrite (lookup_set_proc _ _ _ _ HP). cbn [reap set_state set_cmd exitCh].
  rewrite Hc, Hb. cbn [length Nat.ltb Nat.leb chan_cap]. rewrite set_proc_twice.
  reflexivity.
Qed.

(** While the process runs, the background goroutine waits. *)
Lemma wait_blocks sp or ors :
  exec.Process (cmd P) = Some sp -> os.state sp = os.Running ->
  run (or :: ors) (wait p) w = Waits (wait p) w.
Proof using HP.
  intros Hh Hst. unfold wait. cbn [bind trigger].
  rewrite run_vis. cbn [sem]. rewrite HP, Hh, Hst. reflexivity.
Qed.

(** While the streams of the terminated process are copied, it waits too. *)
Lemma wait_copies sp werr or ors :
  exec.Process (cmd P) = Some sp -> os.state sp = os.Exited werr ->
  copying or = true ->
  run (or :: ors) (wait p) w = Waits (wait p) w.
Proof using HP.
  intros Hh Hst Hcp. unfold wait. cbn [bind trigger].
  rewrite run_vis. cbn [sem]. rewrite HP, Hh, Hst, Hcp. reflexivity.
Qed.

End Waiting.

(** ** [Start] (command.go, lines 59-66) and [Restart] (lines 307-322) *)

Lemma Start_fails w c or ors e :
  exec.Process c = None -> launch or = Some e ->
  run (or :: ors) (Start c) w = Returns (None, Some e) w ors.
Proof.
  intros Hh Hl. unfold Start. cbn [bind trigger].
  rewrite run_vis. cbn [sem]. rewrite Hh, Hl. apply run_ret.
Qed.

Lemma Start_succeeds w c or or1 or2 ors :
  exec.Process c = None -> launch or = None ->
  run (or :: or1 :: or2 :: ors) (Start c) w =
  Returns (Some (length (procs w)), nil_error)
          (with_controller w (exec.with_Process c (Some launched))) ors.
Proof.
  intros Hh Hl. unfold Start. cbn [bind trigger].
  rewrite run_vis. cbn [sem]. rewrite Hh, Hl.
  rewrite run_vis. cbn [sem]. rewrite run_vis. cbn [sem]. rewrite run_ret. reflexivity.
Qed.

Lemma relaunch_starts w p P a0 args or or' ors :
  procs w !! p = Some P -> exec.Args (cmd P) = a0 :: args ->
  run (or :: or' :: ors) (relaunch p) w =
  run ors (Start (restart_cmd (cmd P) (resolved or' (exec.Path (cmd P))) args)) w.
Proof.
  intros HP Ha. unfold relaunch. cbn [bind trigger].
  rewrite run_vis, (sem_get_cmd w p P or HP), Ha. cbn [bind trigger].
  rewrite run_vis. reflexivity.
Qed.

Lemma relaunch_panics w p P or ors :
  procs w !! p = Some P -> exec.Args (cmd P) = [] ->
  run (or :: or :: ors) (relaunch p) w = Aborts SliceBoundsOutOfRange w.
Proof.
  intros HP Ha. unfold relaunch. cbn [bind trigger].
  rewrite run_vis, (sem_get_cmd w p P or HP), Ha. reflexivity.
Qed.

Lemma Restart_after_Stop w p cx ors :
  run ors (Restart p cx) w =
  match run ors (Stop p cx) w with
  | Returns e w1 rest =>
      if notnil e then Returns (None, e) w1 rest else run rest (relaunch p) w1
  | Waits m w1 => Waits (e <- m ;; if notnil e then Ret (None, e) else relaunch p) w1
  | Aborts r w1 => Aborts r w1
  | Unscheduled m w1 =>
      Unscheduled (e <- m ;; if notnil e then Ret (None, e) else relaunch p) w1
  end.
Proof.
  unfold Restart. rewrite run_bind.
  destruct (run ors (Stop p cx) w) as [e w1 rest| | |]; try reflexivity.
  destruct (notnil e); [apply run_ret|reflexivity].
Qed.

Lemma restart_cmd_fields old path args :
  let next := restart_cmd old path args in
  exec.Path next = path /\
  exec.Args next = exec.Path old :: args /\
  exec.Env next = exec.Env old /\
  exec.Dir next = exec.Dir old /\
  exec.Stdin next = exec.Stdin old /\
  exec.Stdout next = exec.Stdout old /\
  exec.Stderr next = exec.Stderr old /\
  exec.ExtraFiles next = exec.ExtraFiles old /\
  exec.Process next = None.
Proof. cbn. repeat split. Qed.

(** ** Program points *)

Lemma code_of_call c : code_of c = denote (pc_of_call c).
Proof. destruct c; reflexivity. Qed.

Lemma denote_view c :
  match pc_view c with
  | VRet v => denote c = Ret v
  | VVis e next => exists k, denote c = Vis e k /\ forall x, k x = denote (next x)
  end.
Proof.
  destruct c as [p g K|p b K|p K|p|old args| |c sk|c sk|p sk|p cx|p|p e|v]; cbn [pc_view].
  - destruct K; eexists; (split; [reflexivity|]); intros [|]; destruct g; reflexivity.
  - destruct b, K; cbn [body_view]; eexists; (split; [reflexivity|]); intros x;
      try (destruct x as [[g|]|]); try (destruct x as [g|]); try (destruct x); try reflexivity;
      cbn; try (destruct (wrapsProcessDone g)); reflexivity.
  - destruct K; eexists; (split; [reflexivity|]); intros e; destruct e; reflexivity.
  - eexists; split; [reflexivity|]. intros old. cbn.
    destruct (exec.Args old); reflexivity.
  - eexists; split; [reflexivity|]. intros path. reflexivity.
  - eexists; split; [reflexivity|]. intros [].
  - destruct sk; eexists; (split; [reflexivity|]); intros [c'|e]; reflexivity.
  - destruct sk; eexists; (split; [reflexivity|]); intros q; reflexivity.
  - destruct sk; eexists; (split; [reflexivity|]); intros []; reflexivity.
  - eexists; split; [reflexivity|]. intros [e|]; reflexivity.
  - eexists; split; [reflexivity|]. intros e; reflexivity.
  - eexists; split; [reflexivity|]. intros []; reflexivity.
  - reflexivity.
Qed.

(** ** Counting goroutines *)

Lemma count_app f l1 l2 : count f (l1 ++ l2) = count f l1 + count f l2.
Proof. induction l1 as [|c l1 IH]; cbn; [reflexivity|]. rewrite IH. lia. Qed.

Lemma count_snoc f l c : count f (l ++ [c]) = count f l + b2n (f c).
Proof. rewrite count_app. cbn. lia. Qed.

Lemma count_lookup_le f (l : list pc) t c :
  l !! t = Some c -> b2n (f c) <= count f l.
Proof.
  revert t. induction l as [|x l IH]; intros [|t] H; simpl in H |- *; try discriminate.
  - inversion H; subst. lia.
  - specialize (IH _ H). lia.
Qed.

Lemma count_insert f (l : list pc) t c c' :
  l !! t = Some c ->
  count f (<[t := c']> l) + b2n (f c) = count f l + b2n (f c').
Proof.
  revert t. induction l as [|x l IH]; intros [|t] H; simpl in H |- *; try discriminate.
  - inversion H; subst. lia.
  - specialize (IH _ H). lia.
Qed.

Lemma count_zero_lookup f (l : list pc) t c :
  count f l = 0 -> l !! t = Some c -> f c = false.
Proof.
  intros H0 H. pose proof (count_lookup_le f l t c H) as Hle.
  destruct (f c); [cbn in Hle; lia|reflexivity].
Qed.

Lemma count_same f g (l : list pc) :
  (forall c, f c = g c) -> count f l = count g l.
Proof. intros H. induction l as [|c l IH]; cbn; [reflexivity|]. rewrite H, IH. reflexivity. Qed.

(** ** One step of one goroutine *)

Lemma step_sched w t or th c :
  crashed w = None -> threads w !! t = Some th -> code th = denote c ->
  step (Sched t or) w =
  match pc_sem c or w with
  | Ok c' w' => Some (set_code w' t th (denote c'))
  | Blocked => None
  | Panics r => Some (set_crashed w r)
  end.
Proof.
  intros Hc Hth Hcode. unfold step, pc_sem. rewrite Hc, Hth, Hcode.
  pose proof (denote_view c) as Hv. destruct (pc_view c) as [v|X e next].
  - rewrite Hv. reflexivity.
  - destruct Hv as (k & -> & Hk). destruct (sem e or w) as [x w'| |r]; try reflexivity.
    rewrite Hk. reflexivity.
Qed.

Lemma denote_ret c v : denote c = Ret v -> c = PDone v.
Proof.
  intros H. pose proof (denote_view c) as Hv. destruct c; cbn [pc_view] in Hv;
    try (destruct Hv as (k & Hk & _); rewrite Hk in H; discriminate).
  - destruct b; cbn [body_view] in Hv; destruct Hv as (k & Hk & _);
      rewrite Hk in H; discriminate.
  - cbn in H. congruence.
Qed.

Lemma good_frame q P pcs t c c' :
  pcs !! t = Some c -> same_class q c c' ->
  good q P pcs -> good q P (<[t := c']> pcs).
Proof.
  intros Ht (E1 & E2 & E3 & E4 & E5 & E6) G. unfold good in *.
  pose proof (count_insert (in_body q) pcs t c c' Ht) as C1.
  pose proof (count_insert (may_close q) pcs t c c' Ht) as C2.
  pose proof (count_insert (at_close q) pcs t c c' Ht) as C3.
  pose proof (count_insert (pending q) pcs t c c' Ht) as C4.
  pose proof (count_insert (sending q) pcs t c c' Ht) as C5.
  pose proof (count_insert (at_err q) pcs t c c' Ht) as C6.
  rewrite E1 in C1. rewrite E2 in C2. rewrite E3 in C3.
  rewrite E4 in C4. rewrite E5 in C5. rewrite E6 in C6.
  assert (count (in_body q) (<[t:=c']> pcs) = count (in_body q) pcs) as -> by lia.
  assert (count (may_close q) (<[t:=c']> pcs) = count (may_close q) pcs) as -> by lia.
  assert (count (at_close q) (<[t:=c']> pcs) = count (at_close q) pcs) as -> by lia.
  assert (count (pending q) (<[t:=c']> pcs) = count (pending q) pcs) as -> by lia.
  assert (count (sending q) (<[t:=c']> pcs) = count (sending q) pcs) as -> by lia.
  assert (count (at_err q) (<[t:=c']> pcs) = count (at_err q) pcs) as -> by lia.
  exact G.
Qed.

Lemma good_snoc q P pcs c :
  in_body q c = false -> may_close q c = false -> at_close q c = false ->
  pending q c = false -> sending q c = false -> at_err q c = false ->
  good q P pcs -> good q P (pcs ++ [c]).
Proof.
  intros E1 E2 E3 E4 E5 E6 G. unfold good in *.
  rewrite !count_snoc, E1, E2, E3, E4, E5, E6. cbn [b2n]. rewrite !Nat.add_0_r. exact G.
Qed.

(** ** The invariant is kept *)

Lemma refers_bound w pcs t c q :
  Inv w pcs -> pcs !! t = Some c -> refers q c = true -> q < length (procs w).
Proof.
  intros (_ & Hr & _) Ht Hq. destruct (Nat.lt_ge_cases q (length (procs w))) as [H|H]; [exact H|].
  rewrite (count_zero_lookup _ _ _ _ (Hr q H) Ht) in Hq. discriminate.
Qed.

Lemma class_refers q c :
  (in_body q c = true -> refers q c = true) /\
  (may_close q c = true -> refers q c = true) /\
  (at_close q c = true -> refers q c = true) /\
  (pending q c = true -> refers q c = true) /\
  (sending q c = true -> refers q c = true) /\
  (at_err q c = true -> refers q c = true).
Proof.
  destruct c as [p g K|p b K|p K|p|old args| |c sk|c sk|p sk|p cx|p|p e|v];
    cbn; repeat split; try (intros; assumption); try discriminate;
    try (destruct b; cbn; congruence).
Qed.

Lemma count_le f g (l : list pc) :
  (forall c, f c = true -> g c = true) -> count f l <= count g l.
Proof.
  intros H. induction l as [|c l IH]; cbn; [lia|].
  specialize (H c). destruct (f c), (g c); cbn; try lia.
  all: specialize (H eq_refl); discriminate.
Qed.

Lemma unreferred q pcs :
  count (refers q) pcs = 0 ->
  count (in_body q) pcs = 0 /\ count (may_close q) pcs = 0 /\
  count (at_close q) pcs = 0 /\ count (pending q) pcs = 0 /\
  count (sending q) pcs = 0 /\ count (at_err q) pcs = 0.
Proof.
  intros H.
  pose proof (count_le (in_body q) (refers q) pcs (fun c => proj1 (class_refers q c))).
  pose proof (count_le (may_close q) (refers q) pcs
                (fun c => proj1 (proj2 (class_refers q c)))).
  pose proof (count_le (at_close q) (refers q) pcs
                (fun c => proj1 (proj2 (proj2 (class_refers q c))))).
  pose proof (count_le (pending q) (refers q) pcs
                (fun c => proj1 (proj2 (proj2 (proj2 (class_refers q c)))))).
  pose proof (count_le (sending q) (refers q) pcs
                (fun c => proj1 (proj2 (proj2 (proj2 (proj2 (class_refers q c))))))).
  pose proof (count_le (at_err q) (refers q) pcs
                (fun c => proj2 (proj2 (proj2 (proj2 (proj2 (class_refers q c))))))).
  lia.
Qed.

Lemma Inv_update w w' pcs t th c c' :
  Inv w pcs -> threads w !! t = Some th -> pcs !! t = Some c ->
  threads w' = threads w ->
  origin_ok (origin th) c' = true ->
  (forall q, length (procs w') <= q -> refers q c' = false /\ length (procs w) <= q) ->
  (forall q P', procs w' !! q = Some P' -> good q P' (<[t := c']> pcs)) ->
  (forall q P, procs w !! q = Some P -> o (once P) = Finished ->
               exists P', procs w' !! q = Some P' /\ once P' = once P) ->
  (forall v q, c' = PDone v -> guard_call (origin th) = Some q ->
               exists P', procs w' !! q = Some P' /\ o (once P') = Finished /\
                          v = RErr (err (once P'))) ->
  Inv (set_code w' t th (denote c')) (<[t := c']> pcs).
Proof.
  intros (HF & Hr & Hg & Hd) Hth Hpc Hthreads Hok Hfresh Hgood Honce Hdone.
  split; [|split; [|split]].
  - cbn. rewrite Hthreads. apply Forall2_insert; [exact HF|]. split; [reflexivity|exact Hok].
  - intros q Hq. destruct (Hfresh q Hq) as [Hc' Hq'].
    pose proof (count_insert (refers q) pcs t c c' Hpc) as Hc.
    specialize (Hr q Hq'). rewrite Hc' in Hc. cbn in Hc. lia.
  - intros q P' HP'. apply Hgood. exact HP'.
  - intros t' th' v q Hth' Hcode Hcall. cbn in Hth'. rewrite Hthreads in Hth'.
    destruct (decide (t = t')) as [<-|Hne].
    + rewrite list_lookup_insert_eq in Hth' by (eapply lookup_lt_Some, Hth).
      inversion Hth'; subst th'. cbn in Hcode, Hcall.
      apply denote_ret in Hcode. apply (Hdone v q Hcode Hcall).
    + rewrite list_lookup_insert_ne in Hth' by exact Hne.
      destruct (Hd t' th' v q Hth' Hcode Hcall) as (P & HP & Ho & Hv).
      destruct (Honce q P HP Ho) as (P' & HP' & Heq).
      exists P'. rewrite Heq. auto.
Qed.

Lemma Inv_set_proc w pcs t th c c' p P P' :
  Inv w pcs -> threads w !! t = Some th -> pcs !! t = Some c ->
  procs w !! p = Some P ->
  origin_ok (origin th) c' = true ->
  (forall q, q <> p -> same_class q c c' /\ refers q c' = false) ->
  good p P' (<[t := c']> pcs) ->
  (o (once P) = Finished -> once P' = once P) ->
  (forall v q, c' = PDone v -> guard_call (origin th) = Some q ->
               q = p /\ o (once P') = Finished /\ v = RErr (err (once P'))) ->
  Inv (set_code (set_proc w p P') t th (denote c')) (<[t := c']> pcs).
Proof.
  intros HI Hth Hpc HP Hok Hframe Hgood Honce Hdone.
  pose proof (lookup_lt_Some _ _ _ HP) as Hlt.
  apply (Inv_update w (set_proc w p P') pcs t th c c' HI Hth Hpc); try assumption.
  - reflexivity.
  - intros q Hq. cbn in Hq. rewrite length_insert in Hq.
    split; [|exact Hq]. apply Hframe. lia.
  - intros q Q HQ. destruct (decide (q = p)) as [->|Hne].
    + rewrite (lookup_set_proc _ _ _ _ HP) in HQ. inversion HQ; subst Q. exact Hgood.
    + rewrite lookup_set_proc_ne in HQ by congruence.
      apply (good_frame q Q pcs t c c' Hpc); [apply Hframe, Hne|].
      destruct HI as (_ & _ & Hg & _). apply Hg, HQ.
  - intros q Q HQ Ho. destruct (decide (q = p)) as [->|Hne].
    + rewrite HP in HQ. inversion HQ; subst Q.
      exists P'. split; [eapply lookup_set_proc, HP|apply Honce, Ho].
    + exists Q. split; [|reflexivity]. rewrite lookup_set_proc_ne by congruence. exact HQ.
  - intros v q Hc' Hcall. destruct (Hdone v q Hc' Hcall) as (-> & Ho & Hv).
    exists P'. split; [eapply lookup_set_proc, HP|]. auto.
Qed.

Lemma Inv_same_proc w pcs t th c c' p P :
  Inv w pcs -> threads w !! t = Some th -> pcs !! t = Some c ->
  procs w !! p = Some P ->
  origin_ok (origin th) c' = true ->
  (forall q, q <> p -> same_class q c c' /\ refers q c' = false) ->
  good p P (<[t := c']> pcs) ->
  (forall v q, c' = PDone v -> guard_call (origin th) = Some q ->
               q = p /\ o (once P) = Finished /\ v = RErr (err (once P))) ->
  Inv (set_code w t th (denote c')) (<[t := c']> pcs).
Proof.
  intros HI Hth Hpc HP Hok Hframe Hgood Hdone.
  pose proof (Inv_set_proc w pcs t th c c' p P P HI Hth Hpc HP Hok Hframe Hgood
                (fun _ => eq_refl) Hdone) as H.
  rewrite (set_proc_id w p P HP) in H. exact H.
Qed.

Lemma Inv_neutral w pcs t th c c' :
  Inv w pcs -> threads w !! t = Some th -> pcs !! t = Some c ->
  origin_ok (origin th) c' = true ->
  (forall q, same_class q c c' /\ refers q c' = false) ->
  (forall v q, c' = PDone v -> guard_call (origin th) = Some q -> False) ->
  Inv (set_code w t th (denote c')) (<[t := c']> pcs).
Proof.
  intros HI Hth Hpc Hok Hframe Hdone.
  apply (Inv_update w w pcs t th c c' HI Hth Hpc); try assumption.
  - reflexivity.
  - intros q Hq. split; [apply Hframe|exact Hq].
  - intros q Q HQ. apply (good_frame q Q pcs t c c' Hpc); [apply Hframe|].
    destruct HI as (_ & _ & Hg & _). apply Hg, HQ.
  - intros q Q HQ _. exists Q. auto.
  - intros v q Hc' Hcall. destruct (Hdone v q Hc' Hcall).
Qed.

Lemma Inv_crashed w pcs r : Inv w pcs -> Inv (set_crashed w r) pcs.
Proof. intros H. exact H. Qed.

Lemma Inv_cancelled w pcs cs : Inv w pcs -> Inv (set_cancelled w cs) pcs.
Proof. intros H. exact H. Qed.

Lemma Inv_empty : Inv empty_world [].
Proof.
  split; [constructor|]. split; [reflexivity|]. split.
  - intros q P H. discriminate.
  - intros t th v q H. discriminate.
Qed.

Lemma Inv_call w pcs c :
  Inv w pcs -> callable w c = true ->
  Inv (set_threads w (threads w ++ [spawn c])) (pcs ++ [pc_of_call c]).
Proof.
  intros (HF & Hr & Hg & Hd) Hc. split; [|split; [|split]].
  - cbn. apply Forall2_app; [exact HF|]. constructor; [|constructor].
    split; [apply code_of_call|]. destruct c; try reflexivity; cbn; apply Nat.eqb_refl.
  - intros q Hq. rewrite count_snoc, (Hr q Hq). cbn in Hq.
    destruct c; cbn in Hc |- *; try reflexivity; try discriminate;
      apply Nat.ltb_lt in Hc;
      (replace (Nat.eqb p q) with false by (symmetry; apply Nat.eqb_neq; lia));
      reflexivity.
  - intros q P HP. apply good_snoc; try (destruct c; (reflexivity || discriminate)).
    apply Hg, HP.
  - intros t th v q Hth Hcode Hcall. cbn in Hth.
    apply lookup_app_Some in Hth. destruct Hth as [Hth|[_ Hth]].
    + exact (Hd t th v q Hth Hcode Hcall).
    + destruct (t - length (threads w)) as [|n]; cbn in Hth; [|discriminate].
      inversion Hth; subst th. cbn in Hcode. rewrite code_of_call in Hcode.
      apply denote_ret in Hcode. destruct c; discriminate.
Qed.

Lemma Inv_exit w pcs p P sp werr :
  Inv w pcs -> procs w !! p = Some P ->
  exec.Process (cmd P) = Some sp -> os.state sp = os.Running ->
  Inv (set_proc w p (terminate P sp werr)) pcs.
Proof.
  intros (HF & Hr & Hg & Hd) HP Hh Hst. split; [|split; [|split]].
  - exact HF.
  - intros q Hq. apply Hr. cbn in Hq. rewrite length_insert in Hq. exact Hq.
  - intros q Q HQ. destruct (decide (q = p)) as [->|Hne].
    + rewrite (lookup_set_proc _ _ _ _ HP) in HQ. inversion HQ; subst Q.
      destruct (Hg p P HP) as (G1 & G2 & G3 & G4 & G5 & G6 & G7 & G8).
      repeat split; try assumption; try (apply G4; assumption).
      intros Hs. specialize (G7 Hs). unfold collected in G7. rewrite Hh, Hst in G7.
      discriminate.
    + rewrite lookup_set_proc_ne in HQ by congruence. apply Hg, HQ.
  - intros t th v q Hth Hcode Hcall.
    destruct (Hd t th v q Hth Hcode Hcall) as (Q & HQ & Ho & Hv).
    destruct (decide (q = p)) as [->|Hne].
    + rewrite HP in HQ. inversion HQ; subst Q.
      exists (terminate P sp werr). split; [eapply lookup_set_proc, HP|]. auto.
    + exists Q. rewrite lookup_set_proc_ne by congruence. auto.
Qed.

Ltac break_match :=
  repeat match goal with
         | |- context [match ?x with _ => _ end] => destruct x; cbn
         end.

Ltac origin_tac Hok :=
  revert Hok; match goal with |- context [origin ?th] => destruct (origin th) end;
  cbn; try reflexivity; try discriminate;
  break_match; auto; try discriminate.

Ltac frame_tac p :=
  let q := fresh "q" in
  let Hq := fresh "Hq" in
  let Hpq := fresh "Hpq" in
  intros q Hq;
  assert (Hpq : Nat.eqb p q = false) by (apply Nat.eqb_neq; congruence);
  unfold same_class; cbn;
  break_match;
  rewrite ?Hpq; repeat split; reflexivity.

Lemma may_close_le q pcs : count (may_close q) pcs <= count (in_body q) pcs.
Proof. apply count_le. intros [| ? [] ?| | | | | | | | | | |]; cbn; congruence. Qed.

Lemma at_close_le q pcs : count (at_close q) pcs <= count (may_close q) pcs.
Proof. apply count_le. intros [| ? [] ?| | | | | | | | | | |]; cbn; congruence. Qed.

Lemma sending_le q pcs : count (sending q) pcs <= count (pending q) pcs.
Proof. apply count_le. intros []; cbn; congruence. Qed.

Ltac counts p Hpc c' :=
  match type of Hpc with
  | ?pcs !! ?t = Some ?c =>
      pose proof (count_insert (in_body p) pcs t c c' Hpc);
      pose proof (count_insert (may_close p) pcs t c c' Hpc);
      pose proof (count_insert (at_close p) pcs t c c' Hpc);
      pose proof (count_insert (pending p) pcs t c c' Hpc);
      pose proof (count_insert (sending p) pcs t c c' Hpc);
      pose proof (count_insert (at_err p) pcs t c c' Hpc);
      pose proof (count_lookup_le (in_body p) pcs t c Hpc);
      pose proof (count_lookup_le (may_close p) pcs t c Hpc);
      pose proof (count_lookup_le (at_close p) pcs t c Hpc);
      pose proof (count_lookup_le (pending p) pcs t c Hpc);
      pose proof (count_lookup_le (sending p) pcs t c Hpc);
      pose proof (count_lookup_le (at_err p) pcs t c Hpc);
      pose proof (may_close_le p pcs);
      pose proof (may_close_le p (<[t := c']> pcs));
      pose proof (at_close_le p pcs);
      pose proof (at_close_le p (<[t := c']> pcs));
      pose proof (sending_le p pcs);
      pose proof (sending_le p (<[t := c']> pcs))
  end.

Ltac simp_counts :=
  cbn [in_body may_close at_close pending sending at_err body_start] in *;
  rewrite ?Nat.eqb_refl in *; cbn [b2n] in *.

Ltac use_closed :=
  match goal with
  | G4 : true = true -> _ |- _ =>
      let G4a := fresh "G4a" in
      let G4b := fresh "G4b" in
      destruct (G4 eq_refl) as [G4a G4b]; clear G4
  | G4 : false = true -> _ |- _ => clear G4
  | G4 : closed ?ch = true -> _ |- _ =>
      let Hcl := fresh "Hcl" in
      let G4a := fresh "G4a" in
      let G4b := fresh "G4b" in
      destruct (closed ch) eqn:Hcl;
      [destruct (G4 eq_refl) as [G4a G4b]|]; clear G4
  end.

Ltac finish_good :=
  cbn [b2n is_locked is_fresh negb length Nat.add] in *;
  repeat split; intros;
  try discriminate; try congruence; try lia;
  try (match goal with G7 : _ -> ?X |- ?X => apply G7; lia end);
  try (match goal with G8 : _ -> _ = Finished |- _ =>
         exfalso; assert (Fresh = Finished \/ Locked = Finished) as [?|?]
           by (first [left; apply G8; lia | right; apply G8; lia]); discriminate end).

Ltac good_tac Hpc G pre :=
  match goal with
  | |- good ?p _ (<[_ := ?c']> _) => counts p Hpc c'
  end; simp_counts;
  unfold good, collected in G |- *;
  cbn [lock_once finish_once close_exit send_exit set_exitCh deliver reap terminate
       set_state set_cmd drained exec.with_Process exec.Process os.state
       cmd exitCh once sends closes bodies o err buf closed] in *;
  pre;
  destruct G as (G1 & G2 & G3 & G4 & G5 & G6 & G7 & G8);
  use_closed;
  try match goal with
      | H : context [is_locked (o (once ?P))] |- _ => destruct (o (once P)) eqn:?
      end;
  finish_good.

Ltac once_tac := intros ?Hf; first [reflexivity | congruence].

Ltac done_tac Hok G Hpc :=
  let v := fresh "v" in
  let q := fresh "q" in
  let Hc := fresh "Hc" in
  let Hcall := fresh "Hcall" in
  intros v q Hc Hcall;
  first
    [ discriminate Hc
    | inversion Hc; subst; revert Hok Hcall;
      match goal with |- context [origin ?th] => destruct (origin th) end;
      cbn; try discriminate;
      intros Hok Hcall; inversion Hcall; subst;
      try discriminate;
      apply Nat.eqb_eq in Hok; subst;
      (split; [reflexivity|]); (split; [|reflexivity]);
      unfold good in G;
      apply (proj2 (proj2 (proj2 (proj2 (proj2 (proj2 (proj2 G)))))));
      match type of Hpc with
      | _ = Some (PErr ?p _) =>
          let Hle := fresh "Hle" in
          pose proof (count_lookup_le (at_err p) _ _ _ Hpc) as Hle;
          cbn [at_err b2n] in Hle; rewrite Nat.eqb_refl in Hle; exact Hle
      end ].

Ltac same_proc p P HI Hth Hpc HP Hok G pre :=
  apply (Inv_same_proc _ _ _ _ _ _ p P HI Hth Hpc HP);
  [ origin_tac Hok | frame_tac p | good_tac Hpc G pre | done_tac Hok G Hpc ].

Ltac set_proc_tac p P HI Hth Hpc HP Hok G pre :=
  apply (Inv_set_proc _ _ _ _ _ _ p P _ HI Hth Hpc HP);
  [ origin_tac Hok | frame_tac p | good_tac Hpc G pre | once_tac | done_tac Hok G Hpc ].

Ltac neutral_tac HI Hth Hpc Hok :=
  apply (Inv_neutral _ _ _ _ _ _ HI Hth Hpc);
  [ origin_tac Hok
  | intros ?q; unfold same_class; cbn; repeat split; reflexivity
  | intros ?v ?q ?Hc ?Hcall; revert Hok Hcall;
    match goal with |- context [origin ?th] => destruct (origin th) end;
    cbn; discriminate ].

Ltac open_sem Hsem HI p P HP G :=
  unfold pc_sem in Hsem; cbn [pc_view body_view sem] in Hsem;
  destruct (procs _ !! p) as [P|] eqn:HP; [|discriminate];
  pose proof (proj1 (proj2 (proj2 HI)) p P HP) as G.

Lemma Inv_new w pcs t th c sk :
  Inv w pcs -> threads w !! t = Some th -> pcs !! t = Some (PNew c sk) ->
  origin_ok (origin th) (PNew c sk) = true ->
  Inv (set_code (set_procs w (procs w ++ [new_proc c])) t th
                (denote (PGo (length (procs w)) sk)))
      (<[t := PGo (length (procs w)) sk]> pcs).
Proof.
  intros HI Hth Hpc Hok.
  apply (Inv_update w _ pcs t th _ _ HI Hth Hpc).
  - reflexivity.
  - origin_tac Hok.
  - intros q Hq. cbn in Hq. rewrite length_app in Hq. cbn in Hq |- *.
    split; [apply Nat.eqb_neq|]; lia.
  - intros q Q HQ. cbn in HQ. apply lookup_app_Some in HQ.
    destruct HQ as [HQ|[Hge HQ]].
    + pose proof (lookup_lt_Some _ _ _ HQ) as Hlt.
      apply (good_frame q Q pcs t _ _ Hpc).
      * unfold same_class. cbn.
        replace (Nat.eqb (length (procs w)) q) with false
          by (symmetry; apply Nat.eqb_neq; lia).
        repeat split.
      * destruct HI as (_ & _ & Hg & _). apply Hg, HQ.
    + destruct (q - length (procs w)) as [|n] eqn:Hn; cbn in HQ; [|discriminate].
      inversion HQ; subst Q. assert (q = length (procs w)) as -> by lia.
      destruct HI as (_ & Hr & _ & _).
      destruct (unreferred _ _ (Hr (length (procs w)) (le_n _)))
        as (U1 & U2 & U3 & U4 & U5 & U6).
      counts (length (procs w)) Hpc (PGo (length (procs w)) sk).
      simp_counts. unfold good, collected. cbn.
      repeat split; intros; try lia; try discriminate.
  - intros q Q HQ _. exists Q. split; [|reflexivity]. cbn.
    apply lookup_app_l_Some, HQ.
  - intros v q Hc. discriminate.
Qed.

Lemma Inv_go w pcs t th p sk c' :
  Inv w pcs -> threads w !! t = Some th -> pcs !! t = Some (PGo p sk) ->
  origin_ok (origin th) (PGo p sk) = true ->
  c' = match sk with
       | SProc => PDone (RProc (Some p, nil_error))
       | SRun cx => PWait p cx
       end ->
  Inv (set_code (set_threads w (threads w ++ [spawn (GoWait p)])) t th (denote c'))
      (<[t := c']> (pcs ++ [PReap p])%list).
Proof.
  intros HI Hth Hpc Hok Hc'.
  assert (Hlt : p < length (procs w)).
  { apply (refers_bound w pcs t _ p HI Hpc). cbn. apply Nat.eqb_refl. }
  assert (Hpc' : (pcs ++ [PReap p])%list !! t = Some (PGo p sk)) by (apply lookup_app_l_Some, Hpc).
  assert (Hcall : guard_call (origin th) = None).
  { revert Hok. destruct (origin th); cbn; congruence. }
  destruct HI as (HF & Hr & Hg & Hd).
  split; [|split; [|split]].
  - cbn. apply Forall2_insert.
    + apply Forall2_app; [exact HF|]. constructor; [|constructor].
      split; [reflexivity|]. cbn. apply Nat.eqb_refl.
    + split; [reflexivity|]. subst c'. revert Hok. destruct (origin th), sk; cbn; congruence.
  - intros q Hq. cbn in Hq.
    pose proof (count_insert (refers q) _ t _ c' Hpc') as Hc.
    rewrite count_snoc, (Hr q Hq) in Hc. cbn in Hc.
    replace (Nat.eqb p q) with false in Hc by (symmetry; apply Nat.eqb_neq; lia).
    assert (refers q c' = false) as E.
    { subst c'. destruct sk; cbn; [reflexivity|]. apply Nat.eqb_neq. lia. }
    rewrite E in Hc. cbn in Hc. lia.
  - intros q Q HQ. cbn in HQ. specialize (Hg q Q HQ). unfold good in *.
    pose proof (count_insert (in_body q) _ t _ c' Hpc') as C1.
    pose proof (count_insert (may_close q) _ t _ c' Hpc') as C2.
    pose proof (count_insert (at_close q) _ t _ c' Hpc') as C3.
    pose proof (count_insert (pending q) _ t _ c' Hpc') as C4.
    pose proof (count_insert (sending q) _ t _ c' Hpc') as C5.
    pose proof (count_insert (at_err q) _ t _ c' Hpc') as C6.
    rewrite count_snoc in C1, C2, C3, C4, C5, C6.
    assert (in_body q c' = false /\ may_close q c' = false /\ at_close q c' = false /\
            pending q c' = false /\ sending q c' = false /\ at_err q c' = false)
      as (E1 & E2 & E3 & E4 & E5 & E6) by (subst c'; destruct sk; cbn; repeat split).
    rewrite E1 in C1. rewrite E2 in C2. rewrite E3 in C3.
    rewrite E4 in C4. rewrite E5 in C5. rewrite E6 in C6.
    cbn in C1, C2, C3, C4, C5, C6.
    assert (count (in_body q) (<[t:=c']> (pcs ++ [PReap p])%list) = count (in_body q) pcs)
      as -> by lia.
    assert (count (may_close q) (<[t:=c']> (pcs ++ [PReap p])%list) = count (may_close q) pcs)
      as -> by lia.
    assert (count (at_close q) (<[t:=c']> (pcs ++ [PReap p])%list) = count (at_close q) pcs)
      as -> by lia.
    assert (count (pending q) (<[t:=c']> (pcs ++ [PReap p])%list) = count (pending q) pcs)
      as -> by lia.
    assert (count (sending q) (<[t:=c']> (pcs ++ [PReap p])%list) = count (sending q) pcs)
      as -> by lia.
    assert (count (at_err q) (<[t:=c']> (pcs ++ [PReap p])%list) = count (at_err q) pcs)
      as -> by lia.
    exact Hg.
  - intros t' th' v q Hth' Hcode Hcall'. cbn in Hth'.
    destruct (decide (t = t')) as [<-|Hne].
    + rewrite list_lookup_insert_eq in Hth'
        by (rewrite length_app; apply lookup_lt_Some in Hth; lia).
      inversion Hth'; subst th'. cbn in Hcall'. congruence.
    + rewrite list_lookup_insert_ne in Hth' by exact Hne.
      apply lookup_app_Some in Hth'. destruct Hth' as [Hth'|[_ Hth']].
      * exact (Hd t' th' v q Hth' Hcode Hcall').
      * destruct (t' - length (threads w)) as [|n]; cbn in Hth'; [|discriminate].
        inversion Hth'; subst th'. discriminate.
Qed.

Lemma Inv_pc_step w pcs t th c or c' w1 :
  Inv w pcs -> threads w !! t = Some th -> pcs !! t = Some c ->
  origin_ok (origin th) c = true ->
  pc_sem c or w = Ok c' w1 ->
  Inv (set_code w1 t th (denote c')) (<[t := c']> (pcs ++ spawned c)%list).
Proof.
  intros HI Hth Hpc Hok Hsem.
  destruct c as [p g K|p b K|p K|p|old args| |c sk|c sk|p sk|p cx|p|p e|v];
    cbn [spawned]; rewrite ?app_nil_r.
  - (* PEnter *)
    open_sem Hsem HI p P HP G.
    destruct (o (once P)) eqn:Ho; inversion Hsem; subst c' w1; clear Hsem.
    + destruct g; set_proc_tac p P HI Hth Hpc HP Hok G ltac:(rewrite ?Ho in * ).
    + same_proc p P HI Hth Hpc HP Hok G ltac:(rewrite ?Ho in * ).
  - (* PBody *)
    destruct b.
    + (* BStop *)
      open_sem Hsem HI p P HP G.
      inversion Hsem; subst c' w1; clear Hsem.
      destruct (exec.Process (cmd P)); cbn [negb];
        same_proc p P HI Hth Hpc HP Hok G idtac.
    + (* BStopInterrupt *)
      open_sem Hsem HI p P HP G.
      destruct (exec.Process (cmd P)) as [sp|] eqn:Hh; [|discriminate].
      destruct (os.state sp) eqn:Hst; destruct (sigres or) as [e|] eqn:Hor;
        inversion Hsem; subst c' w1; clear Hsem;
        cbn [notnil isProcessDone wrapsProcessDone os.ErrProcessDone];
        try (destruct (wrapsProcessDone e));
        solve [ same_proc p P HI Hth Hpc HP Hok G ltac:(rewrite ?Hh, ?Hst in * )
              | set_proc_tac p P HI Hth Hpc HP Hok G ltac:(rewrite ?Hh, ?Hst in * ) ].
    + (* BStopEscalate *)
      open_sem Hsem HI p P HP G.
      destruct (exec.Process (cmd P)) as [sp|] eqn:Hh; [|discriminate].
      destruct (os.state sp) eqn:Hst; destruct (sigres or) as [e|] eqn:Hor;
        inversion Hsem; subst c' w1; clear Hsem;
        cbn [notnil isProcessDone wrapsProcessDone os.ErrProcessDone];
        solve [ same_proc p P HI Hth Hpc HP Hok G ltac:(rewrite ?Hh, ?Hst in * )
              | set_proc_tac p P HI Hth Hpc HP Hok G ltac:(rewrite ?Hh, ?Hst in * ) ].
    + (* BStopDrain *)
      open_sem Hsem HI p P HP G.
      unfold recv_exit, chan_recv in Hsem.
      destruct (buf (exitCh P)) as [|x rest] eqn:Hb;
        destruct (closed (exitCh P)) eqn:Hc;
        destruct (ctx_done w cx); destruct (ctx_first or);
        inversion Hsem; subst c' w1; clear Hsem;
        try solve [ same_proc p P HI Hth Hpc HP Hok G ltac:(rewrite ?Hb, ?Hc in * )
              | set_proc_tac p P HI Hth Hpc HP Hok G ltac:(rewrite ?Hb, ?Hc in * ) ].
    + (* BKill *)
      open_sem Hsem HI p P HP G.
      inversion Hsem; subst c' w1; clear Hsem.
      destruct (exec.Process (cmd P)); cbn [negb];
        same_proc p P HI Hth Hpc HP Hok G idtac.
    + (* BKillSignal *)
      open_sem Hsem HI p P HP G.
      destruct (exec.Process (cmd P)) as [sp|] eqn:Hh; [|discriminate].
      destruct (os.state sp) eqn:Hst; destruct (sigres or) as [e|] eqn:Hor;
        inversion Hsem; subst c' w1; clear Hsem;
        cbn [notnil isProcessDone wrapsProcessDone os.ErrProcessDone];
        try (destruct (wrapsProcessDone e));
        solve [ same_proc p P HI Hth Hpc HP Hok G ltac:(rewrite ?Hh, ?Hst in * )
              | set_proc_tac p P HI Hth Hpc HP Hok G ltac:(rewrite ?Hh, ?Hst in * ) ].
    + (* BKillDrain *)
      open_sem Hsem HI p P HP G.
      unfold recv_exit, chan_recv in Hsem.
      destruct (buf (exitCh P)) as [|x rest] eqn:Hb;
        destruct (closed (exitCh P)) eqn:Hc;
        inversion Hsem; subst c' w1; clear Hsem;
        solve [ same_proc p P HI Hth Hpc HP Hok G ltac:(rewrite ?Hb, ?Hc in * )
              | set_proc_tac p P HI Hth Hpc HP Hok G ltac:(rewrite ?Hb, ?Hc in * ) ].
    + (* BClose *)
      open_sem Hsem HI p P HP G.
      destruct (closed (exitCh P)) eqn:Hc; inversion Hsem; subst c' w1; clear Hsem.
      set_proc_tac p P HI Hth Hpc HP Hok G ltac:(rewrite ?Hc in * ).
    + (* BRet *)
      open_sem Hsem HI p P HP G.
      destruct (o (once P)) eqn:Ho; inversion Hsem; subst c' w1; clear Hsem.
      set_proc_tac p P HI Hth Hpc HP Hok G ltac:(rewrite ?Ho in * ).
  - (* PErr *)
    open_sem Hsem HI p P HP G.
    inversion Hsem; subst c' w1; clear Hsem.
    destruct K; [|destruct (err (once P)); cbn [notnil]];
      same_proc p P HI Hth Hpc HP Hok G idtac.
  - (* PRelaunch *)
    open_sem Hsem HI p P HP G.
    inversion Hsem; subst c' w1; clear Hsem.
    destruct (exec.Args (cmd P)); same_proc p P HI Hth Hpc HP Hok G idtac.
  - (* PLookPath *)
    unfold pc_sem in Hsem; cbn [pc_view sem] in Hsem.
    inversion Hsem; subst c' w1; clear Hsem.
    neutral_tac HI Hth Hpc Hok.
  - (* PPanicking *)
    discriminate.
  - (* PStart *)
    unfold pc_sem in Hsem; cbn [pc_view sem] in Hsem.
    destruct (exec.Process c); [|destruct (launch or)];
      inversion Hsem; subst c' w1; clear Hsem;
      try destruct sk; neutral_tac HI Hth Hpc Hok.
  - (* PNew *)
    unfold pc_sem in Hsem; cbn [pc_view sem] in Hsem.
    inversion Hsem; subst c' w1; clear Hsem.
    apply (Inv_new w pcs t th c sk HI Hth Hpc Hok).
  - (* PGo *)
    unfold pc_sem in Hsem; cbn [pc_view sem] in Hsem.
    inversion Hsem; subst c' w1; clear Hsem.
    apply (Inv_go w pcs t th p sk _ HI Hth Hpc Hok). reflexivity.
  - (* PWait *)
    open_sem Hsem HI p P HP G.
    unfold recv_exit, chan_recv in Hsem.
    destruct (buf (exitCh P)) as [|x rest] eqn:Hb;
      destruct (closed (exitCh P)) eqn:Hc;
      destruct (ctx_done w cx); destruct (ctx_first or);
      inversion Hsem; subst c' w1; clear Hsem;
      solve [ same_proc p P HI Hth Hpc HP Hok G ltac:(rewrite ?Hb, ?Hc in * )
            | set_proc_tac p P HI Hth Hpc HP Hok G ltac:(rewrite ?Hb, ?Hc in * ) ].
  - (* PReap *)
    open_sem Hsem HI p P HP G.
    destruct (exec.Process (cmd P)) as [sp|] eqn:Hh;
      [destruct (os.state sp) eqn:Hst; [|destruct (copying or)|]|];
      inversion Hsem; subst c' w1; clear Hsem;
      solve [ same_proc p P HI Hth Hpc HP Hok G ltac:(rewrite ?Hh, ?Hst in * )
            | set_proc_tac p P HI Hth Hpc HP Hok G ltac:(rewrite ?Hh, ?Hst in * ) ].
  - (* PSend *)
    open_sem Hsem HI p P HP G.
    destruct (closed (exitCh P)) eqn:Hc; [discriminate|].
    destruct (Nat.ltb (length (buf (exitCh P))) chan_cap) eqn:Hlen;
      inversion Hsem; subst c' w1; clear Hsem.
    set_proc_tac p P HI Hth Hpc HP Hok G ltac:(rewrite ?Hc, ?length_app in * ).
  - (* PDone *)
    discriminate.
Qed.

(** Every step keeps the invariant. *)
Lemma Inv_step w pcs l w' :
  Inv w pcs -> step l w = Some w' -> exists pcs', Inv w' pcs'.
Proof.
  intros HI Hstep. unfold step in Hstep.
  destruct (crashed w) eqn:Hcr; [discriminate|].
  destruct l as [t or|p werr|id|c].
  - destruct (threads w !! t) as [th|] eqn:Hth; [|discriminate].
    destruct (Forall2_lookup_l _ _ _ _ _ (proj1 HI) Hth) as (c & Hpc & Hcode & Hok).
    assert (Hs := step_sched w t or th c Hcr Hth Hcode).
    unfold step in Hs. rewrite Hcr, Hth in Hs. rewrite Hs in Hstep. clear Hs.
    destruct (pc_sem c or w) as [c' w1| |r] eqn:Hsem; inversion Hstep; subst w'.
    + eexists. exact (Inv_pc_step w pcs t th c or c' w1 HI Hth Hpc Hok Hsem).
    + exists pcs. apply Inv_crashed, HI.
  - destruct (procs w !! p) as [P|] eqn:HP; [|discriminate].
    destruct (exec.Process (cmd P)) as [sp|] eqn:Hh; [|discriminate].
    destruct (os.state sp) eqn:Hst; inversion Hstep; subst w'.
    exists pcs. exact (Inv_exit w pcs p P sp werr HI HP Hh Hst).
  - inversion Hstep; subst w'. exists pcs. apply Inv_cancelled, HI.
  - destruct (callable w c) eqn:Hc; inversion Hstep; subst w'.
    eexists. exact (Inv_call w pcs c HI Hc).
Qed.

Lemma Inv_steps ls : forall w pcs w',
  Inv w pcs -> steps ls w = Some w' -> exists pcs', Inv w' pcs'.
Proof.
  induction ls as [|l ls IH]; intros w pcs w' HI Hs; cbn in Hs.
  - inversion Hs; subst. exists pcs. exact HI.
  - destruct (step l w) as [w1|] eqn:Hstep; [|discriminate].
    destruct (Inv_step w pcs l w1 HI Hstep) as (pcs1 & HI1).
    exact (IH w1 pcs1 w' HI1 Hs).
Qed.

Lemma reachable_Inv w : reachable w -> exists pcs, Inv w pcs.
Proof. intros (ls & Hs). exact (Inv_steps ls empty_world [] w Inv_empty Hs). Qed.

(** ** What no event changes *)

Lemma frame_set_proc w p P P' :
  procs w !! p = Some P ->
  descriptor (cmd P') = descriptor (cmd P) ->
  (o (once P) = Finished -> once P' = once P) ->
  sends P <= sends P' ->
  forall q Q, procs w !! q = Some Q ->
    exists Q', procs (set_proc w p P') !! q = Some Q' /\
               descriptor (cmd Q') = descriptor (cmd Q) /\
               (o (once Q) = Finished -> once Q' = once Q) /\
               sends Q <= sends Q'.
Proof.
  intros HP Hd Ho Hs q Q HQ. destruct (decide (q = p)) as [->|Hne].
  - rewrite HP in HQ. inversion HQ; subst Q. exists P'.
    split; [eapply lookup_set_proc, HP|]. auto.
  - exists Q. rewrite lookup_set_proc_ne by congruence. auto.
Qed.

Lemma sem_frame {X : Type} (e : event X) or w x w' :
  sem e or w = Ok x w' ->
  crashed w' = crashed w /\ cancelled w' = cancelled w /\
  forall q Q, procs w !! q = Some Q ->
    exists Q', procs w' !! q = Some Q' /\
               descriptor (cmd Q') = descriptor (cmd Q) /\
               (o (once Q) = Finished -> once Q' = once Q) /\
               sends Q <= sends Q'.
Proof.
  assert (Hsame : forall w0 : world, forall q Q, procs w0 !! q = Some Q ->
            exists Q', procs w0 !! q = Some Q' /\
                       descriptor (cmd Q') = descriptor (cmd Q) /\
                       (o (once Q) = Finished -> once Q' = once Q) /\
                       sends Q <= sends Q')
    by (intros w0 q Q HQ; exists Q; auto).
  destruct e; cbn [sem]; intros H;
    try (destruct (procs w !! p) as [P|] eqn:HP; [|discriminate]).
  - inversion H; subst. auto.
  - destruct (exec.Process (cmd P)) as [sp|]; [|discriminate].
    destruct (os.state sp), (sigres or); inversion H; subst; auto;
      (split; [reflexivity|split; [reflexivity|]]);
      apply (frame_set_proc w p P _ HP); first [reflexivity|cbn; lia].
  - unfold recv_exit, chan_recv in H.
    destruct (buf (exitCh P)), (closed (exitCh P)); inversion H; subst;
      (split; [reflexivity|split; [reflexivity|]]);
      apply (frame_set_proc w p P _ HP); first [reflexivity|cbn; lia].
  - unfold recv_exit, chan_recv in H.
    destruct (buf (exitCh P)), (closed (exitCh P)), (ctx_done w c), (ctx_first or);
      inversion H; subst; auto;
      (split; [reflexivity|split; [reflexivity|]]);
      apply (frame_set_proc w p P _ HP); first [reflexivity|cbn; lia].
  - destruct (closed (exitCh P)); inversion H; subst.
    split; [reflexivity|split; [reflexivity|]].
    apply (frame_set_proc w p P _ HP); first [reflexivity|cbn; lia].
  - destruct (closed (exitCh P)); [discriminate|].
    destruct (Nat.ltb (length (buf (exitCh P))) chan_cap); inversion H; subst.
    split; [reflexivity|split; [reflexivity|]].
    apply (frame_set_proc w p P _ HP); first [reflexivity|cbn; lia].
  - destruct (exec.Process (cmd P)) as [sp|]; [|inversion H; subst; auto].
    destruct (os.state sp); [|destruct (copying or)|]; inversion H; subst; auto.
    split; [reflexivity|split; [reflexivity|]].
    apply (frame_set_proc w p P _ HP); first [reflexivity|cbn; lia].
  - destruct (o (once P)) eqn:Ho; inversion H; subst; auto.
    split; [reflexivity|split; [reflexivity|]].
    apply (frame_set_proc w p P _ HP); [reflexivity|congruence|reflexivity].
  - destruct (o (once P)) eqn:Ho; inversion H; subst.
    split; [reflexivity|split; [reflexivity|]].
    apply (frame_set_proc w p P _ HP); [reflexivity|congruence|reflexivity].
  - inversion H; subst. auto.
  - inversion H; subst. auto.
  - inversion H; subst. auto.
  - destruct (exec.Process c); [|destruct (launch or)]; inversion H; subst; auto.
  - inversion H; subst. split; [reflexivity|split; [reflexivity|]].
    intros q Q HQ. exists Q. split; [|auto]. cbn. apply lookup_app_l_Some, HQ.
  - inversion H; subst. auto.
  - discriminate.
Qed.

(** ** No panic on the exit channel *)

Lemma no_channel_panic w pcs t c or r :
  Inv w pcs -> pcs !! t = Some c -> pc_sem c or w = Panics r ->
  r <> CloseOfClosedChannel /\ r <> SendOnClosedChannel.
Proof.
  intros HI Hpc Hsem.
  destruct c as [p g K|p b K|p K|p|old args| |c sk|c sk|p sk|p cx|p|p e|v];
    try destruct b; unfold pc_sem in Hsem; cbn [pc_view body_view sem] in Hsem;
    try (destruct (procs w !! p) as [P|] eqn:HP;
         [pose proof (proj1 (proj2 (proj2 HI)) p P HP) as G
         |inversion Hsem; subst; split; discriminate]);
    try discriminate.
  all: try (destruct (o (once P)); inversion Hsem; subst; split; discriminate).
  all: try (destruct (exec.Process (cmd P)) as [sp|];
            [destruct (os.state sp), (sigres or)|];
            inversion Hsem; subst; split; discriminate).
  all: try (unfold recv_exit, chan_recv in Hsem;
            destruct (buf (exitCh P)), (closed (exitCh P)),
                     (ctx_done w cx), (ctx_first or); discriminate).
  all: try (unfold recv_exit, chan_recv in Hsem;
            destruct (buf (exitCh P)), (closed (exitCh P)); discriminate).
  - (* close *)
    destruct (closed (exitCh P)) eqn:Hc; [|discriminate]. exfalso.
    destruct G as (_ & _ & _ & G4 & _). destruct (G4 Hc) as [_ G4b].
    pose proof (count_lookup_le (may_close p) pcs t _ Hpc) as Hle.
    cbn in Hle. rewrite Nat.eqb_refl in Hle. cbn in Hle. lia.
  - inversion Hsem; subst; split; discriminate.
  - destruct (exec.Process c); [|destruct (launch or)]; discriminate.
  - (* collect *)
    destruct (exec.Process (cmd P)) as [sp|];
      [destruct (os.state sp); [|destruct (copying or)|]|]; discriminate.
  - (* send *)
    destruct (closed (exitCh P)) eqn:Hc.
    + exfalso. destruct G as (_ & _ & _ & _ & G5 & G6 & _).
      pose proof (count_lookup_le (pending p) pcs t _ Hpc) as Hle.
      cbn in Hle. rewrite Nat.eqb_refl in Hle. rewrite Hc in G6. cbn in Hle, G6. lia.
    + destruct (Nat.ltb (length (buf (exitCh P))) chan_cap); discriminate.
Qed.

Lemma step_crashed w l w' r :
  step l w = Some w' -> crashed w' = Some r ->
  exists t or th, l = Sched t or /\ threads w !! t = Some th /\
                    crashed w = None /\
                    forall c, code th = denote c -> pc_sem c or w = Panics r.
Proof.
  intros Hstep Hr. unfold step in Hstep.
  destruct (crashed w) eqn:Hcr; [discriminate|].
  destruct l as [t or|p werr|id|c].
  - destruct (threads w !! t) as [th|] eqn:Hth; [|discriminate].
    exists t, or, th. split; [reflexivity|]. split; [exact Hth|].
    split; [first [reflexivity|exact Hcr]|]. intros c Hcode.
    assert (Hs := step_sched w t or th c Hcr Hth Hcode).
    unfold step in Hs. rewrite Hcr, Hth in Hs. rewrite Hs in Hstep.
    unfold pc_sem in *. destruct (pc_view c) as [v|X e next]; [discriminate|].
    destruct (sem e or w) as [x w1| |r'] eqn:Hsem; inversion Hstep; subst w'.
    + destruct (sem_frame e or w x w1 Hsem) as (Hc1 & _). cbn in Hr. congruence.
    + cbn in Hr. congruence.
  - exfalso. destruct (procs w !! p) as [P|]; [|discriminate].
    destruct (exec.Process (cmd P)) as [sp|]; [|discriminate].
    destruct (os.state sp); inversion Hstep; subst w'. cbn in Hr. congruence.
  - exfalso. inversion Hstep; subst w'. cbn in Hr. congruence.
  - exfalso. destruct (callable w c); inversion Hstep; subst w'. cbn in Hr. congruence.
Qed.

Lemma steps_safe ls : forall w pcs w',
  Inv w pcs -> safe w -> steps ls w = Some w' -> safe w'.
Proof.
  induction ls as [|l ls IH]; intros w pcs w' HI Hsafe Hs; cbn in Hs.
  - inversion Hs; subst. exact Hsafe.
  - destruct (step l w) as [w1|] eqn:Hstep; [|discriminate].
    destruct (Inv_step w pcs l w1 HI Hstep) as (pcs1 & HI1).
    apply (IH w1 pcs1 w' HI1); [|exact Hs].
    unfold safe. destruct (crashed w1) as [r|] eqn:Hr; [|split; discriminate].
    destruct (step_crashed w l w1 r Hstep Hr) as (t & or & th & -> & Hth & _ & Hp).
    destruct (Forall2_lookup_l _ _ _ _ _ (proj1 HI) Hth) as (c & Hpc & Hcode & _).
    destruct (no_channel_panic w pcs t c or r HI Hpc (Hp c Hcode)) as [H1 H2].
    split; congruence.
Qed.

Lemma reachable_safe w : reachable w -> safe w.
Proof.
  intros (ls & Hs). apply (steps_safe ls empty_world [] w Inv_empty); [|exact Hs].
  split; discriminate.
Qed.

Lemma step_frame l w w' :
  step l w = Some w' ->
  forall q Q, procs w !! q = Some Q ->
    exists Q', procs w' !! q = Some Q' /\
               descriptor (cmd Q') = descriptor (cmd Q) /\
               (o (once Q) = Finished -> once Q' = once Q) /\
               sends Q <= sends Q'.
Proof.
  intros Hstep q Q HQ. unfold step in Hstep.
  destruct (crashed w); [discriminate|].
  destruct l as [t or|p werr|id|c].
  - destruct (threads w !! t) as [th|]; [|discriminate].
    destruct (code th) as [v|X e k]; [discriminate|].
    destruct (sem e or w) as [x w1| |r] eqn:Hsem; inversion Hstep; subst w'.
    + destruct (sem_frame e or w x w1 Hsem) as (_ & _ & Hf). exact (Hf q Q HQ).
    + exists Q. auto.
  - destruct (procs w !! p) as [P|] eqn:HP; [|discriminate].
    destruct (exec.Process (cmd P)) as [sp|]; [|discriminate].
    destruct (os.state sp); inversion Hstep; subst w'.
    apply (frame_set_proc w p P _ HP); [reflexivity|reflexivity|reflexivity|exact HQ].
  - inversion Hstep; subst w'. exists Q. auto.
  - destruct (callable w c); inversion Hstep; subst w'. exists Q. auto.
Qed.

Lemma steps_frame ls : forall w w',
  steps ls w = Some w' ->
  forall q Q, procs w !! q = Some Q ->
    exists Q', procs w' !! q = Some Q' /\
               descriptor (cmd Q') = descriptor (cmd Q) /\
               (o (once Q) = Finished -> once Q' = once Q) /\
               sends Q <= sends Q'.
Proof.
  induction ls as [|l ls IH]; intros w w' Hs q Q HQ; cbn in Hs.
  - inversion Hs; subst. exists Q. auto.
  - destruct (step l w) as [w1|] eqn:Hstep; [|discriminate].
    destruct (step_frame l w w1 Hstep q Q HQ) as (Q1 & HQ1 & Hd1 & Ho1 & Hs1).
    destruct (IH w1 w' Hs q Q1 HQ1) as (Q' & HQ' & Hd' & Ho' & Hs').
    exists Q'. split; [exact HQ'|]. split; [congruence|]. split; [|lia].
    intros Ho. rewrite <- (Ho1 Ho). apply Ho'. rewrite (Ho1 Ho). exact Ho.
Qed.

Lemma reachable_steps ls w w' :
  reachable w -> steps ls w = Some w' -> reachable w'.
Proof.
  intros (ls0 & H0) Hs. exists (ls0 ++ ls)%list.
  revert H0. generalize empty_world. induction ls0 as [|l ls0 IH]; intros w0 H0; cbn in *.
  - inversion H0; subst. exact Hs.
  - destruct (step l w0); [apply IH, H0|discriminate].
Qed.

Lemma reachable_after ls w : steps ls empty_world = Some w -> reachable (after ls).
Proof. intros H. exists ls. unfold after. rewrite H. reflexivity. Qed.

Lemma reachable_good w p P :
  reachable w -> procs w !! p = Some P -> exists pcs, Inv w pcs /\ good p P pcs.
Proof.
  intros Hr HP. destruct (reachable_Inv w Hr) as (pcs & HI).
  exists pcs. split; [exact HI|]. exact (proj1 (proj2 (proj2 HI)) p P HP).
Qed.

(** * The claims *)

(** C9.  In every world that calls of [Start], [Run], [Wait], [Stop],
    [Kill] and [Restart] can reach, in any interleaving, the program has not
    panicked on a close of the closed exit channel nor on a send on the
    closed exit channel; every controller's exit channel was sent on at most
    once and closed at most once, the function under its guard was run at
    most once, and the channel is closed only after the one value was sent. *)
Theorem exit_channel_written_and_closed_once (w : world) (Hw : reachable w) :
  safe w /\
  forall p P, procs w !! p = Some P ->
    sends P <= 1 /\ closes P <= 1 /\ bodies P <= 1 /\
    (closed (exitCh P) = true -> sends P = 1 /\ closes P = 1).
Proof.
  split; [exact (reachable_safe w Hw)|].
  intros p P HP. destruct (reachable_good w p P Hw HP) as (pcs & _ & G).
  destruct G as (G1 & G2 & G3 & G4 & G5 & G6 & G7 & G8).
  rewrite G2, G3.
  destruct (closed (exitCh P)), (is_fresh (o (once P))); cbn in *;
    repeat split; intros; try lia; discriminate.
Qed.

Lemma exit_channel_written_and_closed_once_witness :
  safe (after session) /\
  forall p P, procs (after session) !! p = Some P ->
    sends P <= 1 /\ closes P <= 1 /\ bodies P <= 1 /\
    (closed (exitCh P) = true -> sends P = 1 /\ closes P = 1).
Proof.
  apply (exit_channel_written_and_closed_once (after session)).
  exists session. vm_compute. reflexivity.
Defined.

Lemma session_reachable : reachable (after session).
Proof. exists session. vm_compute. reflexivity. Qed.

Lemma session_proc_lookup : procs (after session) !! 0 = Some session_proc.
Proof. vm_compute. reflexivity. Qed.

(** C4.  In every reachable world and for every controller, the function
    under the guard ([stop] or [kill]) was started at most once; a goroutine
    that a client started as [Stop] or [Kill] and that has returned, returned
    the error recorded in the guard; once the guard is done, every further
    [Stop] and [Kill] returns the recorded error without running anything,
    and no step changes the record; while the function runs, another caller
    of the guard waits. *)
Theorem guard_runs_once (w : world) (Hw : reachable w) :
  forall p P, procs w !! p = Some P ->
    bodies P <= 1 /\
    (forall t th v,
        threads w !! t = Some th -> guard_call (origin th) = Some p ->
        code th = Ret v ->
        o (once P) = Finished /\ bodies P = 1 /\ v = RErr (err (once P))) /\
    (o (once P) = Locked ->
     forall fn or ors, exists m, run (or :: ors) (onceError_Do p fn) w = Waits m w) /\
    (o (once P) = Finished ->
     (forall cx or or' ors,
         run (or :: or' :: ors) (Stop p cx) w = Returns (err (once P)) w ors) /\
     (forall or or' ors,
         run (or :: or' :: ors) (Kill p) w = Returns (err (once P)) w ors) /\
     (forall ls w', steps ls w = Some w' ->
                    exists P', procs w' !! p = Some P' /\ once P' = once P /\
                               bodies P' = 1)).
Proof.
  intros p P HP. destruct (reachable_good w p P Hw HP) as (pcs & HI & G).
  pose proof G as (G1 & G2 & _).
  split; [|split; [|split]].
  - rewrite G2. destruct (is_fresh (o (once P))); cbn; lia.
  - intros t th v Hth Hcall Hcode.
    destruct (proj2 (proj2 (proj2 HI)) t th v p Hth Hcode Hcall) as (P' & HP' & Ho & Hv).
    rewrite HP in HP'. inversion HP'; subst P'.
    split; [exact Ho|]. split; [|exact Hv]. rewrite G2, Ho. reflexivity.
  - intros Ho fn or ors. exact (Do_locked w p P HP fn or ors Ho).
  - intros Ho. split; [|split].
    + intros cx or or' ors. exact (Do_finished w p P HP _ or or' ors Ho).
    + intros or or' ors. exact (Do_finished w p P HP _ or or' ors Ho).
    + intros ls w' Hs.
      destruct (steps_frame ls w w' Hs p P HP) as (P' & HP' & _ & Hsame & _).
      exists P'. split; [exact HP'|]. split; [exact (Hsame Ho)|].
      destruct (reachable_good w' p P' (reachable_steps ls w w' Hw Hs) HP')
        as (pcs' & _ & _ & G2' & _).
      rewrite G2', (Hsame Ho), Ho. reflexivity.
Qed.

Lemma guard_runs_once_witness :
  bodies session_proc <= 1 /\
  returned (after session) 3 = Some (RErr (err (once session_proc))).
Proof.
  split.
  - exact (proj1 (guard_runs_once (after session) session_reachable
                    0 session_proc session_proc_lookup)).
  - vm_compute. reflexivity.
Defined.

(** ** [Stop] and [Kill] when the process is gone *)

Lemma sem_signal_nil w p P or sp sig w2 :
  procs w !! p = Some P -> exec.Process (cmd P) = Some sp ->
  sem (ESignal p sig) or w = Ok nil_error w2 ->
  w2 = set_proc w p (deliver P sp sig) /\ os.state sp <> os.Reaped.
Proof.
  intros HP Hh Hs.
  destruct (sem_signal_cases w p P or HP sp sig Hh) as [(e & He)|(Hst & He)];
    rewrite He in Hs; inversion Hs; subst. auto.
Qed.

Lemma sem_signal_gone w p P or sp sig :
  procs w !! p = Some P -> exec.Process (cmd P) = Some sp -> gone P or ->
  exists e, sem (ESignal p sig) or w = Ok e w /\ isProcessDone e = true.
Proof.
  intros HP Hh Hg. unfold gone in Hg. rewrite Hh in Hg.
  assert (Hst : os.state sp = os.Reaped \/ os.state sp <> os.Reaped)
    by (destruct (os.state sp); [right|right|left]; congruence).
  destruct Hst as [Hst|Hst].
  - exists (Some os.ErrProcessDone). split; [|reflexivity].
    exact (sem_signal_reaped w p P or HP sp sig Hh Hst).
  - destruct Hg as [Hg|(e & He & Hd)]; [contradiction|].
    exists (Some e). split; [|exact Hd].
    exact (sem_signal_fails w p P or HP sp sig e Hh Hst He).
Qed.

(** Both guarded functions return nil and touch nothing when the process
    is gone; they take one event without a handle and two with one. *)
Lemma stop_gone w p P cx or0 or1 ors :
  procs w !! p = Some P -> gone P or1 ->
  run (or0 :: or1 :: ors) (stop p cx) w =
  Returns nil_error w (match exec.Process (cmd P) with None => or1 :: ors | Some _ => ors end).
Proof.
  intros HP Hg. destruct (exec.Process (cmd P)) as [sp|] eqn:Hh.
  - rewrite (stop_to_interrupt w p P cx HP sp or0 _ Hh).
    destruct (sem_signal_gone w p P or1 sp os.Interrupt HP Hh Hg) as (e & He & Hd).
    exact (stop_interrupt_gone w p P cx HP or1 ors e w He Hd).
  - exact (stop_no_handle w p P cx HP or0 _ Hh).
Qed.

Lemma kill_gone w p P or0 or1 ors :
  procs w !! p = Some P -> gone P or1 ->
  run (or0 :: or1 :: ors) (kill p) w =
  Returns nil_error w (match exec.Process (cmd P) with None => or1 :: ors | Some _ => ors end).
Proof.
  intros HP Hg. destruct (exec.Process (cmd P)) as [sp|] eqn:Hh.
  - rewrite (kill_to_signal w p P HP sp or0 _ Hh).
    destruct (sem_signal_gone w p P or1 sp os.Kill HP Hh Hg) as (e & He & Hd).
    exact (kill_signal_gone w p P HP or1 ors e w He Hd).
  - exact (kill_no_handle w p P HP or0 _ Hh).
Qed.

Lemma Do_gone w p P fn or0 or1 or2 or3 or4 ors :
  procs w !! p = Some P -> o (once P) = Fresh ->
  (forall w1 P1 ors1, procs w1 !! p = Some P1 -> cmd P1 = cmd P ->
     run (or1 :: or2 :: ors1) fn w1 =
     Returns nil_error w1
             (match exec.Process (cmd P) with None => or2 :: ors1 | Some _ => ors1 end)) ->
  yields (or0 :: or1 :: or2 :: or3 :: or4 :: ors) (onceError_Do p fn) w
         nil_error (set_proc w p (finish_once (lock_once P) nil_error)).
Proof.
  intros HP Ho Hfn.
  pose proof (lookup_set_proc w p P (lock_once P) HP) as HPl.
  specialize (Hfn (set_proc w p (lock_once P)) (lock_once P) (or3 :: or4 :: ors) HPl eq_refl).
  unfold yields. destruct (exec.Process (cmd P)) as [sp|].
  - exists ors.
    rewrite (Do_fresh w p P HP fn or0 _ nil_error _ (lock_once P) or3 or4 ors Ho Hfn HPl eq_refl).
    rewrite set_proc_twice. reflexivity.
  - exists (or4 :: ors).
    rewrite (Do_fresh w p P HP fn or0 _ nil_error _ (lock_once P) or2 or3 (or4 :: ors)
               Ho Hfn HPl eq_refl).
    rewrite set_proc_twice. reflexivity.
Qed.

Lemma Stop_gone w p P cx or0 or1 or2 or3 or4 ors :
  procs w !! p = Some P -> o (once P) = Fresh -> gone P or2 ->
  yields (or0 :: or1 :: or2 :: or3 :: or4 :: ors) (Stop p cx) w
         nil_error (set_proc w p (finish_once (lock_once P) nil_error)).
Proof.
  intros HP Ho Hg. apply (Do_gone w p P); try assumption.
  intros w1 P1 ors1 HP1 Hc. rewrite <- Hc. apply stop_gone; [exact HP1|].
  unfold gone in *. rewrite Hc. exact Hg.
Qed.

Lemma Kill_gone w p P or0 or1 or2 or3 or4 ors :
  procs w !! p = Some P -> o (once P) = Fresh -> gone P or2 ->
  yields (or0 :: or1 :: or2 :: or3 :: or4 :: ors) (Kill p) w
         nil_error (set_proc w p (finish_once (lock_once P) nil_error)).
Proof.
  intros HP Ho Hg. apply (Do_gone w p P); try assumption.
  intros w1 P1 ors1 HP1 Hc. rewrite <- Hc. apply kill_gone; [exact HP1|].
  unfold gone in *. rewrite Hc. exact Hg.
Qed.

(** In a reachable world, a value in the exit channel means that the
    status of the process was collected. *)
Lemma deposited_collected w p P :
  reachable w -> procs w !! p = Some P -> buf (exitCh P) <> [] -> collected P.
Proof.
  intros Hw HP Hb. destruct (reachable_good w p P Hw HP) as (pcs & _ & G).
  destruct G as (_ & _ & _ & _ & _ & G6 & G7 & _). apply G7. left.
  destruct (buf (exitCh P)); [congruence|]. cbn in G6. lia.
Qed.

Lemma collected_gone P or : collected P -> gone P or.
Proof.
  unfold collected, gone. destruct (exec.Process (cmd P)); [|auto]. intros H. left. exact H.
Qed.

(** C1, as the claim states it, fails in its last sentence.  In the first
    session a [Stop] could send neither signal and returned the error of
    the kill send, which the guard recorded; the process then terminated on
    its own, its status was sent, and a [Wait] took it and returned nil.
    The [Stop] that follows returns the recorded error, not nil.  In the
    second session a [Stop] has delivered the interrupt and waits in its
    [select] when a [Wait] takes the status; the [Stop] that follows cannot
    enter the guard.  So a [Stop] after a [Wait] that observed the exit
    does not return nil for every controller. *)
Lemma stop_after_wait_returns_recorded_error :
  reachable (after session_refused_stop) /\
  returned (after session_refused_stop) 3 = Some (RErr nil_error) /\
  returned (after session_refused_stop) 4 = Some (RErr (Some eperm)) /\
  (reachable (after session_pending_stop) /\
   returned (after session_pending_stop) 3 = Some (RErr (Some (exit_status 7))) /\
   returned (after session_pending_stop) 4 = None /\
   forall or, step (Sched 4 or) (after session_pending_stop) = None) /\
  ~ (forall w p P cx cx0 or e w',
        reachable w -> procs w !! p = Some P ->
        sem (ESelect p cx0) or w = Ok (FromExit e) w' ->
        forall or0 or1 or2 or3 or4 ors,
        exists w'', yields (or0 :: or1 :: or2 :: or3 :: or4 :: ors) (Stop p cx) w'
                           nil_error w'').
Proof.
  split; [exists session_refused_stop; vm_compute; reflexivity|].
  split; [vm_compute; reflexivity|]. split; [vm_compute; reflexivity|].
  split.
  - split; [exists session_pending_stop; vm_compute; reflexivity|].
    split; [vm_compute; reflexivity|]. split; [vm_compute; reflexivity|].
    intros or. vm_compute. reflexivity.
  - intros H.
    assert (Hr : reachable (after (session_refused ++ session_exit)))
      by (exists (session_refused ++ session_exit)%list; vm_compute; reflexivity).
    destruct (H (after (session_refused ++ session_exit)) 0
                (mkProc (exec.with_Process sh_exit0 (Some (os.mkProcess os.Reaped [])))
                        (mkChan [nil_error] false) (mkOnce Finished (Some eperm)) 1 0 1)
                Background Background quiet nil_error
                (set_proc (after (session_refused ++ session_exit)) 0
                   (mkProc (exec.with_Process sh_exit0 (Some (os.mkProcess os.Reaped [])))
                           (mkChan [] false) (mkOnce Finished (Some eperm)) 1 0 1))
                Hr ltac:(vm_compute; reflexivity) ltac:(vm_compute; reflexivity)
                quiet quiet quiet quiet quiet [])
      as (w'' & rest & Hrun).
    vm_compute in Hrun. discriminate Hrun.
Qed.

(** C1, amended.  [stop] returns nil at once when the command has no process handle
    and when the interrupt signal fails with an error that wraps
    [os.ErrProcessDone]; when the interrupt fails with another error it
    sends the kill signal next, returns the error of that send if it fails
    too, and goes on to the race otherwise, expecting the kill error.  In a
    reachable world whose guard is fresh, a [Stop] that follows a [Wait]
    which received the process's exit value returns nil. *)
Theorem stop_signal_phase (w : world) (p : pid) (P : Process) (cx : ctx)
        (HP : procs w !! p = Some P) :
  (exec.Process (cmd P) = None ->
   forall or ors, run (or :: ors) (stop p cx) w = Returns nil_error w ors) /\
  (forall sp or0 or1 ors e w1,
      exec.Process (cmd P) = Some sp ->
      sem (ESignal p os.Interrupt) or1 w = Ok e w1 -> isProcessDone e = true ->
      run (or0 :: or1 :: ors) (stop p cx) w = Returns nil_error w ors) /\
  (forall sp or0 or1 or2 ors e e' w1 w2,
      exec.Process (cmd P) = Some sp ->
      sem (ESignal p os.Interrupt) or1 w = Ok e w1 ->
      notnil e = true -> isProcessDone e = false ->
      sem (ESignal p os.Kill) or2 w = Ok e' w2 ->
      run (or0 :: or1 :: ors) (stop p cx) w = run ors (stop_escalate p cx) w /\
      (notnil e' = true ->
       run (or0 :: or1 :: or2 :: ors) (stop p cx) w = Returns e' w ors) /\
      (e' = nil_error ->
       w2 = set_proc w p (deliver P sp os.Kill) /\
       run (or0 :: or1 :: or2 :: ors) (stop p cx) w =
       run ors (stop_drain p cx isKilled) w2)) /\
  (reachable w -> o (once P) = Fresh ->
   forall cx0 or e w',
     sem (ESelect p cx0) or w = Ok (FromExit e) w' ->
     (forall ors0, run (or :: ors0) (Wait p cx0) w = Returns e w' ors0) /\
     forall or0 or1 or2 or3 or4 ors,
     exists w'', yields (or0 :: or1 :: or2 :: or3 :: or4 :: ors) (Stop p cx) w'
                        nil_error w'').
Proof.
  split; [|split; [|split]].
  - intros Hh or ors. exact (stop_no_handle w p P cx HP or ors Hh).
  - intros sp or0 or1 ors e w1 Hh Hs Hd.
    rewrite (stop_to_interrupt w p P cx HP sp or0 _ Hh).
    exact (stop_interrupt_gone w p P cx HP or1 ors e w1 Hs Hd).
  - intros sp or0 or1 or2 ors e e' w1 w2 Hh Hs Hn Hd Hk.
    assert (Hesc : forall ors', run (or0 :: or1 :: ors') (stop p cx) w =
                                run ors' (stop_escalate p cx) w).
    { intros ors'. rewrite (stop_to_interrupt w p P cx HP sp or0 _ Hh).
      exact (stop_interrupt_escalates w p P cx HP or1 ors' e w1 Hs Hn Hd). }
    split; [apply Hesc|]. split.
    + intros Hn'. rewrite Hesc.
      exact (stop_escalate_fails w p P cx HP or2 ors e' w2 Hk Hn').
    + intros ->. split.
      * exact (proj1 (sem_signal_nil w p P or2 sp os.Kill w2 HP Hh Hk)).
      * rewrite Hesc. exact (stop_escalate_delivered w p P cx HP or2 ors w2 Hk).
  - intros Hw Ho cx0 or e w' Hsel.
    destruct (reachable_good w p P Hw HP) as (pcs & _ & G).
    assert (Hc : closed (exitCh P) = false).
    { destruct G as (_ & _ & _ & G4 & _). destruct (closed (exitCh P)); [|reflexivity].
      destruct (G4 eq_refl) as [Hne _]. congruence. }
    cbn [sem] in Hsel. rewrite HP in Hsel. unfold recv_exit, chan_recv in Hsel.
    destruct (buf (exitCh P)) as [|x rest] eqn:Hb.
    { rewrite Hc in Hsel. destruct (ctx_done w cx0); discriminate. }
    assert (Hw' : w' = set_proc w p (drained P rest) /\ e = x).
    { unfold drained. destruct (ctx_done w cx0); [destruct (ctx_first or)|];
        inversion Hsel; subst; auto. }
    destruct Hw' as [-> ->]. split.
    + intros ors0. unfold Wait. cbn [bind trigger]. rewrite run_vis.
      cbn [sem]. rewrite HP. unfold recv_exit, chan_recv. rewrite Hb.
      unfold drained in Hsel |- *.
      destruct (ctx_done w cx0); [destruct (ctx_first or)|];
        try discriminate; apply run_ret.
    + intros or0 or1 or2 or3 or4 ors. eexists.
      apply (Stop_gone _ p (drained P rest)).
      * eapply lookup_set_proc, HP.
      * exact Ho.
      * apply collected_gone. apply (deposited_collected w p P Hw HP). congruence.
Qed.

Lemma stop_signal_phase_witness :
  run [quiet] (stop 0 Background) (one_proc unstarted)
  = Returns nil_error (one_proc unstarted) [] /\
  run [quiet; failing eperm; failing eperm] (stop 0 Background) (one_proc (started os.Running))
  = Returns (Some eperm) (one_proc (started os.Running)) [] /\
  exists w' w'',
    run [quiet] (Wait 0 Background) (after session_deposit) = Returns nil_error w' [] /\
    yields [quiet; quiet; quiet; quiet; quiet] (Stop 0 Background) w' nil_error w''.
Proof.
  split; [|split].
  - apply (proj1 (stop_signal_phase (one_proc unstarted) 0 unstarted Background eq_refl)).
    reflexivity.
  - destruct (stop_signal_phase (one_proc (started os.Running)) 0 (started os.Running)
                Background eq_refl) as (_ & _ & H & _).
    destruct (H launched quiet (failing eperm) (failing eperm) [] (Some eperm) (Some eperm)
                _ _ eq_refl eq_refl eq_refl eq_refl eq_refl) as (_ & H' & _).
    exact (H' eq_refl).
  - destruct (stop_signal_phase (after session_deposit) 0 deposit_proc Background eq_refl)
      as (_ & _ & _ & H).
    assert (Hw : reachable (after session_deposit))
      by (exists session_deposit; vm_compute; reflexivity).
    destruct (H Hw eq_refl Background quiet nil_error
                (set_proc (after session_deposit) 0 (drained deposit_proc [])) eq_refl)
      as (H1 & H2).
    destruct (H2 quiet quiet quiet quiet quiet []) as (w'' & Hy).
    exists (set_proc (after session_deposit) 0 (drained deposit_proc [])), w''.
    split; [apply H1|exact Hy].
Defined.

(** C2.  After [stop] has delivered the interrupt signal, the code that
    remains is the race that expects the interrupt error; after the
    interrupt failed with another error than [os.ErrProcessDone] and the
    kill signal was delivered, it is the race that expects the kill error.
    When the race takes a value [e] from the exit channel, [stop] closes the
    channel and returns nil if [e] is nil or the expected error, and [e]
    itself otherwise.  The interrupt error is the error whose text is
    [signal: interrupt], the kill error the one whose text is
    [signal: killed]. *)
Theorem stop_race_won_by_exit (w : world) (p : pid) (P : Process) (cx : ctx)
        (HP : procs w !! p = Some P) :
  (forall sp or0 or1,
      exec.Process (cmd P) = Some sp -> os.state sp <> os.Reaped ->
      sigres or1 = None ->
      run [or0; or1] (stop p cx) w =
      Unscheduled (stop_drain p cx isInterrupt)
                  (set_proc w p (deliver P sp os.Interrupt))) /\
  (forall sp or0 or1 or2 e1,
      exec.Process (cmd P) = Some sp -> os.state sp <> os.Reaped ->
      sigres or1 = Some e1 -> wrapsProcessDone e1 = false -> sigres or2 = None ->
      run [or0; or1; or2] (stop p cx) w =
      Unscheduled (stop_drain p cx isKilled)
                  (set_proc w p (deliver P sp os.Kill))) /\
  (forall expectError e rest or or' ors,
      buf (exitCh P) = e :: rest -> closed (exitCh P) = false ->
      exit_wins w cx or ->
      run (or :: or' :: ors) (stop_drain p cx expectError) w =
      Returns (unexpected expectError e)
              (set_proc w p (close_exit (drained P rest))) ors /\
      (unexpected expectError e = nil_error <-> e = nil_error \/ expectError e = true) /\
      (e <> nil_error -> expectError e = false -> unexpected expectError e = e)) /\
  (forall e, isInterrupt e = true <->
             exists g, e = Some g /\ Error g = "signal: interrupt") /\
  (forall e, isKilled e = true <->
             exists g, e = Some g /\ Error g = "signal: killed") /\
  (forall g rest or or' ors,
      buf (exitCh P) = Some g :: rest -> closed (exitCh P) = false ->
      exit_wins w cx or ->
      (Error g = "signal: interrupt" ->
       run (or :: or' :: ors) (stop_drain p cx isInterrupt) w =
       Returns nil_error (set_proc w p (close_exit (drained P rest))) ors /\
       run (or :: or' :: ors) (stop_drain p cx isKilled) w =
       Returns (Some g) (set_proc w p (close_exit (drained P rest))) ors) /\
      (Error g = "signal: killed" ->
       run (or :: or' :: ors) (stop_drain p cx isKilled) w =
       Returns nil_error (set_proc w p (close_exit (drained P rest))) ors /\
       run (or :: or' :: ors) (stop_drain p cx isInterrupt) w =
       Returns (Some g) (set_proc w p (close_exit (drained P rest))) ors)).
Proof.
  assert (HI : forall e, isInterrupt e = true <->
                         exists g, e = Some g /\ Error g = "signal: interrupt").
  { intros [g|]; cbn; split.
    - intros H. exists g. split; [reflexivity|apply String.eqb_eq, H].
    - intros (g' & E & H). inversion E; subst. apply String.eqb_eq, H.
    - discriminate.
    - intros (g' & E & _). discriminate. }
  assert (HK : forall e, isKilled e = true <->
                         exists g, e = Some g /\ Error g = "signal: killed").
  { intros [g|]; cbn; split.
    - intros H. exists g. split; [reflexivity|apply String.eqb_eq, H].
    - intros (g' & E & H). inversion E; subst. apply String.eqb_eq, H.
    - discriminate.
    - intros (g' & E & _). discriminate. }
  split; [|split; [|split; [|split; [|split]]]].
  - intros sp or0 or1 Hh Hst Hor.
    rewrite (stop_to_interrupt w p P cx HP sp or0 _ Hh).
    rewrite (stop_interrupt_delivered w p P cx HP or1 [] _
               (sem_signal_delivered w p P or1 HP sp os.Interrupt Hh Hst Hor)).
    reflexivity.
  - intros sp or0 or1 or2 e1 Hh Hst Hor1 Hd Hor2.
    rewrite (stop_to_interrupt w p P cx HP sp or0 _ Hh).
    rewrite (stop_interrupt_escalates w p P cx HP or1 _ (Some e1) w
               (sem_signal_fails w p P or1 HP sp os.Interrupt e1 Hh Hst Hor1)
               eq_refl Hd).
    rewrite (stop_escalate_delivered w p P cx HP or2 [] _
               (sem_signal_delivered w p P or2 HP sp os.Kill Hh Hst Hor2)).
    reflexivity.
  - intros expectError e rest or or' ors Hb Hc Hw. split; [|split].
    + exact (stop_drain_exit w p P HP cx expectError or or' ors e rest Hb Hc Hw).
    + apply unexpected_nil.
    + apply unexpected_verbatim.
  - exact HI.
  - exact HK.
  - intros g rest or or' ors Hb Hc Hw.
    pose proof (fun x => stop_drain_exit w p P HP cx x or or' ors (Some g) rest Hb Hc Hw)
      as Hrun.
    split; intros Hg; rewrite !Hrun; unfold unexpected; cbn; rewrite Hg; split; reflexivity.
Qed.

Lemma stop_race_won_by_exit_witness :
  run [quiet; quiet] (stop 0 Background) (one_proc (started os.Running))
  = Unscheduled (stop_drain 0 Background isInterrupt)
                (set_proc (one_proc (started os.Running)) 0
                          (deliver (started os.Running) launched os.Interrupt)) /\
  run [quiet; failing eperm; quiet] (stop 0 Background) (one_proc (started os.Running))
  = Unscheduled (stop_drain 0 Background isKilled)
                (set_proc (one_proc (started os.Running)) 0
                          (deliver (started os.Running) launched os.Kill)) /\
  run [quiet; quiet] (stop_drain 0 Background isInterrupt)
      (one_proc (racing os.Interrupt (Some signal_interrupt)))
  = Returns nil_error
      (set_proc (one_proc (racing os.Interrupt (Some signal_interrupt))) 0
         (close_exit (drained (racing os.Interrupt (Some signal_interrupt)) []))) [] /\
  run [quiet; quiet] (stop_drain 0 Background isInterrupt)
      (one_proc (racing os.Interrupt (Some signal_killed)))
  = Returns (Some signal_killed)
      (set_proc (one_proc (racing os.Interrupt (Some signal_killed))) 0
         (close_exit (drained (racing os.Interrupt (Some signal_killed)) []))) [] /\
  run [quiet; quiet] (stop_drain 0 Background isKilled)
      (one_proc (racing os.Kill (Some signal_killed)))
  = Returns nil_error
      (set_proc (one_proc (racing os.Kill (Some signal_killed))) 0
         (close_exit (drained (racing os.Kill (Some signal_killed)) []))) [] /\
  run [quiet; quiet] (stop_drain 0 Background isKilled)
      (one_proc (racing os.Kill (Some signal_interrupt)))
  = Returns (Some signal_interrupt)
      (set_proc (one_proc (racing os.Kill (Some signal_interrupt))) 0
         (close_exit (drained (racing os.Kill (Some signal_interrupt)) []))) [] /\
  isKilled (Some signal_killed) = true.
Proof.
  assert (Hst : os.Running <> os.Reaped) by discriminate.
  split; [|split; [|split; [|split; [|split; [|split]]]]].
  - destruct (stop_race_won_by_exit (one_proc (started os.Running)) 0 (started os.Running)
                Background eq_refl) as (H & _).
    exact (H launched quiet quiet eq_refl Hst eq_refl).
  - destruct (stop_race_won_by_exit (one_proc (started os.Running)) 0 (started os.Running)
                Background eq_refl) as (_ & H & _).
    exact (H launched quiet (failing eperm) quiet eperm eq_refl Hst eq_refl eq_refl eq_refl).
  - destruct (stop_race_won_by_exit (one_proc (racing os.Interrupt (Some signal_interrupt)))
                0 (racing os.Interrupt (Some signal_interrupt)) Background eq_refl)
      as (_ & _ & H & _).
    exact (proj1 (H isInterrupt (Some signal_interrupt) [] quiet quiet []
                    eq_refl eq_refl (or_introl eq_refl))).
  - destruct (stop_race_won_by_exit (one_proc (racing os.Interrupt (Some signal_killed)))
                0 (racing os.Interrupt (Some signal_killed)) Background eq_refl)
      as (_ & _ & _ & _ & _ & H).
    destruct (H signal_killed [] quiet quiet [] eq_refl eq_refl (or_introl eq_refl))
      as [_ H'].
    exact (proj2 (H' eq_refl)).
  - destruct (stop_race_won_by_exit (one_proc (racing os.Kill (Some signal_killed)))
                0 (racing os.Kill (Some signal_killed)) Background eq_refl)
      as (_ & _ & _ & _ & _ & H).
    destruct (H signal_killed [] quiet quiet [] eq_refl eq_refl (or_introl eq_refl))
      as [_ H'].
    exact (proj1 (H' eq_refl)).
  - destruct (stop_race_won_by_exit (one_proc (racing os.Kill (Some signal_interrupt)))
                0 (racing os.Kill (Some signal_interrupt)) Background eq_refl)
      as (_ & _ & _ & _ & _ & H).
    destruct (H signal_interrupt [] quiet quiet [] eq_refl eq_refl (or_introl eq_refl))
      as [H' _].
    exact (proj2 (H' eq_refl)).
  - destruct (stop_race_won_by_exit (one_proc (started os.Running)) 0 (started os.Running)
                Background eq_refl) as (_ & _ & _ & _ & H & _).
    apply H. exists signal_killed. split; reflexivity.
Defined.

(** C3, as the claim states it, fails: when the kill signal cannot be sent
    for another reason than [os.ErrProcessDone], [kill] returns the error of
    the send at once and never reads the exit channel. *)
Lemma kill_send_error_is_returned :
  run [quiet; failing eperm] (kill 0) (one_proc (started os.Running))
  = Returns (Some eperm) (one_proc (started os.Running)) [] /\
  ~ (forall w p P sp or0 or1 e w1,
        procs w !! p = Some P -> exec.Process (cmd P) = Some sp ->
        sem (ESignal p os.Kill) or1 w = Ok e w1 -> isProcessDone e = false ->
        run [or0; or1] (kill p) w = Unscheduled (kill_drain p) w1).
Proof.
  split; [reflexivity|]. intros H.
  specialize (H (one_proc (started os.Running)) 0 (started os.Running) launched
                quiet (failing eperm) (Some eperm) (one_proc (started os.Running))
                eq_refl eq_refl eq_refl eq_refl).
  vm_compute in H. discriminate.
Qed.

(** C3, amended.  When the context of [stop] is done and the exit channel
    is empty, [stop] goes on as [kill] and returns what [kill] returns.
    [kill] returns nil without a process handle, sends the kill signal,
    returns nil if the send fails with [os.ErrProcessDone], returns the
    error of the send if it fails otherwise, and once the signal is
    delivered waits for the exit channel whatever contexts are done; it
    then closes the channel and returns nil for nil and for the kill error,
    and the received error otherwise. *)
Theorem kill_after_deadline (w : world) (p : pid) (P : Process)
        (HP : procs w !! p = Some P) :
  (forall cx expectError or ors,
      buf (exitCh P) = [] -> closed (exitCh P) = false -> ctx_done w cx = true ->
      run (or :: ors) (stop_drain p cx expectError) w = run ors (kill p) w) /\
  (exec.Process (cmd P) = None ->
   forall or ors, run (or :: ors) (kill p) w = Returns nil_error w ors) /\
  (forall sp or0 or1 ors e w1,
      exec.Process (cmd P) = Some sp ->
      sem (ESignal p os.Kill) or1 w = Ok e w1 ->
      (isProcessDone e = true ->
       run (or0 :: or1 :: ors) (kill p) w = Returns nil_error w ors) /\
      (notnil e = true -> isProcessDone e = false ->
       run (or0 :: or1 :: ors) (kill p) w = Returns e w ors) /\
      (e = nil_error ->
       w1 = set_proc w p (deliver P sp os.Kill) /\
       run (or0 :: or1 :: ors) (kill p) w = run ors (kill_drain p) w1)) /\
  (forall or ors,
      buf (exitCh P) = [] -> closed (exitCh P) = false ->
      run (or :: ors) (kill_drain p) w = Waits (kill_drain p) w) /\
  (forall e rest or or' ors,
      buf (exitCh P) = e :: rest -> closed (exitCh P) = false ->
      run (or :: or' :: ors) (kill_drain p) w =
      Returns (unexpected isKilled e) (set_proc w p (close_exit (drained P rest))) ors /\
      (unexpected isKilled e = nil_error <-> e = nil_error \/ isKilled e = true) /\
      (e <> nil_error -> isKilled e = false -> unexpected isKilled e = e)).
Proof.
  split; [|split; [|split; [|split]]].
  - intros cx expectError or ors Hb Hc Hd.
    exact (stop_drain_timeout w p P HP cx expectError or ors Hb Hc Hd).
  - intros Hh or ors. exact (kill_no_handle w p P HP or ors Hh).
  - intros sp or0 or1 ors e w1 Hh Hs.
    rewrite (kill_to_signal w p P HP sp or0 _ Hh). split; [|split].
    + intros Hd. exact (kill_signal_gone w p P HP or1 ors e w1 Hs Hd).
    + intros Hn Hd. exact (kill_signal_fails w p P HP or1 ors e w1 Hs Hn Hd).
    + intros ->. split.
      * exact (proj1 (sem_signal_nil w p P or1 sp os.Kill w1 HP Hh Hs)).
      * exact (kill_signal_delivered w p P HP or1 ors w1 Hs).
  - intros or ors Hb Hc. exact (kill_drain_blocks w p P HP or ors Hb Hc).
  - intros e rest or or' ors Hb Hc. split; [|split].
    + exact (kill_drain_value w p P HP or or' ors e rest Hb Hc).
    + apply unexpected_nil.
    + apply unexpected_verbatim.
Qed.

Lemma kill_after_deadline_witness :
  run [quiet; quiet] (kill_drain 0) (one_proc (racing os.Kill (Some signal_killed)))
  = Returns nil_error
      (set_proc (one_proc (racing os.Kill (Some signal_killed))) 0
         (close_exit (drained (racing os.Kill (Some signal_killed)) []))) [] /\
  run [quiet; failing eperm] (kill 0) (one_proc (started os.Running))
  = Returns (Some eperm) (one_proc (started os.Running)) [].
Proof.
  split.
  - destruct (kill_after_deadline (one_proc (racing os.Kill (Some signal_killed)))
                0 (racing os.Kill (Some signal_killed)) eq_refl) as (_ & _ & _ & _ & H).
    exact (proj1 (H (Some signal_killed) [] quiet quiet [] eq_refl eq_refl)).
  - destruct (kill_after_deadline (one_proc (started os.Running)) 0 (started os.Running)
                eq_refl) as (_ & _ & H & _).
    destruct (H launched quiet (failing eperm) [] (Some eperm) _ eq_refl eq_refl)
      as (_ & H' & _).
    exact (H' eq_refl eq_refl).
Defined.

Lemma Kill_delivers w p P sp or0 or1 or2 or3 ors :
  procs w !! p = Some P -> exec.Process (cmd P) = Some sp ->
  os.state sp <> os.Reaped -> o (once P) = Fresh ->
  buf (exitCh P) = [] -> closed (exitCh P) = false -> sigres or2 = None ->
  run (or0 :: or1 :: or2 :: or3 :: ors) (Kill p) w =
  Waits (in_guard p (kill_drain p)) (set_proc w p (deliver (lock_once P) sp os.Kill)).
Proof.
  intros HP Hh Hst Ho Hb Hc Hor.
  pose proof (lookup_set_proc w p P (lock_once P) HP) as HPl.
  unfold Kill, onceError_Do. cbn [bind trigger].
  rewrite run_vis, (sem_once_enter_fresh w p P HP or0 Ho).
  rewrite !run_bind.
  rewrite (kill_to_signal _ p (lock_once P) HPl sp or1 _ Hh).
  rewrite (kill_signal_delivered _ p (lock_once P) HPl or2 _ _
             (sem_signal_delivered _ p (lock_once P) or2 HPl sp os.Kill Hh Hst Hor)).
  rewrite set_proc_twice.
  rewrite (kill_drain_blocks _ p (deliver (lock_once P) sp os.Kill)
             (lookup_set_proc w p P _ HP) or3 ors Hb Hc).
  reflexivity.
Qed.

(** C5, as the claim states it, fails in its last part.  In the first
    session a [Stop] could send neither signal, and the guard has recorded
    the error of the kill send; the process still runs.  A [Wait] whose
    context is cancelled goes on as [Kill], which returns the recorded
    error at once: no signal is delivered and the process runs on.  In the
    second session a [Stop] has delivered the interrupt, which the process
    ignores, and waits in its [select]; the cancelled [Wait] cannot enter
    the guard and only the interrupt was delivered.  So a [Wait] whose
    context is done does not always kill the process. *)
Lemma cancelled_wait_sends_no_signal :
  reachable (after session_refused_wait) /\
  returned (after session_refused_wait) 3 = Some (RErr (Some eperm)) /\
  procs (after session_refused_wait) = [refused os.Running] /\
  (reachable (after session_pending_wait) /\
   returned (after session_pending_wait) 3 = None /\
   (forall or, step (Sched 3 or) (after session_pending_wait) = None) /\
   exists P, procs (after session_pending_wait) = [P] /\
             exec.Process (cmd P) = Some (os.mkProcess os.Running [os.Interrupt])) /\
  ~ (forall w p P cx sp ors,
        reachable w -> procs w !! p = Some P ->
        exec.Process (cmd P) = Some sp -> os.state sp <> os.Reaped ->
        buf (exitCh P) = [] -> closed (exitCh P) = false -> ctx_done w cx = true ->
        Forall (fun or => sigres or = None) ors -> 5 <= length ors ->
        exists P' sp',
          procs (final (run ors (Wait p cx) w)) !! p = Some P' /\
          exec.Process (cmd P') = Some sp' /\ In os.Kill (os.delivered sp')).
Proof.
  split; [exists session_refused_wait; vm_compute; reflexivity|].
  split; [vm_compute; reflexivity|]. split; [vm_compute; reflexivity|].
  split.
  - split; [exists session_pending_wait; vm_compute; reflexivity|].
    split; [vm_compute; reflexivity|].
    split; [intros or; vm_compute; reflexivity|].
    eexists. split; vm_compute; reflexivity.
  - intros H.
    assert (Hr : reachable (after (session_refused ++ [Cancel 1])))
      by (exists (session_refused ++ [Cancel 1])%list; vm_compute; reflexivity).
    assert (Hst : os.Running <> os.Reaped) by discriminate.
    destruct (H (after (session_refused ++ [Cancel 1])) 0 (refused os.Running)
                (WithCancel 1) (os.mkProcess os.Running []) (repeat quiet 5)
                Hr ltac:(vm_compute; reflexivity) eq_refl Hst eq_refl eq_refl
                ltac:(vm_compute; reflexivity)
                ltac:(repeat constructor) ltac:(cbn; lia))
      as (P' & sp' & HP' & Hh' & Hin).
    vm_compute in HP'. inversion HP'; subst P'.
    cbn in Hh'. inversion Hh'; subst sp'. cbn in Hin. exact Hin.
Qed.

(** C5, amended.  [Wait] waits while the exit channel is empty and its
    context is not done.  It returns the value it takes from the exit
    channel; that value is what the wait for the terminated process
    returned, put there by the background goroutine.  When its context is
    done (and the channel is empty, or the [select] takes the context), it
    goes on as [Kill] and returns what [Kill] returns.  With a fresh guard
    and a process that can be signalled, [Kill] then delivers the kill
    signal and waits for the exit channel; with a guard that has finished
    it returns the recorded error and sends no signal; with a guard that is
    locked it waits and sends no signal. *)
Theorem wait_returns_exit_or_kills (w : world) (p : pid) (P : Process) (cx : ctx)
        (HP : procs w !! p = Some P) :
  (forall or ors,
      buf (exitCh P) = [] -> closed (exitCh P) = false -> ctx_done w cx = false ->
      run (or :: ors) (Wait p cx) w = Waits (Wait p cx) w) /\
  (forall e rest or ors,
      buf (exitCh P) = e :: rest -> exit_wins w cx or ->
      run (or :: ors) (Wait p cx) w = Returns e (set_proc w p (drained P rest)) ors) /\
  (forall sp werr or1 or2 or3 ors,
      exec.Process (cmd P) = Some sp -> os.state sp = os.Exited werr ->
      copying or1 = false ->
      buf (exitCh P) = [] -> closed (exitCh P) = false -> exit_wins w cx or3 ->
      let w1 := set_proc w p (send_exit (reap P sp) werr) in
      run [or1; or2] (wait p) w = Returns tt w1 [] /\
      run (or3 :: ors) (Wait p cx) w1 =
      Returns werr (set_proc w1 p (drained (send_exit (reap P sp) werr) [])) ors) /\
  (forall or ors,
      ctx_done w cx = true ->
      (buf (exitCh P) = [] /\ closed (exitCh P) = false) \/ ctx_first or = true ->
      run (or :: ors) (Wait p cx) w = run ors (Kill p) w) /\
  (forall sp or or0 or1 or2 or3 ors,
      exec.Process (cmd P) = Some sp -> os.state sp <> os.Reaped ->
      o (once P) = Fresh ->
      buf (exitCh P) = [] -> closed (exitCh P) = false -> ctx_done w cx = true ->
      sigres or2 = None ->
      run (or :: or0 :: or1 :: or2 :: or3 :: ors) (Wait p cx) w =
      Waits (in_guard p (kill_drain p))
            (set_proc w p (deliver (lock_once P) sp os.Kill))) /\
  (forall or or0 or1 ors,
      o (once P) = Finished ->
      buf (exitCh P) = [] -> closed (exitCh P) = false -> ctx_done w cx = true ->
      run (or :: or0 :: or1 :: ors) (Wait p cx) w = Returns (err (once P)) w ors) /\
  (forall or or0 ors,
      o (once P) = Locked ->
      buf (exitCh P) = [] -> closed (exitCh P) = false -> ctx_done w cx = true ->
      exists m, run (or :: or0 :: ors) (Wait p cx) w = Waits m w).
Proof.
  split; [|split; [|split; [|split; [|split; [|split]]]]].
  - intros or ors Hb Hc Hd. exact (Wait_blocks w p P HP cx or ors Hb Hc Hd).
  - intros e rest or ors Hb Hw. exact (Wait_exit w p P HP cx or ors e rest Hb Hw).
  - intros sp werr or1 or2 or3 ors Hh Hst Hcp Hb Hc Hw w1. split.
    + exact (wait_deposits w p P HP sp werr or1 or2 [] Hh Hst Hcp Hb Hc).
    + apply (Wait_exit w1 p (send_exit (reap P sp) werr)
               (lookup_set_proc w p P _ HP) cx or3 ors werr []).
      * cbn. rewrite Hb. reflexivity.
      * exact Hw.
  - intros or ors Hd [[Hb Hc]|Hf].
    + exact (Wait_timeout w p P HP cx or ors Hb Hc Hd).
    + exact (Wait_ctx_first w p P HP cx or ors Hd Hf).
  - intros sp or or0 or1 or2 or3 ors Hh Hst Ho Hb Hc Hd Hor.
    rewrite (Wait_timeout w p P HP cx or _ Hb Hc Hd).
    exact (Kill_delivers w p P sp or0 or1 or2 or3 ors HP Hh Hst Ho Hb Hc Hor).
  - intros or or0 or1 ors Ho Hb Hc Hd.
    rewrite (Wait_timeout w p P HP cx or _ Hb Hc Hd).
    exact (Do_finished w p P HP (kill p) or0 or1 ors Ho).
  - intros or or0 ors Ho Hb Hc Hd.
    rewrite (Wait_timeout w p P HP cx or _ Hb Hc Hd).
    exact (Do_locked w p P HP (kill p) or0 ors Ho).
Qed.

Lemma wait_returns_exit_or_kills_witness :
  run [quiet] (Wait 0 Background) (one_proc (deposited (Some (exit_status 7))))
  = Returns (Some (exit_status 7))
      (set_proc (one_proc (deposited (Some (exit_status 7)))) 0
                (drained (deposited (Some (exit_status 7))) [])) [] /\
  run [quiet; quiet; quiet; quiet; quiet] (Wait 0 (WithCancel 1))
      (set_cancelled (one_proc (started os.Running)) [1])
  = Waits (in_guard 0 (kill_drain 0))
      (set_proc (set_cancelled (one_proc (started os.Running)) [1]) 0
                (deliver (lock_once (started os.Running)) launched os.Kill)) /\
  run [quiet; quiet; quiet] (Wait 0 (WithCancel 1))
      (set_cancelled (one_proc (refused os.Running)) [1])
  = Returns (Some eperm) (set_cancelled (one_proc (refused os.Running)) [1]) [].
Proof.
  split; [|split].
  - destruct (wait_returns_exit_or_kills (one_proc (deposited (Some (exit_status 7)))) 0
                (deposited (Some (exit_status 7))) Background eq_refl) as (_ & H & _).
    exact (H (Some (exit_status 7)) [] quiet [] eq_refl (or_introl eq_refl)).
  - destruct (wait_returns_exit_or_kills
                (set_cancelled (one_proc (started os.Running)) [1]) 0
                (started os.Running) (WithCancel 1) eq_refl) as (_ & _ & _ & _ & H & _).
    assert (Hst : os.Running <> os.Reaped) by discriminate.
    exact (H launched quiet quiet quiet quiet quiet [] eq_refl Hst
             eq_refl eq_refl eq_refl eq_refl eq_refl).
  - destruct (wait_returns_exit_or_kills
                (set_cancelled (one_proc (refused os.Running)) [1]) 0
                (refused os.Running) (WithCancel 1) eq_refl)
      as (_ & _ & _ & _ & _ & H & _).
    exact (H quiet quiet quiet [] eq_refl eq_refl eq_refl eq_refl).
Defined.

(** ** One background goroutine for each controller *)

Lemma sem_shape {X : Type} (e : event X) or w x w1 :
  sem e or w = Ok x w1 ->
  threads w1 = (threads w ++ ev_threads e)%list /\
  length (procs w1) = length (procs w) + ev_procs e.
Proof.
  destruct e; cbn [sem ev_threads ev_procs]; intros H;
    try (destruct (procs w !! p) as [P|] eqn:HP; [|discriminate]);
    rewrite ?app_nil_r, ?Nat.add_0_r.
  - inversion H; subst. auto.
  - destruct (exec.Process (cmd P)) as [sp|]; [|discriminate].
    destruct (os.state sp), (sigres or); inversion H; subst; cbn;
      rewrite ?length_insert; auto.
  - unfold recv_exit, chan_recv in H.
    destruct (buf (exitCh P)), (closed (exitCh P)); inversion H; subst; cbn;
      rewrite ?length_insert; auto.
  - unfold recv_exit, chan_recv in H.
    destruct (buf (exitCh P)), (closed (exitCh P)), (ctx_done w c), (ctx_first or);
      inversion H; subst; cbn; rewrite ?length_insert; auto.
  - destruct (closed (exitCh P)); inversion H; subst; cbn; rewrite ?length_insert; auto.
  - destruct (closed (exitCh P)); [discriminate|].
    destruct (Nat.ltb (length (buf (exitCh P))) chan_cap); inversion H; subst; cbn;
      rewrite ?length_insert; auto.
  - destruct (exec.Process (cmd P)) as [sp|]; [|inversion H; subst; auto].
    destruct (os.state sp); [|destruct (copying or)|];
      inversion H; subst; cbn; rewrite ?length_insert; auto.
  - destruct (o (once P)); inversion H; subst; cbn; rewrite ?length_insert; auto.
  - destruct (o (once P)); inversion H; subst; cbn; rewrite ?length_insert; auto.
  - inversion H; subst. auto.
  - inversion H; subst. auto.
  - inversion H; subst. auto.
  - destruct (exec.Process c); [|destruct (launch or)]; inversion H; subst; auto.
  - inversion H; subst. cbn. rewrite length_app. cbn. auto.
  - inversion H; subst. cbn. auto.
  - discriminate.
Qed.

Lemma reapers_app q l1 l2 : reapers q (l1 ++ l2) = reapers q l1 + reapers q l2.
Proof. induction l1 as [|th l1 IH]; cbn; [reflexivity|]. rewrite IH. lia. Qed.

Lemma reapers_insert q (l : list thread) t th m :
  l !! t = Some th -> reapers q (<[t := mkThread (origin th) m]> l) = reapers q l.
Proof.
  revert t. induction l as [|x l IH]; intros [|t] H; simpl in H |- *; try discriminate.
  - inversion H; subst. reflexivity.
  - rewrite (IH _ H). reflexivity.
Qed.

Lemma ltb_succ_split q n :
  b2n (Nat.ltb q (n + 1)) = b2n (Nat.ltb q n) + b2n (Nat.eqb n q).
Proof.
  destruct (Nat.ltb_spec q (n + 1)), (Nat.ltb_spec q n), (Nat.eqb_spec n q); cbn; lia.
Qed.

Lemma Reap_exit w pcs p P sp werr :
  procs w !! p = Some P -> Reap w pcs -> Reap (set_proc w p (terminate P sp werr)) pcs.
Proof.
  intros HP (U & R). split.
  - intros q. cbn. rewrite length_insert. apply U.
  - intros t th v q Hth Ho Hc. destruct (R t th v q Hth Ho Hc) as (Q & HQ & Hs).
    destruct (decide (q = p)) as [->|Hne].
    + rewrite HP in HQ. inversion HQ; subst Q.
      exists (terminate P sp werr). split; [eapply lookup_set_proc, HP|exact Hs].
    + exists Q. rewrite lookup_set_proc_ne by congruence. auto.
Qed.

Lemma Reap_call w pcs c :
  callable w c = true -> Reap w pcs ->
  Reap (set_threads w (threads w ++ [spawn c])) (pcs ++ [pc_of_call c]).
Proof.
  intros Hc (U & R). split.
  - intros q. cbn [set_threads threads procs]. rewrite reapers_app, count_snoc.
    cbn [reapers].
    replace (is_reaper q (spawn c)) with false by (destruct c; (reflexivity || discriminate)).
    replace (at_go q (pc_of_call c)) with false by (destruct c; reflexivity).
    cbn [b2n]. specialize (U q). lia.
  - intros t th v q Hth Ho Hcode. cbn in Hth.
    apply lookup_app_Some in Hth. destruct Hth as [Hth|[_ Hth]].
    + exact (R t th v q Hth Ho Hcode).
    + destruct (t - length (threads w)) as [|n]; cbn in Hth; [|discriminate].
      inversion Hth; subst th. cbn in Hcode. rewrite code_of_call in Hcode.
      apply denote_ret in Hcode. destruct c; discriminate.
Qed.

Lemma Reap_pc_step w pcs t th c or c' w1 :
  Inv w pcs -> Reap w pcs ->
  threads w !! t = Some th -> pcs !! t = Some c ->
  origin_ok (origin th) c = true ->
  pc_sem c or w = Ok c' w1 ->
  Reap (set_code w1 t th (denote c')) (<[t := c']> (pcs ++ spawned c)%list).
Proof.
  intros HI (U & R) Hth Hpc Hok Hsem.
  pose proof (Inv_pc_step w pcs t th c or c' w1 HI Hth Hpc Hok Hsem) as HI'.
  assert (Hpc' : (pcs ++ spawned c)%list !! t = Some c) by (apply lookup_app_l_Some, Hpc).
  split.
  - intros q. specialize (U q).
    pose proof (count_insert (at_go q) _ t c c' Hpc') as Hc.
    rewrite count_app in Hc.
    destruct c as [p g K|p b K|p K|p|old args| |c sk|c sk|p sk|p cx|p|p e0|v];
      try destruct b; unfold pc_sem in Hsem; cbn [pc_view body_view] in Hsem;
      try discriminate;
      match type of Hsem with
      | context [sem ?e or w] =>
          destruct (sem e or w) as [x w2| |rp] eqn:Hs; inversion Hsem; subst c' w1;
          destruct (sem_shape e or w x w2 Hs) as (Hthreads & Hlen)
      end;
      cbn [set_code set_threads threads procs]; rewrite Hthreads, Hlen;
      (rewrite reapers_insert by (apply lookup_app_l_Some, Hth));
      rewrite reapers_app;
      cbn [ev_threads ev_procs reapers spawned count is_reaper spawn origin] in *;
      rewrite ?Nat.add_0_r, ?app_nil_r in *;
      repeat match type of Hc with
             | context [match ?y with _ => _ end] => destruct y
             end;
      cbn [at_go b2n] in *; rewrite ?ltb_succ_split; try lia.
    cbn [sem] in Hs. inversion Hs; subst. lia.
  - intros t' th' v q Hth' Ho Hcode.
    destruct HI' as (_ & _ & Hg' & _).
    assert (Hmono : forall Q, procs w !! q = Some Q -> sends Q = 1 ->
                              exists Q', procs w1 !! q = Some Q' /\ sends Q' = 1).
    { intros Q HQ HsQ. unfold pc_sem in Hsem.
      destruct (pc_view c) as [v0|X e next]; [discriminate|].
      destruct (sem e or w) as [x w2| |rp] eqn:Hs; inversion Hsem; subst c' w1.
      destruct (sem_frame e or w x w2 Hs) as (_ & _ & Hframe).
      destruct (Hframe q Q HQ) as (Q' & HQ' & _ & _ & Hle).
      exists Q'. split; [exact HQ'|].
      destruct (Hg' q Q' HQ') as (_ & _ & _ & _ & G5 & _). lia. }
    assert (Hthr : exists ex, threads w1 = (threads w ++ ex)%list /\
                    forall i th0 v0, ex !! i = Some th0 -> code th0 <> Ret v0).
    { unfold pc_sem in Hsem.
      destruct (pc_view c) as [v0|X e next]; [discriminate|].
      destruct (sem e or w) as [x w2| |rp] eqn:Hs; inversion Hsem; subst c' w1.
      destruct (sem_shape e or w x w2 Hs) as (Hthreads & _).
      exists (ev_threads e). split; [exact Hthreads|].
      intros i th0 v0 Hi. destruct e; cbn in Hi; try discriminate.
      destruct i; cbn in Hi; [|discriminate]. inversion Hi; subst. discriminate. }
    destruct Hthr as (ex & Hthreads & Hex).
    cbn [set_code set_threads threads procs] in Hth' |- *.
    destruct (decide (t = t')) as [<-|Hne].
    + rewrite list_lookup_insert_eq in Hth'
        by (rewrite Hthreads, length_app; apply lookup_lt_Some in Hth; lia).
      inversion Hth'; subst th'. cbn [origin code] in Ho, Hcode.
      apply denote_ret in Hcode. subst c'. rewrite Ho in Hok.
      destruct c as [p g K|p b K|p K|p|old args| |c sk|c sk|p sk|p cx|p|p e0|v0];
        try discriminate; unfold pc_sem in Hsem; cbn [pc_view sem] in Hsem;
        try discriminate.
      * destruct (procs w !! p) as [P|]; [|discriminate].
        destruct (exec.Process (cmd P)) as [sp|];
          [destruct (os.state sp); [|destruct (copying or)|]|]; discriminate.
      * cbn in Hok. apply Nat.eqb_eq in Hok. subst p.
        destruct (procs w !! q) as [P|] eqn:HP; [|discriminate].
        destruct (closed (exitCh P)); [discriminate|].
        destruct (Nat.ltb (length (buf (exitCh P))) chan_cap); inversion Hsem; subst.
        exists (send_exit P e0). split; [eapply lookup_set_proc, HP|].
        destruct (proj1 (proj2 (proj2 HI)) q P HP) as (_ & _ & _ & _ & G5 & _).
        pose proof (count_lookup_le (pending q) pcs t _ Hpc) as Hle.
        cbn in Hle. rewrite Nat.eqb_refl in Hle. cbn in Hle |- *. lia.
    + rewrite list_lookup_insert_ne in Hth' by exact Hne.
      rewrite Hthreads in Hth'. apply lookup_app_Some in Hth'.
      destruct Hth' as [Hth'|[_ Hth']].
      * destruct (R t' th' v q Hth' Ho Hcode) as (Q & HQ & HsQ).
        exact (Hmono Q HQ HsQ).
      * exfalso. exact (Hex _ _ v Hth' Hcode).
Qed.

Lemma Inv2_step w pcs l w' :
  Inv2 w pcs -> step l w = Some w' -> exists pcs', Inv2 w' pcs'.
Proof.
  intros (HI & HR) Hstep. unfold step in Hstep.
  destruct (crashed w) eqn:Hcr; [discriminate|].
  destruct l as [t or|p werr|id|c].
  - destruct (threads w !! t) as [th|] eqn:Hth; [|discriminate].
    destruct (Forall2_lookup_l _ _ _ _ _ (proj1 HI) Hth) as (c & Hpc & Hcode & Hok).
    assert (Hs := step_sched w t or th c Hcr Hth Hcode).
    unfold step in Hs. rewrite Hcr, Hth in Hs. rewrite Hs in Hstep. clear Hs.
    destruct (pc_sem c or w) as [c' w1| |r] eqn:Hsem; inversion Hstep; subst w'.
    + eexists. split.
      * exact (Inv_pc_step w pcs t th c or c' w1 HI Hth Hpc Hok Hsem).
      * exact (Reap_pc_step w pcs t th c or c' w1 HI HR Hth Hpc Hok Hsem).
    + exists pcs. split; [apply Inv_crashed, HI|exact HR].
  - destruct (procs w !! p) as [P|] eqn:HP; [|discriminate].
    destruct (exec.Process (cmd P)) as [sp|] eqn:Hh; [|discriminate].
    destruct (os.state sp) eqn:Hst; inversion Hstep; subst w'.
    exists pcs. split; [exact (Inv_exit w pcs p P sp werr HI HP Hh Hst)|].
    exact (Reap_exit w pcs p P sp werr HP HR).
  - inversion Hstep; subst w'. exists pcs. split; [apply Inv_cancelled, HI|exact HR].
  - destruct (callable w c) eqn:Hc; inversion Hstep; subst w'.
    eexists. split; [exact (Inv_call w pcs c HI Hc)|exact (Reap_call w pcs c Hc HR)].
Qed.

Lemma Inv2_steps ls : forall w pcs w',
  Inv2 w pcs -> steps ls w = Some w' -> exists pcs', Inv2 w' pcs'.
Proof.
  induction ls as [|l ls IH]; intros w pcs w' HI Hs; cbn in Hs.
  - inversion Hs; subst. exists pcs. exact HI.
  - destruct (step l w) as [w1|] eqn:Hstep; [|discriminate].
    destruct (Inv2_step w pcs l w1 HI Hstep) as (pcs1 & HI1).
    exact (IH w1 pcs1 w' HI1 Hs).
Qed.

Lemma Inv2_empty : Inv2 empty_world [].
Proof.
  split; [exact Inv_empty|]. split.
  - intros q. reflexivity.
  - intros t th v q H. discriminate.
Qed.

Lemma reachable_Inv2 w : reachable w -> exists pcs, Inv2 w pcs.
Proof. intros (ls & Hs). exact (Inv2_steps ls empty_world [] w Inv2_empty Hs). Qed.

Lemma reapers_unique q (l : list thread) : forall t1 t2 th1 th2,
  reapers q l <= 1 ->
  l !! t1 = Some th1 -> l !! t2 = Some th2 ->
  is_reaper q th1 = true -> is_reaper q th2 = true -> t1 = t2.
Proof.
  assert (Hle : forall (l : list thread) t th,
             l !! t = Some th -> is_reaper q th = true -> 1 <= reapers q l).
  { intros l0. induction l0 as [|x l0 IH]; intros [|t] th H Hr; simpl in H |- *;
      try discriminate.
    - inversion H; subst. rewrite Hr. cbn. lia.
    - specialize (IH _ _ H Hr). lia. }
  induction l as [|x l IH]; intros [|t1] [|t2] th1 th2 Hn H1 H2 R1 R2;
    simpl in H1, H2, Hn; try discriminate.
  - reflexivity.
  - inversion H1; subst. rewrite R1 in Hn. pose proof (Hle l t2 th2 H2 R2). cbn in Hn. lia.
  - inversion H2; subst. rewrite R2 in Hn. pose proof (Hle l t1 th1 H1 R1). cbn in Hn. lia.
  - f_equal. apply (IH t1 t2 th1 th2); try assumption. lia.
Qed.

Lemma reaper_enabled w pcs t th p P or :
  Inv w pcs -> crashed w = None ->
  procs w !! p = Some P -> threads w !! t = Some th -> origin th = GoWait p ->
  returned w t = None ->
  (forall sp, exec.Process (cmd P) = Some sp -> os.state sp <> os.Running) ->
  copying or = false \/ sends_next (code th) = true ->
  exists w', step (Sched t or) w = Some w' /\ crashed w' = None.
Proof.
  intros HI Hcr HP Hth Ho Hret Hterm Hor.
  destruct (Forall2_lookup_l _ _ _ _ _ (proj1 HI) Hth) as (c & Hpc & Hcode & Hok).
  rewrite (step_sched w t or th c Hcr Hth Hcode).
  unfold returned in Hret. rewrite Hth, Hcode in Hret.
  rewrite Ho in Hok. rewrite Hcode in Hor.
  destruct c as [q g K|q b K|q K|q|old args| |c sk|c sk|q sk|q cx|q|q e|v];
    try discriminate; unfold pc_sem; cbn [pc_view sem].
  - cbn in Hok. apply Nat.eqb_eq in Hok. subst q. rewrite HP.
    destruct Hor as [Hor|Hor]; [|discriminate Hor].
    destruct (exec.Process (cmd P)) as [sp|] eqn:Hh.
    + specialize (Hterm sp eq_refl). rewrite Hor.
      destruct (os.state sp); [congruence| |]; eexists; split; try reflexivity; exact Hcr.
    + eexists; split; [reflexivity|exact Hcr].
  - cbn in Hok. apply Nat.eqb_eq in Hok. subst q. rewrite HP.
    destruct (proj1 (proj2 (proj2 HI)) p P HP) as (_ & _ & _ & _ & G5 & G6 & _).
    pose proof (count_lookup_le (pending p) pcs t _ Hpc) as Hle.
    cbn in Hle. rewrite Nat.eqb_refl in Hle. cbn in Hle.
    destruct (closed (exitCh P)); [cbn in G6; lia|].
    destruct (buf (exitCh P)); [|cbn in G6; lia].
    cbn. eexists; split; [reflexivity|exact Hcr].
Qed.

Lemma reaper_sends w pcs t th p P or :
  Inv w pcs -> crashed w = None ->
  procs w !! p = Some P -> threads w !! t = Some th -> origin th = GoWait p ->
  sends_next (code th) = true ->
  exists w', step (Sched t or) w = Some w' /\ crashed w' = None.
Proof.
  intros HI Hcr HP Hth Ho Hsn.
  destruct (Forall2_lookup_l _ _ _ _ _ (proj1 HI) Hth) as (c & Hpc & Hcode & Hok).
  rewrite (step_sched w t or th c Hcr Hth Hcode).
  rewrite Ho in Hok. rewrite Hcode in Hsn.
  destruct c as [q g K|q b K|q K|q|old args| |c sk|c sk|q sk|q cx|q|q e|v];
    try discriminate; unfold pc_sem; cbn [pc_view sem]; try (destruct v; discriminate).
  cbn in Hok. apply Nat.eqb_eq in Hok. subst q. rewrite HP.
  destruct (proj1 (proj2 (proj2 HI)) p P HP) as (_ & _ & _ & _ & G5 & G6 & _).
  pose proof (count_lookup_le (pending p) pcs t _ Hpc) as Hle.
  cbn in Hle. rewrite Nat.eqb_refl in Hle. cbn in Hle.
  destruct (closed (exitCh P)); [cbn in G6; lia|].
  destruct (buf (exitCh P)); [|cbn in G6; lia].
  cbn. eexists; split; [reflexivity|exact Hcr].
Qed.

(** C6.  [Start] returns the error of a failed launch, no controller, and
    leaves the world as it was.  After a launch, it returns a new
    controller whose exit channel is empty and open and has started exactly
    one goroutine, which runs [wait] on that controller.  In every reachable
    world, a controller has at most one background goroutine, at most one
    value was ever sent on its exit channel and the channel holds at most
    one; the send of the background goroutine never waits: whenever the
    goroutine is about to send, it can take that step; its wait for the
    process returns once the process has terminated and its streams are
    copied; and when the goroutine has returned, exactly one value was
    sent. *)
Theorem start_spawns_one_reaper :
  (forall w c or ors,
      exec.Process c = None ->
      (forall e, launch or = Some e ->
                 run (or :: ors) (Start c) w = Returns (None, Some e) w ors) /\
      (launch or = None ->
       forall or1 or2 ors', ors = or1 :: or2 :: ors' ->
         let n := length (procs w) in
         let c' := exec.with_Process c (Some launched) in
         run (or :: ors) (Start c) w = Returns (Some n, nil_error) (with_controller w c') ors' /\
         procs (with_controller w c') = (procs w ++ [new_proc c'])%list /\
         exitCh (new_proc c') = mkChan [] false /\
         threads (with_controller w c')
         = (threads w ++ [mkThread (GoWait n) (wait n ;; Ret RUnit)])%list)) /\
  (forall w, reachable w -> crashed w = None ->
     forall p P, procs w !! p = Some P ->
       sends P <= 1 /\ length (buf (exitCh P)) <= chan_cap /\
       (forall t1 t2 th1 th2,
           threads w !! t1 = Some th1 -> threads w !! t2 = Some th2 ->
           origin th1 = GoWait p -> origin th2 = GoWait p -> t1 = t2) /\
       (forall t th,
           threads w !! t = Some th -> origin th = GoWait p ->
           (forall v, code th = Ret v -> sends P = 1) /\
           (sends_next (code th) = true ->
            forall or, exists w', step (Sched t or) w = Some w' /\ crashed w' = None) /\
           (returned w t = None ->
            (forall sp, exec.Process (cmd P) = Some sp -> os.state sp <> os.Running) ->
            forall or, copying or = false ->
                       exists w', step (Sched t or) w = Some w' /\ crashed w' = None))).
Proof.
  split.
  - intros w c or ors Hh. split.
    + intros e Hl. exact (Start_fails w c or ors e Hh Hl).
    + intros Hl or1 or2 ors' -> n c'. split; [|split; [|split]]; try reflexivity.
      exact (Start_succeeds w c or or1 or2 ors' Hh Hl).
  - intros w Hw Hcr p P HP.
    destruct (reachable_Inv2 w Hw) as (pcs & HI & (U & R)).
    pose proof (proj1 (proj2 (proj2 HI)) p P HP) as (_ & _ & _ & _ & G5 & G6 & _).
    split; [lia|]. split; [unfold chan_cap; lia|]. split.
    + intros t1 t2 th1 th2 H1 H2 O1 O2.
      apply (reapers_unique p (threads w) t1 t2 th1 th2); try assumption.
      * specialize (U p). destruct (Nat.ltb p (length (procs w))); cbn in U; lia.
      * unfold is_reaper. rewrite O1. apply Nat.eqb_refl.
      * unfold is_reaper. rewrite O2. apply Nat.eqb_refl.
    + intros t th Hth Ho. split; [|split].
      * intros v Hcode. destruct (R t th v p Hth Ho Hcode) as (P' & HP' & Hs).
        congruence.
      * intros Hsn or.
        exact (reaper_sends w pcs t th p P or HI Hcr HP Hth Ho Hsn).
      * intros Hret Hterm or Hor.
        exact (reaper_enabled w pcs t th p P or HI Hcr HP Hth Ho Hret Hterm
                 (or_introl Hor)).
Qed.

Lemma start_spawns_one_reaper_witness :
  run [quiet; quiet; quiet] (Start sh_exit0) empty_world
  = Returns (Some 0, nil_error)
            (with_controller empty_world (exec.with_Process sh_exit0 (Some launched))) []
  /\ sends session_proc = 1.
Proof.
  destruct start_spawns_one_reaper as [HA HB]. split.
  - destruct (HA empty_world sh_exit0 quiet [quiet; quiet] eq_refl) as [_ H].
    exact (proj1 (H eq_refl quiet quiet [] eq_refl)).
  - destruct (HB (after session) session_reachable eq_refl 0 session_proc
                 session_proc_lookup) as (_ & _ & _ & H).
    exact (proj1 (H 1 (mkThread (GoWait 0) (Ret RUnit)) eq_refl eq_refl) RUnit eq_refl).
Defined.

Ltac dry_break H :=
  repeat match type of H with
         | context [match ?x with _ => _ end] =>
             match x with
             | context [match _ with _ => _ end] => fail 1
             | _ => idtac
             end;
             destruct x eqn:?; try discriminate
         end.

Lemma Dry_pc_step p w pcs t th c or c' w1 :
  Dry p w pcs -> threads w !! t = Some th -> pcs !! t = Some c ->
  origin_ok (origin th) c = true ->
  pc_sem c or w = Ok c' w1 ->
  Dry p (set_code w1 t th (denote c')) (<[t := c']> (pcs ++ spawned c)%list).
Proof.
  intros (HI & Hz & P & HP & Hb & Hcl & Hs) Hth Hpc Hok Hsem.
  split; [exact (Inv_pc_step w pcs t th c or c' w1 HI Hth Hpc Hok Hsem)|].
  assert (Hpc' : (pcs ++ spawned c)%list !! t = Some c) by (apply lookup_app_l_Some, Hpc).
  pose proof (count_insert (at_close p) _ t c c' Hpc') as Hc. rewrite count_app in Hc.
  assert (Hsp : count (at_close p) (spawned c) = 0) by (destruct c; reflexivity).
  pose proof (count_zero_lookup (at_close p) pcs t c Hz Hpc) as Hcf.
  destruct (proj1 (proj2 (proj2 HI)) p P HP) as (_ & _ & _ & _ & G5 & _).
  assert (Hpz : count (pending p) pcs = 0) by lia.
  pose proof (count_zero_lookup (pending p) pcs t c Hpz Hpc) as Hpf.
  rewrite Hcf, Hsp, Hz in Hc. cbn [b2n] in Hc.
  cut (at_close p c' = false /\
       exists P', procs w1 !! p = Some P' /\
                  buf (exitCh P') = [] /\ closed (exitCh P') = false /\ sends P' = 1).
  { intros (Hf & HP'). rewrite Hf in Hc. cbn [b2n] in Hc. split; [lia|exact HP']. }
  clear Hc Hsp Hpc' Hz G5 Hpz Hok Hpc Hth HI.
  destruct c as [q g K|q b K|q K|q|old args| |c sk|c sk|q sk|q cx|q|q e|v];
    try destruct b; try destruct g; unfold pc_sem in Hsem; cbn [pc_view body_view sem] in Hsem;
    try discriminate;
    try (destruct (procs w !! q) as [Q|] eqn:HQ; [|discriminate];
         destruct (Nat.eqb_spec q p) as [->|Hne];
         [rewrite HP in HQ; inversion HQ; subst Q;
          cbn [at_close pending] in Hcf, Hpf; rewrite ?Nat.eqb_refl in Hcf, Hpf;
          try discriminate;
          unfold recv_exit, chan_recv in Hsem; rewrite ?Hb, ?Hcl in Hsem
         |apply Nat.eqb_neq in Hne]);
    unfold recv_exit, chan_recv in Hsem;
    dry_break Hsem; inversion Hsem; subst c' w1;
    (split;
     [cbn [at_close body_start]; break_match; rewrite ?Hne; reflexivity
     |first [ exists P; split; [exact HP|auto]
            | rewrite lookup_set_proc_ne by (apply Nat.eqb_neq; assumption);
              exists P; split; [exact HP|auto]
            | rewrite (lookup_set_proc _ _ _ _ HP);
              eexists; split; [reflexivity|cbn; auto]
            | cbn; exists P; split; [apply lookup_app_l_Some, HP|auto] ]]).
Qed.

Lemma second_wait_world :
  after session_second_wait =
  mkWorld [mkProc (exec.with_Process sh_exit0 (Some (os.mkProcess os.Reaped [])))
                  (mkChan [] false) (mkOnce Fresh nil_error) 1 0 0]
          []
          [mkThread (CallStart sh_exit0) (Ret (RProc (Some 0, nil_error)));
           mkThread (GoWait 0) (Ret RUnit);
           mkThread (CallWait 0 Background) (Ret (RErr nil_error));
           spawn (CallWait 0 Background)]
          None.
Proof. vm_compute. reflexivity. Qed.

Lemma second_wait_Dry :
  Dry 0 (after session_second_wait)
      [PDone (RProc (Some 0, nil_error)); PDone RUnit; PDone (RErr nil_error);
       PWait 0 Background].
Proof.
  rewrite second_wait_world. split; [|split].
  - split; [|split; [|split]].
    + repeat constructor.
    + intros [|q] Hq; cbn in Hq; [lia|reflexivity].
    + intros [|q] Q HQ; [|discriminate]. cbn in HQ. inversion HQ; subst Q.
      unfold good, collected. cbn. repeat split; try lia; discriminate.
    + intros t th v q Hth Hcode Hg. exfalso.
      destruct t as [|[|[|[|t]]]]; cbn in Hth; inversion Hth; subst th;
        discriminate.
  - reflexivity.
  - eexists. split; [reflexivity|]. cbn. auto.
Qed.

Lemma Dry_step p t w pcs l w' :
  Dry p w pcs -> pcs !! t = Some (PWait p Background) ->
  step l w = Some w' ->
  exists pcs', Dry p w' pcs' /\ pcs' !! t = Some (PWait p Background).
Proof.
  intros HD Ht Hstep. pose proof HD as (HI & Hz & P & HP & Hb & Hcl & Hs).
  unfold step in Hstep.
  destruct (crashed w) eqn:Hcr; [discriminate|].
  destruct l as [t0 or|q werr|id|c].
  - destruct (threads w !! t0) as [th|] eqn:Hth; [|discriminate].
    destruct (Forall2_lookup_l _ _ _ _ _ (proj1 HI) Hth) as (c & Hpc & Hcode & Hok).
    assert (Hst := step_sched w t0 or th c Hcr Hth Hcode).
    unfold step in Hst. rewrite Hcr, Hth in Hst. rewrite Hst in Hstep. clear Hst.
    destruct (pc_sem c or w) as [c' w1| |r] eqn:Hsem; inversion Hstep; subst w'.
    + eexists. split; [exact (Dry_pc_step p w pcs t0 th c or c' w1 HD Hth Hpc Hok Hsem)|].
      destruct (decide (t0 = t)) as [->|Hne].
      * exfalso. rewrite Ht in Hpc. inversion Hpc; subst c.
        unfold pc_sem in Hsem. cbn [pc_view] in Hsem.
        rewrite (sem_select_blocked w p P or HP Background Hb Hcl eq_refl) in Hsem.
        discriminate.
      * rewrite list_lookup_insert_ne by exact Hne. apply lookup_app_l_Some, Ht.
    + exists pcs. split; [|exact Ht]. split; [apply Inv_crashed, HI|].
      split; [exact Hz|]. exists P. auto.
  - destruct (procs w !! q) as [Q|] eqn:HQ; [|discriminate].
    destruct (exec.Process (cmd Q)) as [sp|] eqn:Hh; [|discriminate].
    destruct (os.state sp) eqn:Hst; inversion Hstep; subst w'.
    exists pcs. split; [|exact Ht].
    split; [exact (Inv_exit w pcs q Q sp werr HI HQ Hh Hst)|]. split; [exact Hz|].
    destruct (decide (q = p)) as [->|Hne].
    + rewrite HP in HQ. inversion HQ; subst Q.
      exists (terminate P sp werr). split; [eapply lookup_set_proc, HP|auto].
    + exists P. rewrite lookup_set_proc_ne by exact Hne. auto.
  - inversion Hstep; subst w'. exists pcs. split; [|exact Ht].
    split; [apply Inv_cancelled, HI|]. split; [exact Hz|]. exists P. auto.
  - destruct (callable w c) eqn:Hc; inversion Hstep; subst w'.
    exists (pcs ++ [pc_of_call c])%list. split; [|apply lookup_app_l_Some, Ht].
    split; [exact (Inv_call w pcs c HI Hc)|]. split.
    + rewrite count_snoc, Hz. destruct c; reflexivity.
    + exists P. auto.
Qed.

Lemma Dry_steps p t ls : forall w pcs w',
  Dry p w pcs -> pcs !! t = Some (PWait p Background) ->
  steps ls w = Some w' -> returned w' t = None.
Proof.
  induction ls as [|l ls IH]; intros w pcs w' HD Ht Hs; cbn in Hs.
  - inversion Hs; subst w'. destruct HD as ((HF & _) & _).
    destruct (Forall2_lookup_r _ _ _ _ _ HF Ht) as (th & Hth & Hcode & _).
    unfold returned. rewrite Hth, Hcode. reflexivity.
  - destruct (step l w) as [w1|] eqn:Hstep; [|discriminate].
    destruct (Dry_step p t w pcs l w1 HD Ht Hstep) as (pcs1 & HD1 & Ht1).
    exact (IH w1 pcs1 w' HD1 Ht1 Hs).
Qed.

(** C7, as stated, fails.  In the session, the process has terminated, the
    background goroutine has sent its status and the first [Wait] (goroutine
    2) has taken it out of the exit channel and returned.  A second [Wait]
    with the background context (goroutine 3) never returns, whatever
    happens next: the exit channel stays open and empty.  So it is not the
    case that a [Wait] called after the exit channel was drained always
    returns. *)
Lemma second_wait_blocks_forever :
  reachable (after session_second_wait) /\
  returned (after session_second_wait) 2 = Some (RErr nil_error) /\
  threads (after session_second_wait) !! 3 = Some (spawn (CallWait 0 Background)) /\
  (forall ls w',
      steps ls (after session_second_wait) = Some w' -> returned w' 3 = None) /\
  ~ (forall w p P t cx,
        reachable w -> procs w !! p = Some P ->
        sends P = 1 -> buf (exitCh P) = [] ->
        threads w !! t = Some (spawn (CallWait p cx)) ->
        exists ls w' v, steps ls w = Some w' /\ returned w' t = Some v).
Proof.
  assert (Hr : reachable (after session_second_wait))
    by (exists session_second_wait; vm_compute; reflexivity).
  assert (Hn : forall ls w',
             steps ls (after session_second_wait) = Some w' -> returned w' 3 = None).
  { intros ls w' Hs.
    exact (Dry_steps 0 3 ls _ _ w' second_wait_Dry eq_refl Hs). }
  split; [exact Hr|]. split; [rewrite second_wait_world; reflexivity|].
  split; [rewrite second_wait_world; reflexivity|]. split; [exact Hn|].
  intros H.
  destruct (H (after session_second_wait) 0
              (mkProc (exec.with_Process sh_exit0 (Some (os.mkProcess os.Reaped [])))
                      (mkChan [] false) (mkOnce Fresh nil_error) 1 0 0)
              3 Background Hr) as (ls & w' & v & Hs & Hv);
    try (rewrite second_wait_world; reflexivity); try reflexivity.
  rewrite (Hn ls w' Hs) in Hv. discriminate.
Qed.

(** C7, amended.  In a reachable world, take a controller whose exit channel
    was sent on and is empty again.  If the channel is closed (which only
    the function under the guard does, for [Stop] or [Kill]), a [Wait] whose
    [select] takes the channel returns nil, the zero value, at once and
    changes nothing.  If the channel is open, a [Wait] whose context is not
    done waits, a [Wait] whose context is done goes on with [Kill], and,
    when no goroutine is inside the guard, a [Wait] with the background
    context that is called now never returns. *)
Theorem wait_after_drain (w : world) (p : pid) (P : Process)
  (Hw : reachable w) (HP : procs w !! p = Some P)
  (Hs : sends P = 1) (Hb : buf (exitCh P) = []) :
  (closed (exitCh P) = true ->
   o (once P) <> Fresh /\
   forall cx or ors, exit_wins w cx or ->
     run (or :: ors) (Wait p cx) w = Returns nil_error w ors) /\
  (closed (exitCh P) = false ->
   (forall cx or ors, ctx_done w cx = false ->
      run (or :: ors) (Wait p cx) w = Waits (Wait p cx) w) /\
   (forall cx or ors, ctx_done w cx = true ->
      run (or :: ors) (Wait p cx) w = run ors (Kill p) w) /\
   (o (once P) <> Locked ->
    forall ls w',
      steps (Call (CallWait p Background) :: ls) w = Some w' ->
      returned w' (length (threads w)) = None)).
Proof.
  destruct (reachable_Inv w Hw) as (pcs & HI).
  pose proof (proj1 (proj2 (proj2 HI)) p P HP) as (G1 & _ & _ & G4 & _).
  split.
  - intros Hc. split; [exact (proj1 (G4 Hc))|].
    intros cx or ors Hx. exact (Wait_closed w p P HP cx or ors Hb Hc Hx).
  - intros Hc. split; [|split].
    + intros cx or ors Hd. exact (Wait_blocks w p P HP cx or ors Hb Hc Hd).
    + intros cx or ors Hd. exact (Wait_timeout w p P HP cx or ors Hb Hc Hd).
    + intros Ho ls w' Hst. cbn [steps] in Hst.
      destruct (step (Call (CallWait p Background)) w) as [w1|] eqn:Hcall; [|discriminate].
      unfold step in Hcall. destruct (crashed w); [discriminate|].
      destruct (callable w (CallWait p Background)) eqn:Hcb; inversion Hcall; subst w1.
      assert (Hz : count (at_close p) pcs = 0).
      { pose proof (at_close_le p pcs). pose proof (may_close_le p pcs).
        destruct (o (once P)); cbn in G1; try lia. congruence. }
      assert (HD : Dry p (set_threads w (threads w ++ [spawn (CallWait p Background)]))
                       (pcs ++ [pc_of_call (CallWait p Background)])%list).
      { split; [exact (Inv_call w pcs _ HI Hcb)|]. split.
        - rewrite count_snoc, Hz. reflexivity.
        - exists P. auto. }
      apply (Dry_steps p (length (threads w)) ls _ _ w' HD); [|exact Hst].
      rewrite (Forall2_length _ _ _ (proj1 HI)).
      rewrite lookup_app_r by lia. rewrite Nat.sub_diag. reflexivity.
Qed.

Lemma wait_after_drain_witness :
  run [quiet] (Wait 0 Background) (after session)
  = Waits (Wait 0 Background) (after session).
Proof.
  destruct (wait_after_drain (after session) 0 session_proc
              session_reachable session_proc_lookup eq_refl eq_refl) as [_ H].
  destruct (H eq_refl) as (H1 & _).
  exact (H1 Background quiet [] eq_refl).
Defined.

(** ** What a goroutine on its own leaves as it is *)

Lemma run_frame {A : Type} ors : forall (m : prog A) w a w1 rest,
  run ors m w = Returns a w1 rest ->
  forall q Q, procs w !! q = Some Q ->
    exists Q', procs w1 !! q = Some Q' /\ descriptor (cmd Q') = descriptor (cmd Q).
Proof.
  induction ors as [|or ors IH]; intros m w a w1 rest Hrun q Q HQ.
  - destruct m; cbn in Hrun; inversion Hrun; subst. exists Q. auto.
  - destruct m as [a0|X e k]; cbn in Hrun.
    + inversion Hrun; subst. exists Q. auto.
    + destruct (sem e or w) as [x w'| |r] eqn:Hsem; try discriminate.
      destruct (sem_frame e or w x w' Hsem) as (_ & _ & Hf).
      destruct (Hf q Q HQ) as (Q1 & HQ1 & Hd1 & _).
      destruct (IH (k x) w' a w1 rest Hrun q Q1 HQ1) as (Q' & HQ' & Hd').
      exists Q'. split; [exact HQ'|congruence].
Qed.

(** C8.  [Restart] runs [Stop] with its own context first.  When [Stop]
    returns an error, [Restart] returns that error and no controller, in the
    world [Stop] left and with nothing else done.  When [Stop] returns nil
    and the old command has no arguments, [Restart] panics on
    [p.cmd.Args[1:]] and launches nothing.  When [Stop] returns nil and the
    old command has an argument zero, [Restart] builds the next command
    with [exec.Command] from the old path and the old arguments without the
    first, and copies the environment, the directory, the three streams and
    the extra files of the old command, which are as they were before
    [Stop]; it has no process.  If the launch fails, its error is returned
    and no controller; otherwise a new controller is returned, at a new
    index, with its own handle, an empty open exit channel and a fresh
    guard, and the controllers that existed are as [Stop] left them. *)
Theorem restart_stops_then_starts
  (w : world) (p : pid) (P : Process) (cx : ctx) (ors : list oracle)
  (e : error) (w1 : world) (rest : list oracle)
  (HP : procs w !! p = Some P)
  (Hstop : run ors (Stop p cx) w = Returns e w1 rest) :
  (e <> nil_error -> run ors (Restart p cx) w = Returns (None, e) w1 rest) /\
  (e = nil_error ->
   exists P1, procs w1 !! p = Some P1 /\ descriptor (cmd P1) = descriptor (cmd P) /\
   (exec.Args (cmd P) = [] ->
    forall or0 or1 rest', rest = or0 :: or1 :: rest' ->
      run ors (Restart p cx) w = Aborts SliceBoundsOutOfRange w1) /\
   forall a0 args, exec.Args (cmd P) = a0 :: args ->
   forall or0 or1 or2 or3 or4 rest',
     rest = or0 :: or1 :: or2 :: or3 :: or4 :: rest' ->
     let next := restart_cmd (cmd P1) (resolved or1 (exec.Path (cmd P))) args in
     let c' := exec.with_Process next (Some launched) in
     let n := length (procs w1) in
     (exec.Path next = resolved or1 (exec.Path (cmd P)) /\
      (lookpath or1 = None -> exec.Path next = exec.Path (cmd P)) /\
      exec.Args next = exec.Path (cmd P) :: args /\
      exec.Env next = exec.Env (cmd P) /\
      exec.Dir next = exec.Dir (cmd P) /\
      exec.Stdin next = exec.Stdin (cmd P) /\
      exec.Stdout next = exec.Stdout (cmd P) /\
      exec.Stderr next = exec.Stderr (cmd P) /\
      exec.ExtraFiles next = exec.ExtraFiles (cmd P) /\
      exec.Process next = None) /\
     (forall le, launch or2 = Some le ->
        run ors (Restart p cx) w = Returns (None, Some le) w1 (or3 :: or4 :: rest')) /\
     (launch or2 = None ->
        run ors (Restart p cx) w
        = Returns (Some n, nil_error) (with_controller w1 c') rest' /\
        n <> p /\
        procs (with_controller w1 c') !! n = Some (new_proc c') /\
        (forall q Q, procs w1 !! q = Some Q ->
                     procs (with_controller w1 c') !! q = Some Q) /\
        exec.Process (cmd (new_proc c')) = Some launched /\
        exitCh (new_proc c') = mkChan [] false /\
        once (new_proc c') = mkOnce Fresh nil_error)).
Proof.
  pose proof (Restart_after_Stop w p cx ors) as HR. rewrite Hstop in HR.
  split.
  - intros He. destruct e as [e|]; [exact HR|exfalso; apply He; reflexivity].
  - intros ->. unfold nil_error in HR. cbn [notnil] in HR.
    destruct (run_frame ors (Stop p cx) w nil_error w1 rest Hstop p P HP)
      as (P1 & HP1 & Hd).
    exists P1. split; [exact HP1|]. split; [exact Hd|].
    split.
    { intros Ha or0 or1 rest' ->. rewrite HR.
      assert (Ha1 : exec.Args (cmd P1) = []).
      { unfold descriptor in Hd. injection Hd as _ Hargs _ _ _ _ _ _. congruence. }
      unfold relaunch. cbn [bind trigger].
      rewrite run_vis, (sem_get_cmd w1 p P1 or0 HP1), Ha1. reflexivity. }
    intros a0 args Ha or0 or1 or2 or3 or4 rest' -> next c' n.
    unfold descriptor in Hd. injection Hd as Hpath Hargs Henv Hdir Hin Hout Herr Hex.
    assert (Ha1 : exec.Args (cmd P1) = a0 :: args) by congruence.
    rewrite (relaunch_starts w1 p P1 a0 args or0 or1 _ HP1 Ha1), Hpath in HR.
    split; [|split].
    + split; [reflexivity|].
      split; [intros Hl; cbn; unfold resolved; rewrite Hl; reflexivity|].
      cbn. repeat split; congruence.
    + intros le Hl. rewrite HR. exact (Start_fails w1 next or2 _ le eq_refl Hl).
    + intros Hl. split; [|split; [|split; [|split; [|split]]]]; try reflexivity.
      * rewrite HR. exact (Start_succeeds w1 next or2 or3 or4 rest' eq_refl Hl).
      * subst n. apply lookup_lt_Some in HP1. lia.
      * subst n. cbn. rewrite lookup_app_r by lia. rewrite Nat.sub_diag. reflexivity.
      * intros q Q HQ. cbn. apply lookup_app_l_Some, HQ.
      * split; reflexivity.
Qed.

Lemma restart_stops_then_starts_witness :
  run (repeat quiet 9) (Restart 0 Background) (one_proc unstarted)
  = Returns (Some 1, nil_error)
      (with_controller
         (set_proc (one_proc unstarted) 0 (finish_once (lock_once unstarted) nil_error))
         (exec.with_Process (restart_cmd sh_exit0 "/bin/sh" ["-c"; "exit 0"])
                            (Some launched)))
      [] /\
  let Pb := set_cmd (started os.Reaped)
                    (exec.with_Process bare (Some (os.mkProcess os.Reaped []))) in
  run (repeat quiet 7) (Restart 0 Background) (one_proc Pb)
  = Aborts SliceBoundsOutOfRange
           (set_proc (one_proc Pb) 0 (finish_once (lock_once Pb) nil_error)).
Proof.
  split.
  - destruct (restart_stops_then_starts (one_proc unstarted) 0 unstarted Background
                (repeat quiet 9) nil_error
                (set_proc (one_proc unstarted) 0 (finish_once (lock_once unstarted) nil_error))
                (repeat quiet 5) eq_refl eq_refl) as [_ H].
    destruct (H eq_refl) as (P1 & HP1 & _ & _ & H1).
    cbn in HP1. inversion HP1; subst P1.
    destruct (H1 "sh" ["-c"; "exit 0"] eq_refl quiet quiet quiet quiet quiet [] eq_refl)
      as (_ & _ & H2).
    exact (proj1 (H2 eq_refl)).
  - intros Pb.
    destruct (restart_stops_then_starts (one_proc Pb) 0 Pb Background
                (repeat quiet 7) nil_error
                (set_proc (one_proc Pb) 0 (finish_once (lock_once Pb) nil_error))
                (repeat quiet 2) eq_refl eq_refl) as [_ H].
    destruct (H eq_refl) as (P1 & _ & _ & H1 & _).
    exact (H1 eq_refl quiet quiet [] eq_refl).
Defined.

(** C10.  Let the guard of a controller be fresh, and let the command have
    no process handle, or the signal be answered with an error that wraps
    [os.ErrProcessDone].  Then [stop] and [kill] return nil and change
    nothing, and [Stop] and [Kill] return nil and change only the guard: the
    exit channel holds what it held, was not closed, and no value was sent
    or taken.  A [Wait] that follows and whose [select] takes the exit
    channel returns the value at the head of the channel, which the
    background goroutine had sent. *)
Theorem trivial_stop_keeps_exit_channel
  (w : world) (p : pid) (P : Process) (cx : ctx) (or0 or1 or2 or3 or4 : oracle)
  (ors : list oracle)
  (HP : procs w !! p = Some P) (Ho : o (once P) = Fresh) (Hg : gone P or2) :
  let w1 := set_proc w p (finish_once (lock_once P) nil_error) in
  (exists rest, run (or1 :: or2 :: ors) (stop p cx) w = Returns nil_error w rest) /\
  (exists rest, run (or1 :: or2 :: ors) (kill p) w = Returns nil_error w rest) /\
  yields (or0 :: or1 :: or2 :: or3 :: or4 :: ors) (Stop p cx) w nil_error w1 /\
  yields (or0 :: or1 :: or2 :: or3 :: or4 :: ors) (Kill p) w nil_error w1 /\
  exists P1,
    procs w1 !! p = Some P1 /\
    exitCh P1 = exitCh P /\ sends P1 = sends P /\ closes P1 = closes P /\
    cmd P1 = cmd P /\
    forall e rest cx' or ors',
      buf (exitCh P) = e :: rest -> exit_wins w1 cx' or ->
      run (or :: ors') (Wait p cx') w1
      = Returns e (set_proc w1 p (drained P1 rest)) ors'.
Proof.
  intros w1. split; [|split; [|split; [|split]]].
  - eexists. exact (stop_gone w p P cx or1 or2 ors HP Hg).
  - eexists. exact (kill_gone w p P or1 or2 ors HP Hg).
  - exact (Stop_gone w p P cx or0 or1 or2 or3 or4 ors HP Ho Hg).
  - exact (Kill_gone w p P or0 or1 or2 or3 or4 ors HP Ho Hg).
  - pose proof (lookup_set_proc w p P (finish_once (lock_once P) nil_error) HP) as HP1.
    eexists. split; [exact HP1|]. repeat split; try reflexivity.
    intros e rest cx' or ors' Hb Hx.
    exact (Wait_exit w1 p _ HP1 cx' or ors' e rest Hb Hx).
Qed.

Lemma trivial_stop_keeps_exit_channel_witness :
  let P := deposited (Some (exit_status 1)) in
  let w1 := set_proc (one_proc P) 0 (finish_once (lock_once P) nil_error) in
  yields (repeat quiet 5) (Stop 0 Background) (one_proc P) nil_error w1 /\
  run [quiet] (Wait 0 Background) w1
  = Returns (Some (exit_status 1))
            (set_proc w1 0 (drained (finish_once (lock_once P) nil_error) [])) [].
Proof.
  intros P w1.
  destruct (trivial_stop_keeps_exit_channel (one_proc P) 0 P Background
              quiet quiet quiet quiet quiet [] eq_refl eq_refl (or_introl eq_refl))
    as (_ & _ & HS & _ & P1 & HP1 & _ & _ & _ & _ & HW).
  split; [exact HS|].
  cbn in HP1. inversion HP1; subst P1.
  exact (HW (Some (exit_status 1)) [] Background quiet [] eq_refl (or_introl eq_refl)).
Defined.

(** ** Properties that every step keeps *)

Section EachInv.
Variables (phi : Process -> Prop) (psi : pc -> Prop) (ok : label -> bool).
Hypothesis H_sem : forall c or w c' w1,
  (forall q P, procs w !! q = Some P -> phi P) -> psi c ->
  pc_sem c or w = Ok c' w1 ->
  (forall q P, procs w1 !! q = Some P -> phi P) /\ psi c' /\
  (forall i c0, spawned c !! i = Some c0 -> psi c0).
Hypothesis H_exit : forall P sp werr, phi P -> phi (terminate P sp werr).
Hypothesis H_call : forall c, ok (Call c) = true -> psi (pc_of_call c).

Lemma Each_step w pcs l w' :
  Inv w pcs -> Each phi psi w pcs -> ok l = true -> step l w = Some w' ->
  exists pcs', Inv w' pcs' /\ Each phi psi w' pcs'.
Proof using H_sem H_exit H_call.
  intros HI (Hphi & Hpsi) Hok Hstep. unfold step in Hstep.
  destruct (crashed w) eqn:Hcr; [discriminate|].
  destruct l as [t or|p werr|id|c].
  - destruct (threads w !! t) as [th|] eqn:Hth; [|discriminate].
    destruct (Forall2_lookup_l _ _ _ _ _ (proj1 HI) Hth) as (c & Hpc & Hcode & Hoc).
    assert (Hs := step_sched w t or th c Hcr Hth Hcode).
    unfold step in Hs. rewrite Hcr, Hth in Hs. rewrite Hs in Hstep. clear Hs.
    destruct (pc_sem c or w) as [c' w1| |r] eqn:Hsem; inversion Hstep; subst w'.
    + destruct (H_sem c or w c' w1 Hphi (Hpsi t c Hpc) Hsem) as (Hphi' & Hc' & Hsp).
      eexists. split; [exact (Inv_pc_step w pcs t th c or c' w1 HI Hth Hpc Hoc Hsem)|].
      split; [exact Hphi'|]. intros t0 c0 Ht0.
      destruct (decide (t0 = t)) as [->|Hne].
      * rewrite list_lookup_insert_eq in Ht0.
        -- inversion Ht0; subst c0. exact Hc'.
        -- rewrite length_app. apply lookup_lt_Some in Hpc. lia.
      * rewrite list_lookup_insert_ne in Ht0 by congruence.
        apply lookup_app_Some in Ht0. destruct Ht0 as [Ht0|[_ Ht0]].
        -- exact (Hpsi t0 c0 Ht0).
        -- exact (Hsp _ _ Ht0).
    + exists pcs. split; [apply Inv_crashed, HI|]. split; assumption.
  - destruct (procs w !! p) as [P|] eqn:HP; [|discriminate].
    destruct (exec.Process (cmd P)) as [sp|] eqn:Hh; [|discriminate].
    destruct (os.state sp) eqn:Hst; inversion Hstep; subst w'.
    exists pcs. split; [exact (Inv_exit w pcs p P sp werr HI HP Hh Hst)|].
    split; [|exact Hpsi]. intros q Q HQ.
    destruct (decide (q = p)) as [->|Hne].
    + rewrite (lookup_set_proc _ _ _ _ HP) in HQ. inversion HQ; subst Q.
      apply H_exit, (Hphi p P HP).
    + rewrite lookup_set_proc_ne in HQ by congruence. exact (Hphi q Q HQ).
  - inversion Hstep; subst w'. exists pcs. split; [apply Inv_cancelled, HI|].
    split; assumption.
  - destruct (callable w c) eqn:Hc; inversion Hstep; subst w'.
    exists (pcs ++ [pc_of_call c])%list. split; [exact (Inv_call w pcs c HI Hc)|].
    split; [exact Hphi|]. intros t0 c0 Ht0.
    apply lookup_app_Some in Ht0. destruct Ht0 as [Ht0|[_ Ht0]].
    + exact (Hpsi t0 c0 Ht0).
    + destruct (t0 - length pcs) as [|n]; cbn in Ht0; [|discriminate].
      inversion Ht0; subst c0. apply H_call, Hok.
Qed.

Lemma Each_steps ls : forall w pcs w',
  Inv w pcs -> Each phi psi w pcs -> forallb ok ls = true -> steps ls w = Some w' ->
  exists pcs', Inv w' pcs' /\ Each phi psi w' pcs'.
Proof using H_sem H_exit H_call.
  induction ls as [|l ls IH]; intros w pcs w' HI HE Hok Hs; cbn in Hs, Hok.
  - inversion Hs; subst. exists pcs. auto.
  - apply andb_prop in Hok. destruct Hok as [Hl Hls].
    destruct (step l w) as [w1|] eqn:Hstep; [|discriminate].
    destruct (Each_step w pcs l w1 HI HE Hl Hstep) as (pcs1 & HI1 & HE1).
    exact (IH w1 pcs1 w' HI1 HE1 Hls Hs).
Qed.

End EachInv.

Lemma Each_empty phi psi : Each phi psi empty_world [].
Proof. split; intros ? ? H; discriminate. Qed.

Lemma handles_sem c or w c' w1 :
  (forall q P, procs w !! q = Some P -> has_handle P) -> wraps_handle c ->
  pc_sem c or w = Ok c' w1 ->
  (forall q P, procs w1 !! q = Some P -> has_handle P) /\ wraps_handle c' /\
  (forall i c0, spawned c !! i = Some c0 -> wraps_handle c0).
Proof.
  intros Hphi Hpsi Hsem.
  assert (Hset : forall q Q P', procs w !! q = Some Q -> has_handle P' ->
             forall q0 P0, procs (set_proc w q P') !! q0 = Some P0 -> has_handle P0).
  { intros q Q P' HQ HP' q0 P0 H0. destruct (decide (q0 = q)) as [->|Hne].
    - rewrite (lookup_set_proc _ _ _ _ HQ) in H0. inversion H0; subst. exact HP'.
    - rewrite lookup_set_proc_ne in H0 by congruence. exact (Hphi q0 P0 H0). }
  split; [|split].
  - destruct c as [q g K|q b K|q K|q|old args| |c sk|c sk|q sk|q cx|q|q e|v];
      try destruct b; unfold pc_sem in Hsem; cbn [pc_view body_view sem] in Hsem;
      try discriminate;
      try (destruct (procs w !! q) as [Q|] eqn:HQ; [|discriminate];
           pose proof (Hphi q Q HQ) as HhQ);
      unfold recv_exit, chan_recv in Hsem;
      dry_break Hsem; inversion Hsem; subst c' w1;
      first [ exact Hphi
            | apply (Hset _ _ _ HQ); unfold has_handle in *; cbn; first [assumption|discriminate]
            | idtac ].
    intros q P HP. cbn in HP. apply lookup_app_Some in HP.
    destruct HP as [HP|[_ HP]]; [exact (Hphi q P HP)|].
    destruct (q - length (procs w)) as [|n]; cbn in HP; [|discriminate].
    inversion HP; subst P. exact Hpsi.
  - destruct c as [q g K|q b K|q K|q|old args| |c sk|c sk|q sk|q cx|q|q e|v];
      try destruct b; unfold pc_sem in Hsem; cbn [pc_view body_view sem] in Hsem;
      try discriminate;
      try (destruct (procs w !! q) as [Q|] eqn:HQ; [|discriminate]);
      unfold recv_exit, chan_recv in Hsem;
      dry_break Hsem; inversion Hsem; subst c' w1; cbn; break_match;
      try exact I; discriminate.
  - intros i c0 H0. destruct c; try discriminate.
    destruct i; cbn in H0; [|discriminate]. inversion H0; subst. exact I.
Qed.

Lemma handles_exit P sp werr : has_handle P -> has_handle (terminate P sp werr).
Proof. intros _. unfold has_handle. cbn. discriminate. Qed.

Lemma handles_call c : (fun _ : label => true) (Call c) = true -> wraps_handle (pc_of_call c).
Proof. intros _. destruct c; exact I. Qed.

Lemma reachable_handles w :
  reachable w -> exists pcs, Inv w pcs /\ Each has_handle wraps_handle w pcs.
Proof.
  intros (ls & Hs).
  apply (Each_steps has_handle wraps_handle (fun _ => true)
           handles_sem handles_exit handles_call ls empty_world [] w
           Inv_empty (Each_empty _ _)); [|exact Hs].
  clear Hs. induction ls; [reflexivity|exact IHls].
Qed.

(** ** The panics that can happen *)

Lemma only_slice_panic w pcs t c or r :
  Inv w pcs -> Each has_handle wraps_handle w pcs ->
  pcs !! t = Some c -> pc_sem c or w = Panics r ->
  c = PPanicking /\ r = SliceBoundsOutOfRange.
Proof.
  intros HI (Hphi & _) Hpc Hsem.
  destruct (no_channel_panic w pcs t c or r HI Hpc Hsem) as [Hn1 Hn2].
  destruct c as [q g K|q b K|q K|q|old args| |c sk|c sk|q sk|q cx|q|q e|v];
    try destruct b; unfold pc_sem in Hsem; cbn [pc_view body_view sem] in Hsem;
    try discriminate;
    try (destruct (procs w !! q) as [Q|] eqn:HQ;
         [pose proof (Hphi q Q HQ) as HhQ;
          pose proof (proj1 (proj2 (proj2 HI)) q Q HQ) as (G1 & _)
         |exfalso; apply lookup_ge_None in HQ;
          pose proof (proj1 (proj2 HI) q HQ) as Hr;
          pose proof (count_lookup_le (refers q) pcs t _ Hpc) as Hle;
          cbn in Hle; rewrite Nat.eqb_refl in Hle; cbn in Hle; lia]);
    unfold recv_exit, chan_recv in Hsem;
    try (unfold has_handle in HhQ;
         destruct (exec.Process (cmd Q)) as [sp|] eqn:Hh; [|congruence]);
    dry_break Hsem; inversion Hsem; subst r; try congruence;
    try (exfalso;
         pose proof (count_lookup_le (in_body q) pcs t _ Hpc) as Hle;
         cbn in Hle; rewrite Nat.eqb_refl in Hle;
         cbn in Hle, G1; lia).
  split; reflexivity.
Qed.

Lemma steps_only_slice ls : forall w pcs w' r,
  Inv w pcs -> Each has_handle wraps_handle w pcs -> crashed w = None ->
  steps ls w = Some w' -> crashed w' = Some r -> r = SliceBoundsOutOfRange.
Proof.
  induction ls as [|l ls IH]; intros w pcs w' r HI HE Hcr Hs Hr; cbn in Hs.
  - inversion Hs; subst. congruence.
  - destruct (step l w) as [w1|] eqn:Hstep; [|discriminate].
    destruct (crashed w1) as [r1|] eqn:Hr1.
    + destruct ls as [|l' ls]; cbn in Hs.
      * inversion Hs; subst w'.
        destruct (step_crashed w l w1 r1 Hstep Hr1) as (t & or & th & -> & Hth & _ & Hp).
        destruct (Forall2_lookup_l _ _ _ _ _ (proj1 HI) Hth) as (c & Hpc & Hcode & _).
        destruct (only_slice_panic w pcs t c or r1 HI HE Hpc (Hp c Hcode)) as [_ ->].
        congruence.
      * unfold step in Hs. rewrite Hr1 in Hs. discriminate.
    + destruct (Each_step has_handle wraps_handle (fun _ => true)
                  handles_sem handles_exit handles_call w pcs l w1 HI HE eq_refl Hstep)
        as (pcs1 & HI1 & HE1).
      exact (IH w1 pcs1 w' r HI1 HE1 Hr1 Hs Hr).
Qed.

Lemma args_sem c or w c' w1 :
  (forall q P, procs w !! q = Some P -> has_args (cmd P) = true) -> launches_args c ->
  pc_sem c or w = Ok c' w1 ->
  (forall q P, procs w1 !! q = Some P -> has_args (cmd P) = true) /\ launches_args c' /\
  (forall i c0, spawned c !! i = Some c0 -> launches_args c0).
Proof.
  intros Hphi Hpsi Hsem.
  assert (Hset : forall q Q P', procs w !! q = Some Q -> has_args (cmd P') = true ->
             forall q0 P0, procs (set_proc w q P') !! q0 = Some P0 ->
                           has_args (cmd P0) = true).
  { intros q Q P' HQ HP' q0 P0 H0. destruct (decide (q0 = q)) as [->|Hne].
    - rewrite (lookup_set_proc _ _ _ _ HQ) in H0. inversion H0; subst. exact HP'.
    - rewrite lookup_set_proc_ne in H0 by congruence. exact (Hphi q0 P0 H0). }
  split; [|split].
  - destruct c as [q g K|q b K|q K|q|old args| |c sk|c sk|q sk|q cx|q|q e|v];
      try destruct b; unfold pc_sem in Hsem; cbn [pc_view body_view sem] in Hsem;
      try discriminate;
      try (destruct (procs w !! q) as [Q|] eqn:HQ; [|discriminate];
           pose proof (Hphi q Q HQ) as HhQ);
      unfold recv_exit, chan_recv in Hsem;
      dry_break Hsem; inversion Hsem; subst c' w1;
      first [ exact Hphi
            | apply (Hset _ _ _ HQ); exact HhQ
            | idtac ].
    intros q P HP. cbn in HP. apply lookup_app_Some in HP.
    destruct HP as [HP|[_ HP]]; [exact (Hphi q P HP)|].
    destruct (q - length (procs w)) as [|n]; cbn in HP; [|discriminate].
    inversion HP; subst P. exact Hpsi.
  - destruct c as [q g K|q b K|q K|q|old args| |c sk|c sk|q sk|q cx|q|q e|v];
      try destruct b; unfold pc_sem in Hsem; cbn [pc_view body_view sem] in Hsem;
      try discriminate;
      try (destruct (procs w !! q) as [Q|] eqn:HQ; [|discriminate];
           pose proof (Hphi q Q HQ) as HhQ);
      unfold recv_exit, chan_recv in Hsem;
      dry_break Hsem; inversion Hsem; subst c' w1; cbn; break_match;
      try exact I; try reflexivity; try exact Hpsi.
    unfold has_args in HhQ. rewrite Heql in HhQ. discriminate.
  - intros i c0 H0. destruct c; try discriminate.
    destruct i; cbn in H0; [|discriminate]. inversion H0; subst. exact I.
Qed.

Lemma args_call c : argful (Call c) = true -> launches_args (pc_of_call c).
Proof. destruct c; cbn; auto. Qed.

Lemma sound_sem c or w c' w1 :
  (forall q P, procs w !! q = Some P -> has_handle P /\ has_args (cmd P) = true) ->
  wraps_handle c /\ launches_args c ->
  pc_sem c or w = Ok c' w1 ->
  (forall q P, procs w1 !! q = Some P -> has_handle P /\ has_args (cmd P) = true) /\
  (wraps_handle c' /\ launches_args c') /\
  (forall i c0, spawned c !! i = Some c0 -> wraps_handle c0 /\ launches_args c0).
Proof.
  intros Hphi [Hp1 Hp2] Hsem.
  destruct (handles_sem c or w c' w1 (fun q P H => proj1 (Hphi q P H)) Hp1 Hsem)
    as (A1 & A2 & A3).
  destruct (args_sem c or w c' w1 (fun q P H => proj2 (Hphi q P H)) Hp2 Hsem)
    as (B1 & B2 & B3).
  split; [|split]; [intros q P H|..|intros i c0 H]; split; eauto.
Qed.

Lemma steps_argful ls : forall w pcs w',
  Inv w pcs ->
  Each (fun P => has_handle P /\ has_args (cmd P) = true)
       (fun c => wraps_handle c /\ launches_args c) w pcs ->
  crashed w = None -> forallb argful ls = true ->
  steps ls w = Some w' -> crashed w' = None.
Proof.
  induction ls as [|l ls IH]; intros w pcs w' HI HE Hcr Hok Hs; cbn in Hs, Hok.
  - inversion Hs; subst. exact Hcr.
  - apply andb_prop in Hok. destruct Hok as [Hl Hls].
    destruct (step l w) as [w1|] eqn:Hstep; [|discriminate].
    assert (Hexit : forall P sp werr,
               has_handle P /\ has_args (cmd P) = true ->
               has_handle (terminate P sp werr) /\ has_args (cmd (terminate P sp werr)) = true).
    { intros P sp werr [H1 H2]. split; [apply handles_exit, H1|exact H2]. }
    assert (Hcall : forall c, argful (Call c) = true ->
                              wraps_handle (pc_of_call c) /\ launches_args (pc_of_call c)).
    { intros c Hc. split; [apply handles_call; reflexivity|apply args_call, Hc]. }
    destruct (Each_step _ _ argful sound_sem Hexit Hcall w pcs l w1 HI HE Hl Hstep)
      as (pcs1 & HI1 & HE1).
    apply (IH w1 pcs1 w' HI1 HE1); try assumption.
    destruct (crashed w1) as [r|] eqn:Hr; [|reflexivity]. exfalso.
    destruct (step_crashed w l w1 r Hstep Hr) as (t & or & th & -> & Hth & _ & Hp).
    destruct (Forall2_lookup_l _ _ _ _ _ (proj1 HI) Hth) as (c & Hpc & Hcode & _).
    assert (HE0 : Each has_handle wraps_handle w pcs).
    { destruct HE as [E1 E2]. split.
      - intros q P H. exact (proj1 (E1 q P H)).
      - intros t0 c0 H. exact (proj1 (E2 t0 c0 H)). }
    destruct (only_slice_panic w pcs t c or r HI HE0 Hpc (Hp c Hcode)) as [-> _].
    exact (proj2 (proj2 HE t _ Hpc)).
Qed.

(** ** Controllers only move forward *)

Lemma status_le_refl a : status_le a a.
Proof. destruct a; cbn; auto. Qed.

Lemma status_le_trans a b c : status_le a b -> status_le b c -> status_le a c.
Proof. destruct a, b, c; cbn; intros H1 H2; try contradiction; try exact I; congruence. Qed.

Lemma handle_le_refl a : handle_le a a.
Proof.
  destruct a as [sp|]; cbn; [|exact I]. split; [apply status_le_refl|].
  exists []. rewrite app_nil_r. reflexivity.
Qed.

Lemma handle_le_trans a b c : handle_le a b -> handle_le b c -> handle_le a c.
Proof.
  destruct a as [x|], b as [y|], c as [z|]; cbn; try contradiction; auto.
  intros (H1 & s1 & E1) (H2 & s2 & E2). split; [eapply status_le_trans; eauto|].
  exists (s1 ++ s2)%list. rewrite E2, E1, app_assoc. reflexivity.
Qed.

Lemma once_le_refl a : once_le a a.
Proof. unfold once_le. destruct (o a) eqn:H; auto; congruence. Qed.

Lemma once_le_trans a b c : once_le a b -> once_le b c -> once_le a c.
Proof.
  unfold once_le. destruct (o a) eqn:Ha; [auto| |].
  - intros Hb. destruct (o b) eqn:Hb'; [congruence| |].
    + auto.
    + intros ->. congruence.
  - intros ->. rewrite Ha. auto.
Qed.

Lemma evolves_refl P : evolves P P.
Proof.
  unfold evolves. split; [reflexivity|]. split; [apply handle_le_refl|].
  split; [apply once_le_refl|]. auto.
Qed.

Lemma evolves_trans P Q R : evolves P Q -> evolves Q R -> evolves P R.
Proof.
  intros (A1 & A2 & A3 & A4 & A5 & A6 & A7) (B1 & B2 & B3 & B4 & B5 & B6 & B7).
  split; [congruence|]. split; [eapply handle_le_trans; eauto|].
  split; [eapply once_le_trans; eauto|]. split; [auto|]. lia.
Qed.

Lemma evolves_set_proc w p P P' :
  procs w !! p = Some P -> evolves P P' ->
  forall q Q, procs w !! q = Some Q ->
    exists Q', procs (set_proc w p P') !! q = Some Q' /\ evolves Q Q'.
Proof.
  intros HP He q Q HQ. destruct (decide (q = p)) as [->|Hne].
  - rewrite HP in HQ. inversion HQ; subst Q. exists P'.
    split; [eapply lookup_set_proc, HP|exact He].
  - exists Q. rewrite lookup_set_proc_ne by congruence. split; [exact HQ|apply evolves_refl].
Qed.

Ltac evolve_handle :=
  first
    [ apply handle_le_refl
    | match goal with
      | H : exec.Process _ = Some _ |- _ => rewrite H
      end;
      cbn;
      split;
      [ repeat match goal with H : os.state _ = _ |- _ => rewrite H end;
        cbn; first [exact I | reflexivity | apply status_le_refl]
      | first [ eexists; reflexivity
              | exists []; rewrite app_nil_r; reflexivity ] ] ].

Ltac evolve_once :=
  first
    [ apply once_le_refl
    | unfold once_le;
      match goal with H : o _ = _ |- _ => rewrite H end;
      cbn; first [exact I | discriminate | congruence] ].

Ltac evolve_tac :=
  unfold evolves;
  split; [reflexivity|];
  split; [evolve_handle|];
  split; [evolve_once|];
  split; [cbn; auto|];
  cbn; lia.

Lemma sem_evolves {X : Type} (e : event X) or w x w' :
  sem e or w = Ok x w' ->
  forall q Q, procs w !! q = Some Q ->
    exists Q', procs w' !! q = Some Q' /\ evolves Q Q'.
Proof.
  assert (Hsame : forall q Q, procs w !! q = Some Q ->
            exists Q', procs w !! q = Some Q' /\ evolves Q Q')
    by (intros q Q HQ; exists Q; split; [exact HQ|apply evolves_refl]).
  destruct e; cbn [sem]; intros H;
    try (destruct (procs w !! p) as [P|] eqn:HP; [|discriminate]);
    unfold recv_exit, chan_recv in H;
    dry_break H; inversion H; subst; try exact Hsame;
    try (apply (evolves_set_proc w p P _ HP); evolve_tac).
  intros q Q HQ. exists Q. split; [|apply evolves_refl].
  cbn. apply lookup_app_l_Some, HQ.
Qed.

Lemma forward_refl w : forward w w.
Proof.
  split; [|split].
  - intros q Q HQ. exists Q. split; [exact HQ|apply evolves_refl].
  - auto.
  - intros t th H. exists th. auto.
Qed.

Lemma forward_trans w1 w2 w3 : forward w1 w2 -> forward w2 w3 -> forward w1 w3.
Proof.
  intros (A1 & A2 & A3) (B1 & B2 & B3). split; [|split].
  - intros q Q HQ. destruct (A1 q Q HQ) as (Q1 & HQ1 & E1).
    destruct (B1 q Q1 HQ1) as (Q2 & HQ2 & E2).
    exists Q2. split; [exact HQ2|eapply evolves_trans; eauto].
  - auto.
  - intros t th H. destruct (A3 t th H) as (th1 & H1 & O1 & C1).
    destruct (B3 t th1 H1) as (th2 & H2 & O2 & C2).
    exists th2. split; [exact H2|]. split; [congruence|]. intros v Hv. eauto.
Qed.

Lemma step_forward l w w' : step l w = Some w' -> forward w w'.
Proof.
  intros Hstep. unfold step in Hstep.
  destruct (crashed w); [discriminate|].
  destruct l as [t or|p werr|id|c].
  - destruct (threads w !! t) as [th|] eqn:Hth; [|discriminate].
    destruct (code th) as [v|X e k] eqn:Hcode; [discriminate|].
    destruct (sem e or w) as [x w1| |r] eqn:Hsem; inversion Hstep; subst w'.
    + destruct (sem_frame e or w x w1 Hsem) as (_ & Hcan & _).
      destruct (sem_shape e or w x w1 Hsem) as (Hths & _).
      split; [|split].
      * exact (sem_evolves e or w x w1 Hsem).
      * cbn. rewrite Hcan. auto.
      * intros t0 th0 H0. cbn. rewrite Hths.
        destruct (decide (t0 = t)) as [->|Hne].
        -- rewrite Hth in H0. inversion H0; subst th0.
           eexists. split.
           ++ apply list_lookup_insert_eq. rewrite length_app.
              apply lookup_lt_Some in Hth. lia.
           ++ split; [reflexivity|]. intros v Hv. congruence.
        -- exists th0. rewrite list_lookup_insert_ne by congruence.
           split; [apply lookup_app_l_Some, H0|auto].
    + exact (forward_refl w).
  - destruct (procs w !! p) as [P|] eqn:HP; [|discriminate].
    destruct (exec.Process (cmd P)) as [sp|] eqn:Hh; [|discriminate].
    destruct (os.state sp) eqn:Hst; inversion Hstep; subst w'.
    split; [|split].
    + apply (evolves_set_proc w p P _ HP). evolve_tac.
    + auto.
    + intros t th H. exists th. auto.
  - inversion Hstep; subst w'. split; [|split].
    + intros q Q HQ. exists Q. split; [exact HQ|apply evolves_refl].
    + intros i Hi. cbn. right. exact Hi.
    + intros t th H. exists th. auto.
  - destruct (callable w c); inversion Hstep; subst w'. split; [|split].
    + intros q Q HQ. exists Q. split; [exact HQ|apply evolves_refl].
    + auto.
    + intros t th H. exists th. split; [cbn; apply lookup_app_l_Some, H|auto].
Qed.

Lemma steps_forward ls : forall w w', steps ls w = Some w' -> forward w w'.
Proof.
  induction ls as [|l ls IH]; intros w w' Hs; cbn in Hs.
  - inversion Hs; subst. apply forward_refl.
  - destruct (step l w) as [w1|] eqn:Hstep; [|discriminate].
    eapply forward_trans; [exact (step_forward l w w1 Hstep)|exact (IH w1 w' Hs)].
Qed.

(** * Further properties of the package *)

(** X1.  Every controller that a program can reach has a process handle,
    and the only panic that a program can stop with is the slice bounds
    panic of [Restart] on a command without arguments ([p.cmd.Args[1:]]):
    the package never dereferences a nil handle or a nil controller, never
    leaves the guard twice, and never closes or sends on the closed exit
    channel. *)
Theorem only_restart_can_panic (w : world) (Hw : reachable w) :
  (forall q P, procs w !! q = Some P -> exec.Process (cmd P) <> None) /\
  (forall r, crashed w = Some r -> r = SliceBoundsOutOfRange).
Proof.
  split.
  - destruct (reachable_handles w Hw) as (pcs & _ & (Hphi & _)). exact Hphi.
  - intros r Hr. destruct Hw as (ls & Hs).
    exact (steps_only_slice ls empty_world [] w r Inv_empty (Each_empty _ _)
             eq_refl Hs Hr).
Qed.

Lemma only_restart_can_panic_witness :
  crashed (after session_bare) = Some SliceBoundsOutOfRange /\
  crashed (after session_bare) <> Some NilDereference.
Proof.
  split; [vm_compute; reflexivity|]. intros H.
  assert (Hr : reachable (after session_bare))
    by (exists session_bare; vm_compute; reflexivity).
  pose proof (proj2 (only_restart_can_panic (after session_bare) Hr) _ H) as E.
  discriminate E.
Defined.

(** X2.  A program whose clients start only commands that have an argument
    zero, as all commands made by [exec.Command] have, never panics, in any
    interleaving of its goroutines. *)
Theorem argful_programs_never_panic (ls : list label) (w : world)
  (Hs : steps ls empty_world = Some w) (Hok : forallb argful ls = true) :
  crashed w = None.
Proof.
  apply (steps_argful ls empty_world [] w Inv_empty (Each_empty _ _) eq_refl Hok Hs).
Qed.

Lemma argful_programs_never_panic_witness : crashed (after session) = None.
Proof.
  apply (argful_programs_never_panic session (after session)); vm_compute; reflexivity.
Defined.

Lemma ctx_done_mono w w' cx :
  (forall id, In id (cancelled w) -> In id (cancelled w')) ->
  ctx_done w cx = true -> ctx_done w' cx = true.
Proof.
  intros H. destruct cx as [|id]; cbn; [auto|].
  rewrite !existsb_exists. intros (x & Hx & E). exists x. auto.
Qed.

(** X3.  No step of any goroutine, of a process or of a client undoes
    anything: a controller stays at its index with the same command
    descriptor; its process moves from running to terminated to collected
    and the signals delivered to it only grow; its guard moves from fresh
    to locked to finished and keeps the recorded error; its exit channel,
    once closed, stays closed; the numbers of sends, closes and runs of the
    guarded function do not decrease; a context that is done stays done;
    and a goroutine keeps what it returned. *)
Theorem steps_never_undo (ls : list label) (w w' : world)
  (Hs : steps ls w = Some w') :
  forward w w' /\ forall cx, ctx_done w cx = true -> ctx_done w' cx = true.
Proof.
  pose proof (steps_forward ls w w' Hs) as HF. split; [exact HF|].
  intros cx. apply ctx_done_mono. exact (proj1 (proj2 HF)).
Qed.

Lemma steps_never_undo_witness :
  forward (after session_deposit) (after session).
Proof.
  apply (steps_never_undo (session_wait ++ session_stop)
           (after session_deposit) (after session)).
  vm_compute. reflexivity.
Defined.

(** X4.  In every reachable world, once the background goroutine has sent
    the exit status, the status of the process was collected; so the first
    [Stop] or [Kill] finds the process done, returns nil and changes only
    the guard: it neither takes the status out of the exit channel nor
    closes the channel. *)
Theorem stop_after_deposit_is_trivial
  (w : world) (p : pid) (P : Process) (cx : ctx)
  (or0 or1 or2 or3 or4 : oracle) (ors : list oracle)
  (Hw : reachable w) (HP : procs w !! p = Some P)
  (Hs : 1 <= sends P) (Ho : o (once P) = Fresh) :
  collected P /\
  let w1 := set_proc w p (finish_once (lock_once P) nil_error) in
  yields (or0 :: or1 :: or2 :: or3 :: or4 :: ors) (Stop p cx) w nil_error w1 /\
  yields (or0 :: or1 :: or2 :: or3 :: or4 :: ors) (Kill p) w nil_error w1 /\
  exists P1, procs w1 !! p = Some P1 /\ exitCh P1 = exitCh P /\
             closes P1 = closes P /\ closed (exitCh P1) = false.
Proof.
  destruct (reachable_good w p P Hw HP) as (pcs & _ & G).
  destruct G as (_ & _ & G3 & G4 & _ & _ & G7 & _).
  assert (Hc : collected P) by (apply G7; left; exact Hs).
  split; [exact Hc|]. intros w1.
  pose proof (collected_gone P or2 Hc) as Hg.
  split; [exact (Stop_gone w p P cx or0 or1 or2 or3 or4 ors HP Ho Hg)|].
  split; [exact (Kill_gone w p P or0 or1 or2 or3 or4 ors HP Ho Hg)|].
  eexists. split; [exact (lookup_set_proc w p P _ HP)|].
  split; [reflexivity|]. split; [reflexivity|]. cbn.
  destruct (closed (exitCh P)) eqn:Hcl; [|reflexivity].
  destruct (G4 eq_refl) as [Hn _]. congruence.
Qed.

Lemma stop_after_deposit_is_trivial_witness :
  yields (repeat quiet 5) (Stop 0 Background) (after session_deposit) nil_error
         (set_proc (after session_deposit) 0
                   (finish_once (lock_once deposit_proc) nil_error)).
Proof.
  assert (Hr : reachable (after session_deposit))
    by (exists session_deposit; vm_compute; reflexivity).
  assert (HP : procs (after session_deposit) !! 0 = Some deposit_proc)
    by (vm_compute; reflexivity).
  assert (Hs : 1 <= sends deposit_proc) by (vm_compute; lia).
  destruct (stop_after_deposit_is_trivial (after session_deposit) 0 deposit_proc
              Background quiet quiet quiet quiet quiet [] Hr HP Hs eq_refl)
    as (_ & H & _).
  exact H.
Defined.

(** X5.  [Run] is [Start] followed by [Wait] on the new controller.  It
    returns the error of a failed launch (of a command that was already
    started too) and leaves the world as it was; after a launch it goes on
    as [Wait] with its own context on the controller that [Start] made, and
    on its own, while its context is not done, it waits there: it cannot
    return before the background goroutine has sent the status. *)
Theorem run_starts_then_waits (w : world) (c : Cmd) (cx : ctx)
  (or or1 or2 : oracle) (ors : list oracle) :
  (forall sp, exec.Process c = Some sp ->
     exists e, run (or :: ors) (Run c cx) w = Returns (Some e) w ors) /\
  (exec.Process c = None ->
   (forall e, launch or = Some e ->
      run (or :: ors) (Run c cx) w = Returns (Some e) w ors) /\
   (launch or = None ->
    let n := length (procs w) in
    let w1 := with_controller w (exec.with_Process c (Some launched)) in
    run (or :: or1 :: or2 :: ors) (Run c cx) w = run ors (Wait n cx) w1 /\
    (forall or3 ors', ors = or3 :: ors' -> ctx_done w cx = false ->
       run (or :: or1 :: or2 :: ors) (Run c cx) w = Waits (Wait n cx) w1))).
Proof.
  split.
  - intros sp Hh. eexists. unfold Run, Start. cbn [bind trigger].
    rewrite run_vis. cbn [sem]. rewrite Hh. cbn. apply run_ret.
  - intros Hh. split.
    + intros e Hl. unfold Run. rewrite run_bind, (Start_fails w c or ors e Hh Hl).
      apply run_ret.
    + intros Hl n w1.
      assert (E : run (or :: or1 :: or2 :: ors) (Run c cx) w = run ors (Wait n cx) w1).
      { unfold Run. rewrite run_bind, (Start_succeeds w c or or1 or2 ors Hh Hl).
        reflexivity. }
      split; [exact E|]. intros or3 ors' -> Hd. rewrite E.
      apply (Wait_blocks w1 n (new_proc (exec.with_Process c (Some launched)))).
      * unfold w1, n. cbn. rewrite lookup_app_r by lia. rewrite Nat.sub_diag. reflexivity.
      * reflexivity.
      * reflexivity.
      * exact Hd.
Qed.

(** X6.  [Run] returns the exit status of the process: when the command is
    launched, the process terminates with [werr] and the background
    goroutine has sent the status, [Run] returns [werr] itself (nil for a
    clean exit, the error for another status); the exit channel is left
    open and empty, the guard untouched, and both goroutines have
    returned. *)
Theorem run_returns_exit_status (c : Cmd) (werr : error)
  (Hc : exec.Process c = None) :
  exists w P,
    steps (run_session c werr) empty_world = Some w /\
    returned w 0 = Some (RErr werr) /\ returned w 1 = Some RUnit /\
    crashed w = None /\ procs w = [P] /\
    exitCh P = mkChan [] false /\ once P = mkOnce Fresh nil_error /\
    exec.Process (cmd P) = Some (os.mkProcess os.Reaped []) /\
    sends P = 1 /\ closes P = 0.
Proof.
  destruct c as [pa ar en di si so se ex pr]. cbn in Hc. subst pr.
  eexists. eexists. split; [cbn; reflexivity|]. cbn. repeat split.
Qed.

Lemma run_returns_exit_status_witness :
  returned (after (run_session sh_exit0 (Some (exit_status 7)))) 0
  = Some (RErr (Some (exit_status 7))).
Proof.
  destruct (run_returns_exit_status sh_exit0 (Some (exit_status 7)) eq_refl)
    as (w & P & Hs & Hr & _).
  unfold after. rewrite Hs. exact Hr.
Defined.

(** X7.  [Stop] of a running process: the interrupt is delivered, and when
    the process has terminated with [werr] and the background goroutine has
    sent the status, [Stop] takes it, closes the exit channel and returns
    nil if [werr] is nil or the interrupt error and [werr] otherwise.  The
    guard records that result, only the interrupt was delivered, and all
    goroutines have returned. *)
Theorem stop_interrupts_and_returns (c : Cmd) (cx : ctx) (werr : error)
  (Hc : exec.Process c = None) :
  exists w P,
    steps (stop_session c cx werr) empty_world = Some w /\
    returned w 2 = Some (RErr (unexpected isInterrupt werr)) /\
    returned w 0 = Some (RProc (Some 0, nil_error)) /\ returned w 1 = Some RUnit /\
    crashed w = None /\ procs w = [P] /\
    exitCh P = mkChan [] true /\
    once P = mkOnce Finished (unexpected isInterrupt werr) /\
    exec.Process (cmd P) = Some (os.mkProcess os.Reaped [os.Interrupt]) /\
    sends P = 1 /\ closes P = 1 /\ bodies P = 1.
Proof.
  destruct c as [pa ar en di si so se ex pr]. cbn in Hc. subst pr.
  destruct cx as [|id]; eexists; eexists; (split; [cbn; reflexivity|]);
    cbn; repeat split.
Qed.

Lemma stop_interrupts_and_returns_witness :
  returned (after (stop_session sh_exit0 Background (Some signal_interrupt))) 2
  = Some (RErr nil_error).
Proof.
  destruct (stop_interrupts_and_returns sh_exit0 Background (Some signal_interrupt) eq_refl)
    as (w & P & Hs & Hr & _).
  unfold after. rewrite Hs. exact Hr.
Defined.

(** X8.  [Stop] of a process that ignores the interrupt, with a context
    that is cancelled: [Stop] goes on as [kill], the kill signal is
    delivered after the interrupt, and when the process has terminated with
    [werr] and the status was sent, [Stop] returns nil if [werr] is nil or
    the kill error and [werr] otherwise; it never returns an error of the
    context. *)
Theorem stop_falls_back_to_kill (c : Cmd) (id : nat) (werr : error)
  (Hc : exec.Process c = None) :
  exists w P,
    steps (stop_cancel_session c id werr) empty_world = Some w /\
    returned w 2 = Some (RErr (unexpected isKilled werr)) /\
    returned w 1 = Some RUnit /\
    crashed w = None /\ procs w = [P] /\
    exitCh P = mkChan [] true /\
    once P = mkOnce Finished (unexpected isKilled werr) /\
    exec.Process (cmd P) = Some (os.mkProcess os.Reaped [os.Interrupt; os.Kill]) /\
    sends P = 1 /\ closes P = 1 /\ bodies P = 1.
Proof.
  destruct c as [pa ar en di si so se ex pr]. cbn in Hc. subst pr.
  eexists. eexists.
  split; [cbn; rewrite ?Nat.eqb_refl; cbn; reflexivity|]. cbn. repeat split.
Qed.

Lemma stop_falls_back_to_kill_witness :
  returned (after (stop_cancel_session sh_exit0 1 (Some signal_killed))) 2
  = Some (RErr nil_error).
Proof.
  destruct (stop_falls_back_to_kill sh_exit0 1 (Some signal_killed) eq_refl)
    as (w & P & Hs & Hr & _).
  unfold after. rewrite Hs. exact Hr.
Defined.

(** X9.  [Wait] with a context that is cancelled while the process runs:
    [Wait] goes on as [Kill], which enters the guard and delivers the kill
    signal, with no interrupt before it; when the process has terminated
    with [werr] and the status was sent, [Wait] returns nil if [werr] is
    nil or the kill error and [werr] otherwise, and the exit channel is
    closed. *)
Theorem cancelled_wait_kills (c : Cmd) (id : nat) (werr : error)
  (Hc : exec.Process c = None) :
  exists w P,
    steps (wait_cancel_session c id werr) empty_world = Some w /\
    returned w 2 = Some (RErr (unexpected isKilled werr)) /\
    returned w 1 = Some RUnit /\
    crashed w = None /\ procs w = [P] /\
    exitCh P = mkChan [] true /\
    once P = mkOnce Finished (unexpected isKilled werr) /\
    exec.Process (cmd P) = Some (os.mkProcess os.Reaped [os.Kill]) /\
    sends P = 1 /\ closes P = 1 /\ bodies P = 1.
Proof.
  destruct c as [pa ar en di si so se ex pr]. cbn in Hc. subst pr.
  eexists. eexists.
  split; [cbn; rewrite ?Nat.eqb_refl; cbn; reflexivity|]. cbn. repeat split.
Qed.

Lemma cancelled_wait_kills_witness :
  returned (after (wait_cancel_session sh_exit0 1 (Some signal_killed))) 2
  = Some (RErr nil_error).
Proof.
  destruct (cancelled_wait_kills sh_exit0 1 (Some signal_killed) eq_refl)
    as (w & P & Hs & Hr & _).
  unfold after. rewrite Hs. exact Hr.
Defined.

Lemma run_starts_then_waits_witness :
  run (repeat quiet 4) (Run sh_exit0 Background) empty_world
  = Waits (Wait 0 Background)
          (with_controller empty_world (exec.with_Process sh_exit0 (Some launched))).
Proof.
  destruct (run_starts_then_waits empty_world sh_exit0 Background
              quiet quiet quiet [quiet]) as [_ H].
  destruct (H eq_refl) as [_ H1]. destruct (H1 eq_refl) as [_ H2].
  exact (H2 quiet [] eq_refl eq_refl).
Defined.

(** X10.  [Exec.Command] does nothing to the world but look the name up.
    The command it returns has the looked-up path, the name as argument
    zero before the arguments, the directory, the environment and the three
    streams of the executor, no extra files and no process; for the
    executor of [New] the streams are the standard streams of the program.
    So the command has an argument zero, and [Start] of it reports the
    error of the launch and never that the command was already started. *)
Theorem command_inherits_executor (ex : Exec) (name : string) (args : list string)
  (w : world) (or : oracle) (ors : list oracle) :
  exists c,
    run (or :: ors) (Command ex name args) w = Returns c w ors /\
    exec.Path c = resolved or name /\ exec.Args c = name :: args /\
    exec.Dir c = Dir ex /\ exec.Env c = Env ex /\
    exec.Stderr c = Stderr ex /\ exec.Stdout c = Stdout ex /\
    exec.Stdin c = Stdin ex /\
    exec.ExtraFiles c = [] /\ exec.Process c = None /\
    (forall environ dir, ex = New environ dir ->
       descriptor c = (resolved or name, name :: args, environ, dir,
                       os_Stdin, os_Stdout, os_Stderr, [])) /\
    argful (Call (CallStart c)) = true /\
    (forall or' ors' w' e, launch or' = Some e ->
       run (or' :: ors') (Start c) w' = Returns (None, Some e) w' ors').
Proof.
  eexists. split.
  - unfold Command. cbn [bind trigger]. rewrite run_vis. cbn [sem]. apply run_ret.
  - repeat split; try reflexivity.
    + intros environ dir ->. reflexivity.
    + intros or' ors' w' e Hl. apply Start_fails; [reflexivity|exact Hl].
Qed.

(** X11.  The command of a restart is stable: when the lookup of the path
    gives the path back, [Restart] of a controller that a [Restart] made
    launches the very command that the first [Restart] launched, whose
    argument zero is the path. *)
Theorem restart_of_restart_is_stable
  (w : world) (p : pid) (P : Process) (c : Cmd) (args : list string)
  (h : option os.Process) (or or' : oracle) (ors : list oracle)
  (HP : procs w !! p = Some P)
  (Hc : cmd P = exec.with_Process (restart_cmd c (exec.Path c) args) h)
  (Hl : lookpath or' = None) :
  run (or :: or' :: ors) (relaunch p) w
  = run ors (Start (restart_cmd c (exec.Path c) args)) w /\
  exec.Args (restart_cmd c (exec.Path c) args) = exec.Path c :: args.
Proof.
  split; [|reflexivity].
  rewrite (relaunch_starts w p P (exec.Path c) args or or' ors HP).
  - rewrite Hc. unfold resolved. rewrite Hl. reflexivity.
  - rewrite Hc. reflexivity.
Qed.

Lemma restart_of_restart_is_stable_witness :
  let next := restart_cmd sh_exit0 "/bin/sh" ["-c"; "exit 0"] in
  let w := one_proc (new_proc (exec.with_Process next (Some launched))) in
  run (repeat quiet 5) (relaunch 0) w = run (repeat quiet 3) (Start next) w.
Proof.
  intros next w.
  exact (proj1 (restart_of_restart_is_stable w 0
                  (new_proc (exec.with_Process next (Some launched)))
                  sh_exit0 ["-c"; "exit 0"]
                  (Some launched) quiet quiet (repeat quiet 3)
                  eq_refl eq_refl eq_refl)).
Defined.

(** X12.  The two errors that [stop] and [kill] expect are different
    errors: no error is both the interrupt error and the kill error, and
    nil is neither, nor is it the error of a process that is done.  So nil
    is the only exit status that [Stop] turns into nil whichever signal
    it sent, and a process that was killed although [Stop] sent only the
    interrupt makes [Stop] return the kill error. *)
Theorem expected_errors_are_exclusive (e : error) :
  (isInterrupt e = true -> isKilled e = false) /\
  (isKilled e = true -> isInterrupt e = false) /\
  (isInterrupt e = true \/ isKilled e = true \/ isProcessDone e = true -> e <> nil_error) /\
  (unexpected isInterrupt e = nil_error -> unexpected isKilled e = nil_error ->
   e = nil_error) /\
  (isKilled e = true -> unexpected isInterrupt e = e) /\
  (isInterrupt e = true -> unexpected isKilled e = e).
Proof.
  assert (Hx : isInterrupt e = true -> isKilled e = true -> False).
  { destruct e as [g|]; cbn; [|discriminate]. intros H1 H2.
    apply String.eqb_eq in H1. apply String.eqb_eq in H2. rewrite H1 in H2.
    discriminate. }
  split; [|split; [|split; [|split; [|split]]]].
  - intros H. destruct (isKilled e) eqn:Hk; [exfalso; auto|reflexivity].
  - intros H. destruct (isInterrupt e) eqn:Hi; [exfalso; auto|reflexivity].
  - intros [H|[H|H]] ->; discriminate.
  - intros H1 H2. apply unexpected_nil in H1. apply unexpected_nil in H2.
    destruct H1 as [H1|H1]; [exact H1|]. destruct H2 as [H2|H2]; [exact H2|].
    exfalso. auto.
  - intros Hk. apply unexpected_verbatim.
    + intros ->. discriminate.
    + destruct (isInterrupt e) eqn:Hi; [exfalso; auto|reflexivity].
  - intros Hi. apply unexpected_verbatim.
    + intros ->. discriminate.
    + destruct (isKilled e) eqn:Hk; [exfalso; auto|reflexivity].
Qed.

Lemma expected_errors_are_exclusive_witness :
  unexpected isInterrupt (Some signal_killed) = Some signal_killed.
Proof.
  destruct (expected_errors_are_exclusive (Some signal_killed))
    as (_ & _ & _ & _ & H & _).
  exact (H eq_refl).
Defined.

Lemma returned_set_code w t th v :
  threads w !! t = Some th -> returned (set_code w t th (Ret v)) t = Some v.
Proof.
  intros Hth. unfold returned, set_code. cbn.
  rewrite list_lookup_insert_eq by (eapply lookup_lt_Some, Hth). reflexivity.
Qed.

Lemma send_step w t th p P e or :
  crashed w = None -> procs w !! p = Some P ->
  threads w !! t = Some th -> code th = denote (PSend p e) ->
  buf (exitCh P) = [] -> closed (exitCh P) = false ->
  step (Sched t or) w
  = Some (set_code (set_proc w p (send_exit P e)) t th (Ret RUnit)).
Proof.
  intros Hcr HP Hth Hcode Hb Hc.
  rewrite (step_sched w t or th (PSend p e) Hcr Hth Hcode).
  unfold pc_sem. cbn [pc_view sem]. rewrite HP, Hc, Hb. reflexivity.
Qed.

(** X13.  The background goroutine finishes: in a reachable world that has
    not panicked, once the process of a controller has terminated and the
    copying of its streams has finished (so that the wait for the process
    returns), the background goroutine of the controller returns after at
    most two steps of its own (collect the status, send it); the send does
    not wait, whatever the environment decides, and right after it the exit
    channel holds exactly the one value that was ever sent. *)
Theorem reaper_finishes (w : world) (t : nat) (th : thread) (p : pid) (P : Process)
  (or1 or2 : oracle)
  (Hw : reachable w) (Hcr : crashed w = None)
  (HP : procs w !! p = Some P)
  (Hth : threads w !! t = Some th) (Ho : origin th = GoWait p)
  (Hret : returned w t = None)
  (Hterm : forall sp, exec.Process (cmd P) = Some sp -> os.state sp <> os.Running)
  (Hcp : copying or1 = false) :
  exists ls w' P' e,
    (ls = [Sched t or1] \/ ls = [Sched t or1; Sched t or2]) /\
    steps ls w = Some w' /\
    returned w' t = Some RUnit /\ crashed w' = None /\
    procs w' !! p = Some P' /\
    exitCh P' = mkChan [e] false /\ sends P' = 1 /\ collected P'.
Proof.
  destruct (reachable_Inv w Hw) as (pcs & HI).
  destruct (Forall2_lookup_l _ _ _ _ _ (proj1 HI) Hth) as (c & Hpc & Hcode & Hok).
  pose proof (proj1 (proj2 (proj2 HI)) p P HP) as (_ & _ & _ & _ & G5 & G6 & G7 & _).
  pose proof (count_lookup_le (pending p) pcs t c Hpc) as Hle.
  pose proof (count_lookup_le (sending p) pcs t c Hpc) as Hle2.
  unfold returned in Hret. rewrite Hth, Hcode in Hret. rewrite Ho in Hok.
  destruct c as [q g K|q b K|q K|q|old args| |c sk|c sk|q sk|q cx|q|q e|v];
    cbn in Hok; try discriminate;
    apply Nat.eqb_eq in Hok; subst q;
    cbn in Hle, Hle2; rewrite Nat.eqb_refl in Hle; rewrite ?Nat.eqb_refl in Hle2;
    cbn in Hle, Hle2;
    assert (Hs0 : sends P = 0) by lia;
    assert (Hb : buf (exitCh P) = [])
      by (destruct (buf (exitCh P)); [reflexivity|cbn in G6; lia]);
    assert (Hc : closed (exitCh P) = false)
      by (destruct (closed (exitCh P)); [cbn in G6; lia|reflexivity]).
  - (* collect, then send *)
    assert (Hstep1 : exists e P1,
               step (Sched t or1) w
               = Some (set_code (set_proc w p P1) t th (denote (PSend p e))) /\
               exitCh P1 = exitCh P /\ sends P1 = sends P /\ collected P1).
    { rewrite (step_sched w t or1 th (PReap p) Hcr Hth Hcode).
      unfold pc_sem. cbn [pc_view sem]. rewrite HP.
      destruct (exec.Process (cmd P)) as [sp|] eqn:Hh.
      - specialize (Hterm sp eq_refl).
        destruct (os.state sp) eqn:Hst; [congruence| |].
        + rewrite Hcp. eexists. exists (reap P sp). split; [reflexivity|].
          split; [reflexivity|]. split; [reflexivity|]. reflexivity.
        + eexists. exists P. rewrite (set_proc_id w p P HP).
          split; [reflexivity|]. split; [reflexivity|]. split; [reflexivity|].
          unfold collected. rewrite Hh. exact Hst.
      - eexists. exists P. rewrite (set_proc_id w p P HP).
        split; [reflexivity|]. split; [reflexivity|]. split; [reflexivity|].
        unfold collected. rewrite Hh. exact I. }
    destruct Hstep1 as (e & P1 & Hstep1 & Hch & Hs1 & Hcol).
    set (w1 := set_code (set_proc w p P1) t th (denote (PSend p e))) in *.
    assert (HP1 : procs w1 !! p = Some P1) by (exact (lookup_set_proc w p P P1 HP)).
    assert (Hth1 : threads w1 !! t = Some (mkThread (origin th) (denote (PSend p e)))).
    { unfold w1, set_code. cbn.
      apply list_lookup_insert_eq. eapply lookup_lt_Some, Hth. }
    exists [Sched t or1; Sched t or2].
    exists (set_code (set_proc w1 p (send_exit P1 e)) t
                     (mkThread (origin th) (denote (PSend p e))) (Ret RUnit)).
    exists (send_exit P1 e), e.
    split; [right; reflexivity|]. split.
    + cbn [steps]. rewrite Hstep1.
      rewrite (send_step w1 t _ p P1 e or2 Hcr HP1 Hth1 eq_refl); [reflexivity| |];
        rewrite Hch; assumption.
    + split; [exact (returned_set_code _ t _ RUnit Hth1)|].
      split; [exact Hcr|].
      split; [exact (lookup_set_proc w1 p P1 _ HP1)|].
      split; [cbn; rewrite Hch, Hb, Hc; reflexivity|].
      split; [cbn; lia|exact Hcol].
  - (* send *)
    exists [Sched t or1].
    exists (set_code (set_proc w p (send_exit P e)) t th (Ret RUnit)).
    exists (send_exit P e), e.
    split; [left; reflexivity|]. split.
    + cbn [steps]. rewrite (send_step w t th p P e or1 Hcr HP Hth Hcode Hb Hc).
      reflexivity.
    + split; [exact (returned_set_code _ t _ RUnit Hth)|].
      split; [exact Hcr|].
      split; [exact (lookup_set_proc w p P _ HP)|].
      split; [cbn; rewrite Hb, Hc; reflexivity|].
      split; [cbn; lia|]. apply G7. right. lia.
Qed.

Lemma reaper_finishes_witness :
  exists ls w',
    steps ls (after session_exited) = Some w' /\ returned w' 1 = Some RUnit.
Proof.
  assert (Hr : reachable (after session_exited))
    by (exists session_exited; vm_compute; reflexivity).
  assert (Hterm : forall sp,
             exec.Process (cmd (started (os.Exited nil_error))) = Some sp ->
             os.state sp <> os.Running)
    by (intros sp H; inversion H; discriminate).
  destruct (reaper_finishes (after session_exited) 1
              (mkThread (GoWait 0) (wait 0 ;; Ret RUnit)) 0
              (started (os.Exited nil_error)) quiet quiet
              Hr eq_refl eq_refl eq_refl eq_refl eq_refl Hterm eq_refl)
    as (ls & w' & _ & _ & _ & Hs & Hret & _).
  exists ls, w'. split; assumption.
Defined.

Lemma confined_bind p {A B : Type} (m : prog A) (f : A -> prog B) :
  confined p m -> (forall a, confined p (f a)) -> confined p (bind m f).
Proof.
  intros Hm Hf. induction Hm as [a|X e k He Hk IH]; cbn.
  - apply Hf.
  - constructor; [exact He|]. exact IH.
Qed.

Lemma confined_trigger p {X : Type} (e : event X) :
  ev_pid e = Some p -> confined p (trigger e).
Proof. intros H. constructor; [exact H|]. intros x. constructor. Qed.

Ltac confine :=
  repeat first
    [ apply confined_ret
    | apply confined_trigger; reflexivity
    | apply confined_bind; [|intros ?]
    | match goal with
      | |- confined _ (if ?b then _ else _) => destruct b
      | |- confined _ (match ?x with _ => _ end) => destruct x
      end ].

Lemma confined_kill p : confined p (kill p).
Proof. unfold kill, kill_drain. confine. Qed.

Lemma confined_stop p cx : confined p (stop p cx).
Proof.
  unfold stop, stop_drain. confine; try apply confined_kill.
Qed.

Lemma confined_Do p fn : confined p fn -> confined p (onceError_Do p fn).
Proof. intros H. unfold onceError_Do. confine. exact H. Qed.

Lemma confined_Wait p cx : confined p (Wait p cx).
Proof.
  unfold Wait. confine.
Qed.

Lemma same_but_refl p w : same_but p w w.
Proof. repeat split. Qed.

Lemma same_but_trans p w1 w2 w3 : same_but p w1 w2 -> same_but p w2 w3 -> same_but p w1 w3.
Proof.
  intros (A1 & A2 & A3 & A4 & A5) (B1 & B2 & B3 & B4 & B5).
  repeat split; try congruence. intros q Hq. rewrite (B5 q Hq). exact (A5 q Hq).
Qed.

Lemma same_but_set_proc p w P : same_but p w (set_proc w p P).
Proof.
  repeat split.
  - cbn. apply length_insert.
  - intros q Hq. apply lookup_set_proc_ne. congruence.
Qed.

Lemma sem_confined {X : Type} (e : event X) or w x w1 p :
  ev_pid e = Some p -> sem e or w = Ok x w1 -> same_but p w w1.
Proof.
  intros He H. destruct e; cbn in He; try discriminate; inversion He; subst p0;
    cbn [sem] in H;
    (destruct (procs w !! p) as [P|] eqn:HP; [|discriminate]);
    unfold recv_exit, chan_recv in H;
    dry_break H; inversion H; subst;
    first [apply same_but_refl | apply same_but_set_proc].
Qed.

Lemma run_confined p {A : Type} (m : prog A) :
  confined p m -> forall ors w, same_but p w (final (run ors m w)).
Proof.
  intros Hm. induction Hm as [a|X e k He Hk IH]; intros ors w.
  - destruct ors; cbn; apply same_but_refl.
  - destruct ors as [|or ors]; cbn; [apply same_but_refl|].
    destruct (sem e or w) as [x w1| |r] eqn:Hsem; cbn; try apply same_but_refl.
    eapply same_but_trans; [exact (sem_confined e or w x w1 p He Hsem)|apply IH].
Qed.

(** X14.  [Stop], [Kill] and [Wait] of a controller, and its background
    [wait], are confined to the controller: however far such a call gets on
    its own, it starts no goroutine, makes no controller, cancels no
    context, and leaves every other controller exactly as it was. *)
Theorem stop_kill_wait_are_confined (p : pid) (cx : ctx) (m : prog error)
  (Hm : m = Stop p cx \/ m = Kill p \/ m = Wait p cx \/ m = (wait p ;; Ret nil_error)) :
  forall ors w, same_but p w (final (run ors m w)).
Proof.
  apply run_confined. destruct Hm as [-> | [-> | [-> | ->]]].
  - apply confined_Do, confined_stop.
  - apply confined_Do, confined_kill.
  - apply confined_Wait.
  - unfold wait. confine.
Qed.

Lemma stop_kill_wait_are_confined_witness :
  same_but 0 (after session_deposit)
           (final (run (repeat quiet 5) (Stop 0 Background) (after session_deposit))).
Proof.
  exact (stop_kill_wait_are_confined 0 Background (Stop 0 Background)
           (or_introl eq_refl) (repeat quiet 5) (after session_deposit)).
Defined.

Lemma sem_reaped {X : Type} (e : event X) or w x w1 q Q sp :
  sem e or w = Ok x w1 ->
  procs w !! q = Some Q -> exec.Process (cmd Q) = Some sp -> os.state sp = os.Reaped ->
  exists Q', procs w1 !! q = Some Q' /\ cmd Q' = cmd Q.
Proof.
  intros H HQ Hh Hst.
  assert (Hsame : exists Q', procs w !! q = Some Q' /\ cmd Q' = cmd Q)
    by (exists Q; auto).
  assert (Hset : forall p P P', procs w !! p = Some P -> cmd P' = cmd P ->
             exists Q', procs (set_proc w p P') !! q = Some Q' /\ cmd Q' = cmd Q).
  { intros p P P' HP Hc. destruct (decide (q = p)) as [->|Hne].
    - exists P'. split; [exact (lookup_set_proc w p P P' HP)|]. congruence.
    - exists Q. rewrite lookup_set_proc_ne by congruence. auto. }
  destruct e; cbn [sem] in H;
    try (destruct (procs w !! p) as [P|] eqn:HP; [|discriminate]);
    unfold recv_exit, chan_recv in H;
    dry_break H; inversion H; subst; try exact Hsame;
    try (apply (Hset p P _ HP); reflexivity);
    try (destruct (decide (q = p)) as [->|Hne];
         [exfalso; congruence
         |exists Q; rewrite lookup_set_proc_ne by congruence; auto]).
  exists Q. split; [cbn; apply lookup_app_l_Some, HQ|reflexivity].
Qed.

Lemma step_reaped l w w1 q Q sp :
  step l w = Some w1 ->
  procs w !! q = Some Q -> exec.Process (cmd Q) = Some sp -> os.state sp = os.Reaped ->
  exists Q', procs w1 !! q = Some Q' /\ cmd Q' = cmd Q.
Proof.
  intros Hstep HQ Hh Hst. unfold step in Hstep.
  destruct (crashed w); [discriminate|].
  destruct l as [t or|p werr|id|c].
  - destruct (threads w !! t) as [th|]; [|discriminate].
    destruct (code th) as [v|X e k]; [discriminate|].
    destruct (sem e or w) as [x w2| |r] eqn:Hsem; inversion Hstep; subst w1.
    + exact (sem_reaped e or w x w2 q Q sp Hsem HQ Hh Hst).
    + exists Q. auto.
  - destruct (procs w !! p) as [P|] eqn:HP; [|discriminate].
    destruct (exec.Process (cmd P)) as [sp'|] eqn:Hh'; [|discriminate].
    destruct (os.state sp') eqn:Hst'; inversion Hstep; subst w1.
    destruct (decide (q = p)) as [->|Hne].
    + exfalso. congruence.
    + exists Q. rewrite lookup_set_proc_ne by congruence. auto.
  - inversion Hstep; subst w1. exists Q. auto.
  - destruct (callable w c); inversion Hstep; subst w1. exists Q. auto.
Qed.

(** X15.  A process whose status was collected is left alone: whatever
    happens afterwards, the command and the handle of its controller stay
    as they are, so no signal is delivered to it any more, and every signal
    that [Stop] or [Kill] sends from then on is answered with
    [os.ErrProcessDone]. *)
Theorem collected_process_is_left_alone
  (ls : list label) (w w' : world) (p : pid) (P : Process) (sp : os.Process)
  (Hs : steps ls w = Some w') (HP : procs w !! p = Some P)
  (Hh : exec.Process (cmd P) = Some sp) (Hst : os.state sp = os.Reaped) :
  exists P', procs w' !! p = Some P' /\ cmd P' = cmd P /\
    forall sig or, sem (ESignal p sig) or w' = Ok (Some os.ErrProcessDone) w'.
Proof.
  revert w P HP Hh Hs. induction ls as [|l ls IH]; intros w P HP Hh Hs; cbn in Hs.
  - inversion Hs; subst w'. exists P. split; [exact HP|]. split; [reflexivity|].
    intros sig or. exact (sem_signal_reaped w p P or HP sp sig Hh Hst).
  - destruct (step l w) as [w1|] eqn:Hstep; [|discriminate].
    destruct (step_reaped l w w1 p P sp Hstep HP Hh Hst) as (P1 & HP1 & Hc1).
    destruct (IH w1 P1 HP1 ltac:(congruence) Hs) as (P' & HP' & Hc' & Hsig).
    exists P'. split; [exact HP'|]. split; [congruence|exact Hsig].
Qed.

Lemma collected_process_is_left_alone_witness :
  exists P', procs (after session) !! 0 = Some P' /\ cmd P' = cmd deposit_proc.
Proof.
  destruct (collected_process_is_left_alone (session_wait ++ session_stop)
              (after session_deposit) (after session) 0 deposit_proc
              (os.mkProcess os.Reaped []) eq_refl eq_refl eq_refl eq_refl)
    as (P' & HP' & Hc & _).
  exists P'. split; assumption.
Defined.

(** X16.  [Restart] after the process has terminated and a [Wait] has taken
    its status: [Stop] finds the process done and returns nil, and
    [Restart] launches the command again and returns a second controller,
    with its own running process, an empty open exit channel, a fresh
    guard and its own background goroutine; the first controller keeps its
    collected process and its open, empty exit channel, and only its guard
    has finished. *)
Theorem restart_after_exit (c : Cmd) (a0 : string) (args : list string) (werr : error)
  (Hc : exec.Process c = None) (Ha : exec.Args c = a0 :: args) :
  exists w P0 P1 th,
    steps (restart_session c werr) empty_world = Some w /\
    returned w 2 = Some (RErr werr) /\
    returned w 3 = Some (RProc (Some 1, nil_error)) /\
    crashed w = None /\ procs w = [P0; P1] /\
    once P0 = mkOnce Finished nil_error /\ exitCh P0 = mkChan [] false /\
    exec.Process (cmd P0) = Some (os.mkProcess os.Reaped []) /\
    P1 = new_proc (exec.with_Process (restart_cmd c (exec.Path c) args) (Some launched)) /\
    threads w !! 4 = Some th /\ origin th = GoWait 1 /\ returned w 4 = None.
Proof.
  destruct c as [pa ar en di si so se ex pr]. cbn in Hc, Ha. subst pr ar.
  do 4 eexists. split; [cbn; reflexivity|]. cbn. repeat split.
Qed.

Lemma restart_after_exit_witness :
  returned (after (restart_session sh_exit0 nil_error)) 3
  = Some (RProc (Some 1, nil_error)).
Proof.
  destruct (restart_after_exit sh_exit0 "sh" ["-c"; "exit 0"] nil_error eq_refl eq_refl)
    as (w & P0 & P1 & th & Hs & _ & Hr & _).
  unfold after. rewrite Hs. exact Hr.
Defined.

Lemma command_inherits_executor_witness :
  exists c,
    run [quiet] (Command (New [] "/tmp") "sh" ["-c"; "exit 0"]) empty_world
    = Returns c empty_world [] /\
    exec.Args c = ["sh"; "-c"; "exit 0"] /\ exec.Stdout c = os_Stdout.
Proof.
  destruct (command_inherits_executor (New [] "/tmp") "sh" ["-c"; "exit 0"]
              empty_world quiet [])
    as (c & Hrun & _ & Hargs & _ & _ & _ & Hout & _).
  exists c. split; [exact Hrun|]. split; [exact Hargs|exact Hout].
Defined.
